(** * tinygrad operation kernels: a shallow embedding of [tinygrad/ops.py]

    The numpy arrays the kernels work on are modelled as a shape together
    with the elements in row-major (C) order; every numpy primitive the
    kernels call is defined by what it does to the shape and to the element
    at each multi-index.  Python exceptions are results of an error monad. *)

From Stdlib Require Import List Arith ZArith Lia Bool Reals Lra Floats.
Import ListNotations.

Set Implicit Arguments.

(** ** Exceptions *)

Inductive exn : Type :=
| ValueError    (* numpy shape mismatch, bad reshape, empty reduction, bad unpack *)
| IndexError    (* too many indices, tuple index out of range *)
| AxisError     (* reduction axis out of bounds *)
| TypeError     (* a saved value of the wrong kind *)
| Unsupported.  (* outside the fragment of numpy that is modelled here *)

Inductive result (T : Type) : Type :=
| Ok (v : T)
| Raise (e : exn).
Arguments Ok {T} v.
Arguments Raise {T} e.

Definition bind {T U : Type} (m : result T) (k : T -> result U) : result U :=
  match m with
  | Ok v => k v
  | Raise e => Raise e
  end.

Notation "x <- m ;; k" := (bind m (fun x => k))
  (at level 61, m at next level, right associativity).

(** [for x in l: s = body(x, s)], stopping at the first exception. *)
Fixpoint for_ {I S : Type} (l : list I) (body : I -> S -> result S) (s : S)
  : result S :=
  match l with
  | [] => Ok s
  | i :: l' => s' <- body i s ;; for_ l' body s'
  end.

Definition range (n : nat) : list nat := seq 0 n.

(** ** Arrays *)

Record ndarray (T : Type) : Type := NDArray { shape : list nat; data : list T }.
Arguments NDArray {T} shape data.

(** Number of elements of an array of shape [sh]. *)
Definition numel (sh : list nat) : nat := fold_right Nat.mul 1 sh.

(** The invariant of every array: the buffer holds one element per index. *)
Definition wf {T : Type} (a : ndarray T) : Prop :=
  length (data a) = numel (shape a).

(** Row-major position of a multi-index. *)
Fixpoint ravel (sh idx : list nat) : nat :=
  match sh, idx with
  | _ :: sh', i :: idx' => i * numel sh' + ravel sh' idx'
  | _, _ => 0
  end.

(** The elements of the array of shape [sh] whose element at [idx] is
    [f idx], in row-major order. *)
Fixpoint tabulate {T : Type} (sh : list nat) (f : list nat -> T) : list T :=
  match sh with
  | [] => [f []]
  | n :: sh' => flat_map (fun i => tabulate sh' (fun idx => f (i :: idx))) (seq 0 n)
  end.

(** [idx] is a valid index of an array of shape [sh]. *)
Definition inb (sh idx : list nat) : Prop := Forall2 lt idx sh.

Definition ix (k : nat) (idx : list nat) : nat := nth k idx 0.

Definition get {T : Type} (d : T) (a : ndarray T) (idx : list nat) : T :=
  nth (ravel (shape a) idx) (data a) d.

Definition build {T : Type} (sh : list nat) (f : list nat -> T) : ndarray T :=
  NDArray sh (tabulate sh f).

(** ** Element type

    The kernels work on arrays of one float type.  The operations numpy
    applies to the elements are the fields of [Num]; what a theorem needs of
    them (that addition is associative and commutative for a result "up to
    summation order", say) is a hypothesis of that theorem. *)

Class Num (A : Type) : Type := {
  zero : A;
  one : A;
  add : A -> A -> A;
  sub : A -> A -> A;
  mul : A -> A -> A;
  ltb : A -> A -> bool   (* [ltb a b] is the comparison [a < b] *)
}.

(** [np.exp] and [np.log] on one element. *)
Class Transcendental (A : Type) : Type := {
  exp : A -> A;
  log : A -> A
}.

#[export] Instance Num_Z : Num Z := {
  zero := 0%Z; one := 1%Z;
  add := Z.add; sub := Z.sub; mul := Z.mul;
  ltb := Z.ltb
}.

(** The real numbers: floats without rounding, for the identities that
    hold "within tolerance". *)
#[export] Instance Num_R : Num R := {
  zero := 0%R; one := 1%R;
  add := Rplus; sub := Rminus; mul := Rmult;
  ltb := fun a b => if Rlt_dec a b then true else false
}.

#[export] Instance Transcendental_R : Transcendental R := {
  exp := Rtrigo_def.exp;
  log := ln
}.

(** ** numpy primitives that do not look at the elements *)

Section Shapes.
Context {T : Type}.

(** [a.reshape(newshape)]: a negative entry of [newshape] is the one
    dimension numpy infers; the element order is kept. *)
Definition is_unknown (d : Z) : bool := (d <? 0)%Z.

Definition known_numel (newshape : list Z) : Z :=
  fold_right Z.mul 1%Z (filter (fun d => negb (is_unknown d)) newshape).

Definition reshape (a : ndarray T) (newshape : list Z) : result (ndarray T) :=
  let n := Z.of_nat (numel (shape a)) in
  let known := known_numel newshape in
  match length (filter is_unknown newshape) with
  | 0 =>
      if (known =? n)%Z
      then Ok (NDArray (map Z.to_nat newshape) (data a))
      else Raise ValueError
  | 1 =>
      if (known =? 0)%Z || negb (n mod known =? 0)%Z
      then Raise ValueError
      else Ok (NDArray
                 (map (fun d => if is_unknown d then Z.to_nat (n / known) else Z.to_nat d)
                      newshape)
                 (data a))
  | _ => Raise ValueError
  end.

(** [a.T]: the axes reversed. *)
Definition transpose (d : T) (a : ndarray T) : ndarray T :=
  build (rev (shape a)) (fun idx => get d a (rev idx)).

(** [a[None]] *)
Definition expand_dims0 (a : ndarray T) : ndarray T :=
  NDArray (1 :: shape a) (data a).

(** [np.transpose(a, order)]: axis [p] of the result is axis
    [nth p order] of [a]. *)
Definition transpose_axes (d : T) (a : ndarray T) (order : list nat) : ndarray T :=
  build (map (fun ax => nth ax (shape a) 0) order)
        (fun idx =>
           get d a (map (fun ax =>
                           match find (fun p => nth p order 0 =? ax) (range (length order)) with
                           | Some p => nth p idx 0
                           | None => 0
                           end)
                        (range (length (shape a))))).

(** [np.moveaxis(a, source, destination)], as numpy defines it: the axes
    not in [source] keep their order, then each source axis is inserted
    at its destination, smallest destination first. *)
Fixpoint insert_sorted (p : nat * nat) (l : list (nat * nat)) : list (nat * nat) :=
  match l with
  | [] => [p]
  | q :: l' =>
      if (fst p <? fst q) || ((fst p =? fst q) && (snd p <=? snd q))
      then p :: l
      else q :: insert_sorted p l'
  end.

Definition sorted_pairs (l : list (nat * nat)) : list (nat * nat) :=
  fold_right insert_sorted [] l.

Definition list_insert (pos : nat) (v : nat) (l : list nat) : list nat :=
  firstn pos l ++ v :: skipn pos l.

Definition moveaxis (d : T) (a : ndarray T) (source destination : list nat)
  : result (ndarray T) :=
  let nd := length (shape a) in
  if negb (forallb (fun ax => ax <? nd) source && forallb (fun ax => ax <? nd) destination)
  then Raise AxisError
  else if negb (length source =? length destination)
          || negb (length (nodup Nat.eq_dec source) =? length source)
          || negb (length (nodup Nat.eq_dec destination) =? length destination)
  then Raise ValueError
  else
    let rest := filter (fun n => negb (existsb (Nat.eqb n) source)) (range nd) in
    let order := fold_left (fun ord p => list_insert (fst p) (snd p) ord)
                           (sorted_pairs (combine destination source)) rest in
    Ok (transpose_axes d a order).

(** Shape of [a op b] under numpy's broadcasting, on the reversed shapes:
    trailing axes are aligned, and two lengths agree when they are equal
    or one of them is 1. *)
Fixpoint broadcast_rev (r1 r2 : list nat) : option (list nat) :=
  match r1, r2 with
  | [], r => Some r
  | r, [] => Some r
  | a :: r1', b :: r2' =>
      match broadcast_rev r1' r2' with
      | None => None
      | Some r =>
          if a =? b then Some (a :: r)
          else if a =? 1 then Some (b :: r)
          else if b =? 1 then Some (a :: r)
          else None
      end
  end.

Definition broadcast_shapes (s1 s2 : list nat) : option (list nat) :=
  option_map (@rev nat) (broadcast_rev (rev s1) (rev s2)).

(** The index into an operand of shape [sh] that the index [idx] of the
    broadcast result reads. *)
Definition bindex (sh idx : list nat) : list nat :=
  map (fun p => if fst p =? 1 then 0 else snd p)
      (combine sh (skipn (length idx - length sh) idx)).

End Shapes.

(** [a op b] for an element-wise binary operation. *)
Definition ufunc2 {T U V : Type} (dT : T) (dU : U) (f : T -> U -> V)
    (a : ndarray T) (b : ndarray U) : result (ndarray V) :=
  match broadcast_shapes (shape a) (shape b) with
  | None => Raise ValueError
  | Some sh =>
      Ok (build sh (fun idx => f (get dT a (bindex (shape a) idx))
                                 (get dU b (bindex (shape b) idx))))
  end.

(** [op(a)] for an element-wise unary operation. *)
Definition ufunc1 {T U : Type} (f : T -> U) (a : ndarray T) : ndarray U :=
  NDArray (shape a) (map f (data a)).

(** ** numpy primitives on the elements *)

Section Kernels.
Context {A : Type} {NA : Num A}.

(** [a[idx]] *)
Definition at_ (a : ndarray A) (idx : list nat) : A := get zero a idx.

(** [np.zeros(sh)], [np.zeros_like(a)], [np.ones_like(a)] *)
Definition zeros (sh : list nat) : ndarray A := build sh (fun _ => zero).
Definition zeros_like (a : ndarray A) : ndarray A := zeros (shape a).
Definition ones_like (a : ndarray A) : ndarray A := build (shape a) (fun _ => one).

(** A boolean as an element, as numpy converts it in [float * bool]. *)
Definition of_bool (b : bool) : A := if b then one else zero.

(** [f 0 + f 1 + ... + f (n-1)], summed from the left. *)
Definition sum_range (n : nat) (f : nat -> A) : A :=
  fold_left (fun acc i => add acc (f i)) (range n) zero.

(** [a.sum()] *)
Definition np_sum (a : ndarray A) : A := fold_left add (data a) zero.

(** [a.sum(axis=1)] *)
Definition sum_axis1 (a : ndarray A) : result (ndarray A) :=
  match shape a with
  | d0 :: d1 :: rest =>
      Ok (build (d0 :: rest)
            (fun idx => sum_range d1 (fun j => at_ a (hd 0 idx :: j :: tl idx))))
  | _ => Raise AxisError
  end.

Definition maximum (a b : A) : A := if ltb a b then b else a.

(** The largest of [f 0 .. f (n-1)], for [0 < n]. *)
Definition max_range (n : nat) (f : nat -> A) : A :=
  fold_left (fun m j => maximum m (f j)) (seq 1 (n - 1)) (f 0).

(** The first position of the largest of [f 0 .. f (n-1)], for [0 < n]:
    a later candidate replaces the current one only when strictly larger. *)
Definition argmax_range (n : nat) (f : nat -> A) : nat :=
  fold_left (fun best j => if ltb (f best) (f j) then j else best) (seq 1 (n - 1)) 0.

(** [a.max(axis=1)]; numpy refuses to reduce over an empty axis. *)
Definition max_axis1 (a : ndarray A) : result (ndarray A) :=
  match shape a with
  | d0 :: d1 :: rest =>
      if d1 =? 0 then Raise ValueError
      else Ok (build (d0 :: rest)
                 (fun idx => max_range d1 (fun j => at_ a (hd 0 idx :: j :: tl idx))))
  | _ => Raise AxisError
  end.

(** [np.max(a, axis=0)] and [np.argmax(a, axis=0)] *)
Definition max_axis0 (a : ndarray A) : result (ndarray A) :=
  match shape a with
  | d0 :: rest =>
      if d0 =? 0 then Raise ValueError
      else Ok (build rest (fun idx => max_range d0 (fun j => at_ a (j :: idx))))
  | [] => Raise AxisError
  end.

Definition argmax_axis0 (a : ndarray A) : result (ndarray nat) :=
  match shape a with
  | d0 :: rest =>
      if d0 =? 0 then Raise ValueError
      else Ok (build rest (fun idx => argmax_range d0 (fun j => at_ a (j :: idx))))
  | [] => Raise AxisError
  end.

(** [np.concatenate(l, axis=0)]: the arrays agree on every axis but the
    first. *)
Definition concatenate0 (l : list (ndarray A)) : result (ndarray A) :=
  match l with
  | [] => Raise ValueError
  | a :: l' =>
      match shape a with
      | [] => Raise ValueError
      | d0 :: rest =>
          if forallb (fun b => match shape b with
                               | [] => false
                               | _ :: rest' =>
                                   if list_eq_dec Nat.eq_dec rest rest' then true else false
                               end) l'
          then Ok (NDArray (fold_left (fun n b => n + hd 0 (shape b)) l' d0 :: rest)
                           (flat_map (@data A) l))
          else Raise ValueError
      end
  end.

(** [a.dot(b)] for two matrices. *)
Definition dot (a b : ndarray A) : result (ndarray A) :=
  match shape a, shape b with
  | [m; k], [k'; n] =>
      if k =? k'
      then Ok (build [m; n]
                 (fun idx => sum_range k (fun l => mul (at_ a [ix 0 idx; l])
                                                      (at_ b [l; ix 1 idx]))))
      else Raise ValueError
  | _, _ => Raise Unsupported
  end.

(** Whether a value of shape [vs] can be assigned to a target of shape
    [ts]. *)
Definition broadcastable_to (vs ts : list nat) : bool :=
  match broadcast_shapes vs ts with
  | Some r => if list_eq_dec Nat.eq_dec r ts then true else false
  | None => false
  end.

(** [a += v] *)
Definition iadd (a v : ndarray A) : result (ndarray A) :=
  if broadcastable_to (shape v) (shape a)
  then Ok (build (shape a)
             (fun idx => add (at_ a idx) (at_ v (bindex (shape v) idx))))
  else Raise ValueError.

(** Length of the slice [lo:hi] of an axis of length [n]. *)
Definition slice_len (n lo hi : nat) : nat := Nat.min hi n - Nat.min lo n.

(** Length of the slice [lo::2] of an axis of length [n]. *)
Definition slice2_len (n lo : nat) : nat := (n - Nat.min lo n + 1) / 2.

(** [x[:, :, Y:Y+H, X:X+W]] *)
Definition window (x : ndarray A) (Y H X W : nat) : result (ndarray A) :=
  match shape x with
  | [d0; d1; d2; d3] =>
      Ok (build [d0; d1; slice_len d2 Y (Y + H); slice_len d3 X (X + W)]
            (fun idx => at_ x [ix 0 idx; ix 1 idx; Y + ix 2 idx; X + ix 3 idx]))
  | _ => if length (shape x) <? 4 then Raise IndexError else Raise Unsupported
  end.

(** [x[:, :, Y::2, X::2]] *)
Definition strided2 (x : ndarray A) (Y X : nat) : result (ndarray A) :=
  match shape x with
  | [d0; d1; d2; d3] =>
      Ok (build [d0; d1; slice2_len d2 Y; slice2_len d3 X]
            (fun idx => at_ x [ix 0 idx; ix 1 idx; Y + 2 * ix 2 idx; X + 2 * ix 3 idx]))
  | _ => if length (shape x) <? 4 then Raise IndexError else Raise Unsupported
  end.

(** [g[:, :, Y, X]] *)
Definition getitem_YX (g : ndarray A) (Y X : nat) : result (ndarray A) :=
  match shape g with
  | [d0; d1; d2; d3] =>
      if (Y <? d2) && (X <? d3)
      then Ok (build [d0; d1] (fun idx => at_ g [ix 0 idx; ix 1 idx; Y; X]))
      else Raise IndexError
  | _ => if length (shape g) <? 4 then Raise IndexError else Raise Unsupported
  end.

(** [ret[:, :, Y, X] = v] *)
Definition setitem_YX (ret : ndarray A) (Y X : nat) (v : ndarray A)
  : result (ndarray A) :=
  match shape ret with
  | [d0; d1; d2; d3] =>
      if (Y <? d2) && (X <? d3)
      then if broadcastable_to (shape v) [d0; d1]
           then Ok (build (shape ret)
                      (fun idx => if (ix 2 idx =? Y) && (ix 3 idx =? X)
                                  then at_ v (bindex (shape v) [ix 0 idx; ix 1 idx])
                                  else at_ ret idx))
           else Raise ValueError
      else Raise IndexError
  | _ => if length (shape ret) <? 4 then Raise IndexError else Raise Unsupported
  end.

(** [dx[:, :, Y:Y+H, X:X+W] += v] *)
Definition iadd_window (dx : ndarray A) (Y H X W : nat) (v : ndarray A)
  : result (ndarray A) :=
  match shape dx with
  | [d0; d1; d2; d3] =>
      let h := slice_len d2 Y (Y + H) in
      let w := slice_len d3 X (X + W) in
      if broadcastable_to (shape v) [d0; d1; h; w]
      then Ok (build (shape dx)
                 (fun idx =>
                    if (Y <=? ix 2 idx) && (ix 2 idx <? Y + h)
                       && (X <=? ix 3 idx) && (ix 3 idx <? X + w)
                    then add (at_ dx idx)
                             (at_ v (bindex (shape v)
                                       [ix 0 idx; ix 1 idx; ix 2 idx - Y; ix 3 idx - X]))
                    else at_ dx idx))
      else Raise ValueError
  | _ => if length (shape dx) <? 4 then Raise IndexError else Raise Unsupported
  end.

(** [ret[:, :, Y::2, X::2] = v] *)
Definition setitem_strided2 (ret : ndarray A) (Y X : nat) (v : ndarray A)
  : result (ndarray A) :=
  match shape ret with
  | [d0; d1; d2; d3] =>
      if broadcastable_to (shape v) [d0; d1; slice2_len d2 Y; slice2_len d3 X]
      then Ok (build (shape ret)
                 (fun idx =>
                    if (Y <=? ix 2 idx) && Nat.even (ix 2 idx - Y)
                       && (X <=? ix 3 idx) && Nat.even (ix 3 idx - X)
                    then at_ v (bindex (shape v)
                                  [ix 0 idx; ix 1 idx; (ix 2 idx - Y) / 2; (ix 3 idx - X) / 2])
                    else at_ ret idx))
      else Raise ValueError
  | _ => if length (shape ret) <? 4 then Raise IndexError else Raise Unsupported
  end.

(** [np.zeros(dims)] where the dimensions are Python integers. *)
Definition np_zeros (dims : list Z) : result (ndarray A) :=
  if existsb (fun d => d <? 0)%Z dims then Raise ValueError
  else Ok (zeros (map Z.to_nat dims)).

(** ** The context of one call and the gradients a backward returns *)

Inductive saved : Type :=
| STensor (a : ndarray A)
| SShape (s : list nat)
| SIndex (a : ndarray nat).

Record Ctx : Type := MkCtx { saved_tensors : list saved }.

Definition new_ctx : Ctx := MkCtx [].

(** Modelled from the spec: [save_for_backward] is a method of the class
    [Function] of tinygrad/tensor.py, which is not among the sources.  A
    context is the bag of saved values (arrays and shape tuples) that the
    forward call writes and the paired backward call reads. *)
Definition save_for_backward (ctx : Ctx) (xs : list saved) : Ctx :=
  MkCtx (saved_tensors ctx ++ xs).

(** One entry of the tuple a backward returns: an array, or Python's
    [None]. *)
Inductive grad : Type :=
| Grad (a : ndarray A)
| NoGrad.

(** ** The operations of ops.py *)

(** *** Reshape *)

Definition Reshape_forward (ctx : Ctx) (x : ndarray A) (shape_ : list Z)
  : result (Ctx * ndarray A) :=
  let ctx := save_for_backward ctx [SShape (shape x)] in
  r <- reshape x shape_ ;;
  Ok (ctx, r).

Definition Reshape_backward (ctx : Ctx) (grad_output : ndarray A)
  : result (grad * grad) :=
  match saved_tensors ctx with
  | [SShape in_shape] =>
      r <- reshape grad_output (map Z.of_nat in_shape) ;;
      Ok (Grad r, NoGrad)
  | [_] => Raise TypeError
  | _ => Raise ValueError
  end.

(** *** Mul *)

Definition Mul_forward (ctx : Ctx) (x y : ndarray A) : result (Ctx * ndarray A) :=
  let ctx := save_for_backward ctx [STensor x; STensor y] in
  r <- ufunc2 zero zero mul x y ;;
  Ok (ctx, r).

Definition Mul_backward (ctx : Ctx) (grad_output : ndarray A) : result (grad * grad) :=
  match saved_tensors ctx with
  | [STensor x; STensor y] =>
      gx <- ufunc2 zero zero mul y grad_output ;;
      gy <- ufunc2 zero zero mul x grad_output ;;
      Ok (Grad gx, Grad gy)
  | [_; _] => Raise TypeError
  | _ => Raise ValueError
  end.

(** *** Add *)

Definition Add_forward (ctx : Ctx) (x y : ndarray A) : result (Ctx * ndarray A) :=
  r <- ufunc2 zero zero add x y ;;
  Ok (ctx, r).

Definition Add_backward (ctx : Ctx) (grad_output : ndarray A) : result (grad * grad) :=
  Ok (Grad grad_output, Grad grad_output).

(** *** Dot *)

Definition Dot_forward (ctx : Ctx) (input weight : ndarray A)
  : result (Ctx * ndarray A) :=
  let ctx := save_for_backward ctx [STensor input; STensor weight] in
  r <- dot input weight ;;
  Ok (ctx, r).

Definition Dot_backward (ctx : Ctx) (grad_output : ndarray A) : result (grad * grad) :=
  match saved_tensors ctx with
  | [STensor input; STensor weight] =>
      grad_input <- dot grad_output (transpose zero weight) ;;
      gw <- dot (transpose zero grad_output) input ;;
      let grad_weight := transpose zero gw in
      Ok (Grad grad_input, Grad grad_weight)
  | [_; _] => Raise TypeError
  | _ => Raise ValueError
  end.

(** *** Sum *)

Definition Sum_forward (ctx : Ctx) (input : ndarray A) : result (Ctx * ndarray A) :=
  let ctx := save_for_backward ctx [STensor input] in
  Ok (ctx, NDArray [1] [np_sum input]).

Definition Sum_backward (ctx : Ctx) (grad_output : ndarray A) : result (ndarray A) :=
  match saved_tensors ctx with
  | [STensor input] => ufunc2 zero zero mul grad_output (ones_like input)
  | [_] => Raise TypeError
  | _ => Raise ValueError
  end.

(** *** LogSoftmax *)

Section LogSoftmax.
Context {TA : Transcendental A}.

Definition logsumexp (x : ndarray A) : result (ndarray A) :=
  c <- max_axis1 x ;;
  c1 <- reshape c [(-1)%Z; 1%Z] ;;
  xc <- ufunc2 zero zero sub x c1 ;;
  s <- sum_axis1 (ufunc1 exp xc) ;;
  ufunc2 zero zero add c (ufunc1 log s).

Definition LogSoftmax_forward (ctx : Ctx) (input : ndarray A)
  : result (Ctx * ndarray A) :=
  l <- logsumexp input ;;
  l1 <- reshape l [(-1)%Z; 1%Z] ;;
  output <- ufunc2 zero zero sub input l1 ;;
  let ctx := save_for_backward ctx [STensor output] in
  Ok (ctx, output).

Definition LogSoftmax_backward (ctx : Ctx) (grad_output : ndarray A)
  : result (ndarray A) :=
  match saved_tensors ctx with
  | [STensor output] =>
      s <- sum_axis1 grad_output ;;
      s1 <- reshape s [(-1)%Z; 1%Z] ;;
      e <- ufunc2 zero zero mul (ufunc1 exp output) s1 ;;
      ufunc2 zero zero sub grad_output e
  | [_] => Raise TypeError
  | _ => Raise ValueError
  end.

(** The value that row-wise log-softmax, computed as [logsumexp] does, has
    at row [i], column [j] of a matrix with [m] columns. *)
Definition logsoftmax_entry (x : ndarray A) (m i j : nat) : A :=
  let c := max_range m (fun k => at_ x [i; k]) in
  sub (at_ x [i; j])
      (add c (log (sum_range m (fun k => exp (sub (at_ x [i; k]) c))))).

End LogSoftmax.

(** *** MaxPool2x2 *)

Definition MaxPool2x2_forward (ctx : Ctx) (x : ndarray A) : result (Ctx * ndarray A) :=
  stack <- for_ (range 2) (fun Y stack =>
             for_ (range 2) (fun X stack =>
               s <- strided2 x Y X ;;
               Ok (stack ++ [expand_dims0 s])) stack) [] ;;
  stack <- concatenate0 stack ;;
  idxs <- argmax_axis0 stack ;;
  let ctx := save_for_backward ctx [SIndex idxs] in
  r <- max_axis0 stack ;;
  Ok (ctx, r).

Definition MaxPool2x2_backward (ctx : Ctx) (grad_output : ndarray A)
  : result (ndarray A) :=
  match saved_tensors ctx with
  | [SIndex idxs] =>
      match shape grad_output with
      | [s0; s1; s2; s3] =>
          let ret := zeros [s0; s1; s2 * 2; s3 * 2] in
          for_ (range 2) (fun Y ret =>
            for_ (range 2) (fun X ret =>
              m <- ufunc2 0 0 Nat.eqb idxs (NDArray [] [Y * 2 + X]) ;;
              v <- ufunc2 zero false (fun g b => mul g (of_bool b)) grad_output m ;;
              setitem_strided2 ret Y X v) ret) ret
      | _ => if length (shape grad_output) <? 4 then Raise IndexError
             else Raise Unsupported
      end
  | [_] => Raise TypeError
  | _ => Raise ValueError
  end.

End Kernels.

(** ** Convolution *)

Section Convolution.
Context {A : Type} {NA : Num A}.

(** Modelled from the spec: [im2col] of tinygrad/utils.py, which is not
    among the sources.  Patch extraction turns the 4-D input into a matrix
    whose rows are the flattened sliding windows, one row for every batch
    element and every window position (in that order, which is the one
    FastConv2D's [reshape(bs, oy, ox, cout)] reads the product in), each row
    being the window [x[b, :, Y:Y+H, X:X+W]] flattened.  A kernel larger
    than the input is a shape mismatch. *)
Definition im2col (x : ndarray A) (H W : nat) : result (ndarray A) :=
  match shape x with
  | [bs; cin; iy; ix_] =>
      if (H <=? iy) && (W <=? ix_)
      then
        let oy := iy + 1 - H in
        let ox := ix_ + 1 - W in
        Ok (NDArray [numel [bs; oy; ox]; numel [cin; H; W]]
              (tabulate [bs; oy; ox; cin; H; W]
                 (fun idx => at_ x [ix 0 idx; ix 3 idx;
                                    ix 1 idx + ix 4 idx; ix 2 idx + ix 5 idx])))
      else Raise ValueError
  | _ => Raise ValueError
  end.

(** [tx[:, Y, X]] for a 6-D array *)
Definition patch_YX (tx : ndarray A) (Y X : nat) : result (ndarray A) :=
  match shape tx with
  | [d0; d1; d2; d3; d4; d5] =>
      if (Y <? d1) && (X <? d2)
      then Ok (build [d0; d3; d4; d5]
                 (fun idx => at_ tx [ix 0 idx; Y; X; ix 1 idx; ix 2 idx; ix 3 idx]))
      else Raise IndexError
  | _ => Raise Unsupported
  end.

(** Modelled from the spec: [col2im] of tinygrad/utils.py, which is not
    among the sources.  Patch scatter is the adjoint of patch extraction:
    the patch matrix is read as (bs, oy, ox, cin, H, W), and every patch is
    added back into the window of the (bs, cin, OY, OX) result it was
    extracted from, overlapping windows accumulating.  The batch size and
    the number of channels are not arguments; they are what the shape of the
    patch matrix leaves once the window positions and the kernel size are
    known. *)
Definition col2im (tx : ndarray A) (H W : nat) (OY OX : Z) : result (ndarray A) :=
  match shape tx with
  | [rows; cols] =>
      let oy := (OY - (Z.of_nat H - 1))%Z in
      let ox := (OX - (Z.of_nat W - 1))%Z in
      if (oy <=? 0)%Z || (ox <=? 0)%Z || (H =? 0) || (W =? 0)
      then Raise ValueError
      else
        let bs := (Z.of_nat rows / (oy * ox))%Z in
        let cin := (Z.of_nat cols / Z.of_nat (H * W))%Z in
        tx6 <- reshape tx [bs; oy; ox; cin; Z.of_nat H; Z.of_nat W] ;;
        x <- np_zeros [bs; cin; OY; OX] ;;
        for_ (range (Z.to_nat oy)) (fun Y x =>
          for_ (range (Z.to_nat ox)) (fun X x =>
            p <- patch_YX tx6 Y X ;;
            iadd_window x Y H X W p) x) x
  | _ => Raise ValueError
  end.

(** *** Conv2D *)

Definition Conv2D_forward (ctx : Ctx) (x w : ndarray A) : result (Ctx * ndarray A) :=
  match shape w with
  | [cout; cin; H; W] =>
      tw0 <- reshape w [Z.of_nat cout; (-1)%Z] ;;
      let tw := transpose zero tw0 in
      match shape x with
      | bs :: _ :: xs2 :: xs3 :: _ =>
          let oy := (Z.of_nat xs2 - (Z.of_nat H - 1))%Z in
          let ox := (Z.of_nat xs3 - (Z.of_nat W - 1))%Z in
          let ctx := save_for_backward ctx [STensor x; STensor w] in
          ret <- np_zeros [Z.of_nat bs; Z.of_nat cout; oy; ox] ;;
          ret <- for_ (range (Z.to_nat oy)) (fun Y ret =>
                   for_ (range (Z.to_nat ox)) (fun X ret =>
                     p <- window x Y H X W ;;
                     tx <- reshape p [Z.of_nat bs; (-1)%Z] ;;
                     v <- dot tx tw ;;
                     setitem_YX ret Y X v) ret) ret ;;
          Ok (ctx, ret)
      | _ => Raise IndexError
      end
  | _ => Raise ValueError
  end.

Definition Conv2D_backward (ctx : Ctx) (grad_output : ndarray A)
  : result (grad * grad) :=
  match shape grad_output with
  | [bs; _; oy; ox] =>
      match saved_tensors ctx with
      | [STensor x; STensor w] =>
          match shape w with
          | [cout; cin; H; W] =>
              tw <- reshape w [Z.of_nat cout; (-1)%Z] ;;
              st <- for_ (range oy) (fun Y st =>
                      for_ (range ox) (fun X st =>
                        let dx := fst st in
                        let dw := snd st in
                        gg <- getitem_YX grad_output Y X ;;
                        p <- window x Y H X W ;;
                        tx <- reshape p [Z.of_nat (hd 0 (shape x)); (-1)%Z] ;;
                        m <- dot (transpose zero gg) tx ;;
                        m <- reshape m (map Z.of_nat (shape dw)) ;;
                        dw <- iadd dw m ;;
                        n <- dot gg tw ;;
                        n <- reshape n [Z.of_nat (nth 0 (shape dx) 0);
                                        Z.of_nat (nth 1 (shape dx) 0);
                                        Z.of_nat H; Z.of_nat W] ;;
                        dx <- iadd_window dx Y H X W n ;;
                        Ok (dx, dw)) st)
                      (zeros_like x, zeros_like w) ;;
              Ok (Grad (fst st), Grad (snd st))
          | _ => Raise ValueError
          end
      | [_; _] => Raise TypeError
      | _ => Raise ValueError
      end
  | _ => Raise ValueError
  end.

(** *** FastConv2D *)

Definition FastConv2D_forward (ctx : Ctx) (x w : ndarray A)
  : result (Ctx * ndarray A) :=
  match shape w with
  | [cout; cin; H; W] =>
      tw0 <- reshape w [Z.of_nat cout; (-1)%Z] ;;
      let tw := transpose zero tw0 in
      match shape x with
      | bs :: _ :: xs2 :: xs3 :: _ =>
          let oy := (Z.of_nat xs2 - (Z.of_nat H - 1))%Z in
          let ox := (Z.of_nat xs3 - (Z.of_nat W - 1))%Z in
          tx <- im2col x H W ;;
          let ctx := save_for_backward ctx [STensor tx; STensor w] in
          r <- dot tx tw ;;
          ret <- reshape r [Z.of_nat bs; oy; ox; Z.of_nat cout] ;;
          r <- moveaxis zero ret [0; 1; 2; 3] [0; 2; 3; 1] ;;
          Ok (ctx, r)
      | _ => Raise IndexError
      end
  | _ => Raise ValueError
  end.

Definition FastConv2D_backward (ctx : Ctx) (grad_output : ndarray A)
  : result (grad * grad) :=
  match shape grad_output with
  | [bs; _; oy; ox] =>
      match saved_tensors ctx with
      | [STensor tx; STensor w] =>
          match shape w with
          | [cout; cin; H; W] =>
              tw <- reshape w [Z.of_nat (hd 0 (shape w)); (-1)%Z] ;;
              g1 <- moveaxis zero grad_output [0; 1; 2; 3] [1; 0; 2; 3] ;;
              ggt <- reshape g1 [Z.of_nat cout; (-1)%Z] ;;
              dw0 <- dot ggt tx ;;
              dw <- reshape dw0 (map Z.of_nat (shape w)) ;;
              dxi <- dot (transpose zero ggt) tw ;;
              dx <- col2im dxi H W (Z.of_nat oy + (Z.of_nat H - 1))
                                   (Z.of_nat ox + (Z.of_nat W - 1)) ;;
              Ok (Grad dx, Grad dw)
          | _ => Raise ValueError
          end
      | [_; _] => Raise TypeError
      | _ => Raise ValueError
      end
  | _ => Raise ValueError
  end.

End Convolution.

(** ** ReLU *)

Section ReLUOp.
Context {A : Type} {NA : Num A}.

(** A Python scalar as an operand of an element-wise operation: an array
    of rank 0. *)
Definition scalar {T : Type} (v : T) : ndarray T := NDArray [] [v].

(** Whether a boolean mask of shape [ms] can index an array of shape
    [sh]: the mask has at most as many axes as the array, and each of its
    axes has the length of the array's axis.  numpy leaves the comparison
    out for a mask axis of length 0. *)
Fixpoint mask_fits (ms sh : list nat) : bool :=
  match ms, sh with
  | [], _ => true
  | m :: ms', a :: sh' => ((m =? 0) || (m =? a)) && mask_fits ms' sh'
  | _ :: _, [] => false
  end.

(** [arr[mask] = v] for a boolean array [mask] and a scalar [v]: the mask
    indexes the leading axes of [arr], and [v] is written where the mask
    holds [True]; a mask without elements selects nothing. *)
Definition setitem_mask (arr : ndarray A) (mask : ndarray bool) (v : A)
  : result (ndarray A) :=
  let k := length (shape mask) in
  if mask_fits (shape mask) (shape arr)
  then Ok (build (shape arr)
             (fun idx =>
                if negb (numel (shape mask) =? 0) && get false mask (firstn k idx)
                then v else at_ arr idx))
  else Raise IndexError.

Definition ReLU_forward (ctx : Ctx) (input : ndarray A) : result (Ctx * ndarray A) :=
  let ctx := save_for_backward ctx [STensor input] in
  r <- ufunc2 zero zero maximum input (scalar zero) ;;
  Ok (ctx, r).

Definition ReLU_backward (ctx : Ctx) (grad_output : ndarray A) : result (ndarray A) :=
  match saved_tensors ctx with
  | [STensor input] =>
      let grad_input := grad_output in
      m <- ufunc2 zero zero ltb input (scalar zero) ;;
      setitem_mask grad_input m zero
  | [_] => Raise TypeError
  | _ => Raise ValueError
  end.

End ReLUOp.

(** * [examples/hlb_cifar10.py]: the steps on numpy arrays

    The whitening patches and the batching of the evaluation data work on
    numpy arrays ([X.numpy()]); a [Tensor] made from a slice is modelled as
    the slice. *)

Section Cifar.
Context {T U : Type}.
Variable (dT : T) (dU : U).

(** [np.lib.stride_tricks.sliding_window_view(x, window_shape=(h, w),
    axis=(2, 3))] of an array of four axes: the windows are indexed by
    their first row and column, the offsets inside a window come last. *)
Definition sliding_window_view (x : ndarray T) (h w : nat) : result (ndarray T) :=
  match shape x with
  | [n; c; H; W] =>
      if (H <? h) || (W <? w) then Raise ValueError
      else Ok (build [n; c; H + 1 - h; W + 1 - w; h; w]
                 (fun idx => get dT x [ix 0 idx; ix 1 idx;
                                       ix 2 idx + ix 4 idx; ix 3 idx + ix 5 idx]))
  | _ => if length (shape x) <? 4 then Raise AxisError else Raise Unsupported
  end.

(** [_patches(data, patch_size=(h, w))] of [whitening] *)
Definition _patches (data : ndarray T) (h w : nat) : result (ndarray T) :=
  match shape data with
  | _ :: c :: _ =>
      v <- sliding_window_view data h w ;;
      reshape (transpose_axes dT v [0; 3; 2; 1; 4; 5])
              [(-1)%Z; Z.of_nat c; Z.of_nat h; Z.of_nat w]
  | _ => Raise IndexError
  end.

(** Python's [range(0, stop, step)] *)
Definition range_step (stop : nat) (step : Z) : result (list Z) :=
  if (step =? 0)%Z then Raise ValueError
  else if (step <? 0)%Z then Ok []
  else Ok (map (fun k => (Z.of_nat k * step)%Z)
               (range (Z.to_nat ((Z.of_nat stop + step - 1) / step)))).

(** Where a bound [i] of a slice falls on an axis of length [n]: a
    negative bound counts from the end, and every bound is clipped to the
    axis. *)
Definition slice_index (n : nat) (i : Z) : nat :=
  Z.to_nat (Z.min (Z.of_nat n)
                  (if (i <? 0)%Z then Z.max 0 (i + Z.of_nat n) else i)).

(** [a[start:stop]] *)
Definition getitem_rows {V : Type} (d : V) (a : ndarray V) (start stop : Z)
  : result (ndarray V) :=
  match shape a with
  | n :: rest =>
      let lo := slice_index n start in
      let hi := slice_index n stop in
      Ok (build ((hi - lo) :: rest)
            (fun idx => get d a ((lo + ix 0 idx) :: tl idx)))
  | [] => Raise IndexError
  end.

(** [fetch_batches(X_in, Y_in, BS, is_train=False)]: the batches of the
    one pass it makes over the data, in the order it yields them. *)
Definition fetch_batches (X_in : ndarray T) (Y_in : ndarray U) (BS : Z)
  : result (list (ndarray T * ndarray U)) :=
  let X := X_in in
  let Y := Y_in in
  match shape X with
  | nx :: _ =>
      is_ <- range_step nx BS ;;
      for_ is_ (fun i batches =>
        match shape Y with
        | ny :: _ =>
            let batch_end := Z.min (i + BS) (Z.of_nat ny) in
            x <- getitem_rows dT X (batch_end - BS) batch_end ;;
            y <- getitem_rows dU Y (batch_end - BS) batch_end ;;
            Ok (batches ++ [(x, y)])
        | [] => Raise IndexError
        end) []
  | [] => Raise IndexError
  end.

End Cifar.

(** [_cov(X)] of [whitening], on the real numbers.  For a matrix of one
    row the code divides by zero and numpy returns [inf] or [nan] entries,
    which the real numbers do not have: the model stops there. *)
Definition _cov (X : ndarray R) : result (ndarray R) :=
  p <- dot (transpose 0%R X) X ;;
  match shape X with
  | n :: _ =>
      if n =? 1 then Raise Unsupported
      else Ok (ufunc1 (fun v => (v / IZR (Z.of_nat n - 1))%R) p)
  | [] => Raise IndexError
  end.

(** * Binary64 floats

    The elements numpy computes with.  Addition, subtraction,
    multiplication and comparison are the IEEE 754 operations; the
    comparison-based [maximum] is numpy's on numbers that are not NaN. *)

#[export] Instance Num_float : Num float := {
  zero := 0%float; one := 1%float;
  add := PrimFloat.add; sub := PrimFloat.sub; mul := PrimFloat.mul;
  ltb := PrimFloat.ltb
}.

(** The integer a float holds. *)
Definition float_to_Z (x : float) : Z :=
  match Prim2SF x with
  | S754_finite s m e =>
      let v := if (0 <=? e)%Z then Z.shiftl (Zpos m) e
               else Z.shiftr (Zpos m) (- e) in
      if s then (- v)%Z else v
  | _ => 0%Z
  end.

Definition Z_to_float (e : Z) : float :=
  if (e <? 0)%Z then (- of_uint63 (Uint63.of_Z (- e)))%float
  else of_uint63 (Uint63.of_Z e).

(** [np.exp] and [np.log] on a binary64 number are the C library's, which
    are not part of the program; the two functions below stand for them.
    They reduce the argument as a C library does ([x = k ln 2 + r], and
    [x = m 2^e]), sum a series on the reduced argument, and agree with the
    C library's results to the last digit or the one before it. *)
Definition float_exp (x : float) : float :=
  if is_nan x then nan
  else if (0x1.62e42fefa39efp+9 <? x)%float then infinity
  else if (x <? -0x1.74910d52d3052p+9)%float then 0%float
  else
    let k := ((x * 0x1.71547652b82fep+0 + 0x1.8p+52) - 0x1.8p+52)%float in
    let r := ((x - k * 0x1.62e42feep-1) - k * 0x1.a39ef35793c76p-33)%float in
    let p := fold_left (fun acc n => (1 + r / n * acc)%float)
                       [13; 12; 11; 10; 9; 8; 7; 6; 5; 4; 3; 2; 1]%float
                       1%float in
    Z.ldexp p (float_to_Z k).

Definition float_log (x : float) : float :=
  if is_nan x then nan
  else if (x <? 0)%float then nan
  else if (x =? 0)%float then neg_infinity
  else if (x =? infinity)%float then infinity
  else
    let (m, e) := Z.frexp x in
    let (m, e) := if (m <? 0x1.6a09e667f3bcdp-1)%float
                  then ((m * 2)%float, (e - 1)%Z) else (m, e) in
    let s := ((m - 1) / (m + 1))%float in
    let z := (s * s)%float in
    let q := fold_left (fun acc n => (1 / n + z * acc)%float)
                       [21; 19; 17; 15; 13; 11; 9; 7; 5; 3]%float
                       (1 / 23)%float in
    let k := Z_to_float e in
    (k * 0x1.62e42feep-1
     + (2 * s * (1 + z * q) + k * 0x1.a39ef35793c76p-33))%float.


(** ** Entries of the convolution, for the statements about it *)

Section ConvolutionEntries.
Context {A : Type} {NA : Num A}.

(** Entry [l] of the window of [x] at batch element [b] and position
    [(Y, X)], flattened over (channel, row, column). *)
Definition patch_entry (x : ndarray A) (cin H W b Y X l : nat) : A :=
  nth l (tabulate [cin; H; W]
           (fun i => at_ x [b; ix 0 i; Y + ix 1 i; X + ix 2 i])) zero.

(** Entry [l] of the kernel of output channel [c], flattened likewise. *)
Definition kernel_entry (w : ndarray A) (cin H W c l : nat) : A :=
  nth (c * numel [cin; H; W] + l) (data w) zero.

(** The output of the convolution at [(b, c, Y, X)]. *)
Definition conv_entry (x w : ndarray A) (cin H W b c Y X : nat) : A :=
  sum_range (numel [cin; H; W])
    (fun l => mul (patch_entry x cin H W b Y X l) (kernel_entry w cin H W c l)).

(** Entry [l] of row [b] of [gg.dot(tw)] at the output position [(Y, X)]:
    the gradient of the window entries. *)
Definition dxi_entry (g w : ndarray A) (cout cin H W b Y X l : nat) : A :=
  sum_range cout
    (fun c => mul (at_ g [b; c; Y; X]) (kernel_entry w cin H W c l)).

(** Entry [l] of row [c] of [gg.T.dot(tx)] at the output position [(Y, X)]:
    what that position adds to the gradient of the kernel. *)
Definition dw_term (x g : ndarray A) (bs cin H W c Y X l : nat) : A :=
  sum_range bs
    (fun b => mul (at_ g [b; c; Y; X]) (patch_entry x cin H W b Y X l)).

(** What [dx[:, :, Y:Y+H, X:X+W] += t] does to the element at [idx] whose
    value was [v]. *)
Definition scatter_step (H W Y X : nat) (t : list nat -> A) (idx : list nat) (v : A)
  : A :=
  if (Y <=? ix 2 idx) && (ix 2 idx <? Y + H) && (X <=? ix 3 idx) && (ix 3 idx <? X + W)
  then add v (t [ix 0 idx; ix 1 idx; ix 2 idx - Y; ix 3 idx - X])
  else v.

End ConvolutionEntries.

(** ** Tactics for index bounds *)

(** Take an index known to be in bounds apart into its components. *)
Ltac inb_inv :=
  unfold inb in *;
  repeat match goal with
         | H : Forall2 lt _ (_ :: _) |- _ => inversion H; subst; clear H
         | H : Forall2 lt _ [] |- _ => inversion H; subst; clear H
         end.

(** Show that an explicit index is in bounds. *)
Ltac inb_solve := unfold inb; repeat constructor; try assumption; try lia.
(** ** Facts about indexing *)

Section Indexing.
Context {T : Type}.

Lemma length_flat_map_const (g : nat -> list T) (k : nat) (l : list nat) :
  (forall i, In i l -> length (g i) = k) ->
  length (flat_map g l) = length l * k.
Proof.
  induction l as [|a l IH]; simpl; intros Hg; [reflexivity|].
  rewrite length_app, Hg, IH by auto. reflexivity.
Qed.

Lemma flat_map_ext_in {I : Type} (f g : I -> list T) (l : list I) :
  (forall i, In i l -> f i = g i) -> flat_map f l = flat_map g l.
Proof.
  induction l as [|a l IH]; simpl; intros Hfg; [reflexivity|].
  rewrite Hfg, IH by auto. reflexivity.
Qed.

Lemma nth_map_seq (d : T) (f : nat -> T) (s k j : nat) :
  j < k -> nth j (map f (seq s k)) d = f (s + j).
Proof.
  intros Hj. rewrite (nth_indep _ d (f 0)) by (now rewrite length_map, length_seq).
  rewrite map_nth. now rewrite seq_nth.
Qed.

Lemma length_tabulate (sh : list nat) (f : list nat -> T) :
  length (tabulate sh f) = numel sh.
Proof.
  revert f; induction sh as [|n sh IH]; intros f; simpl; [reflexivity|].
  rewrite length_flat_map_const with (k := numel sh) by (intros; apply IH).
  now rewrite length_seq.
Qed.

Lemma nth_flat_map_seq (d : T) (g : nat -> list T) (k : nat) :
  forall n s i j,
    (forall x, length (g x) = k) ->
    i < n -> j < k ->
    nth (i * k + j) (flat_map g (seq s n)) d = nth j (g (s + i)) d.
Proof.
  induction n as [|n IH]; intros s i j Hg Hi Hj; [lia|].
  simpl. destruct i as [|i].
  - rewrite app_nth1 by (rewrite Hg; lia).
    simpl. now rewrite Nat.add_0_r.
  - rewrite app_nth2 by (rewrite Hg; simpl; lia).
    rewrite Hg.
    replace (S i * k + j - k) with (i * k + j) by (simpl; lia).
    rewrite IH by (auto; lia).
    f_equal. f_equal. lia.
Qed.

Lemma ravel_lt (sh idx : list nat) : inb sh idx -> ravel sh idx < numel sh.
Proof.
  unfold inb. intros H. induction H as [|i n idx sh Hi _ IH]; simpl; [lia|].
  nia.
Qed.

Lemma nth_tabulate (d : T) (sh idx : list nat) (f : list nat -> T) :
  inb sh idx -> nth (ravel sh idx) (tabulate sh f) d = f idx.
Proof.
  unfold inb. intros H. revert f.
  induction H as [|i n idx sh Hi Hrest IH]; intros f; simpl; [reflexivity|].
  rewrite nth_flat_map_seq with (k := numel sh).
  - simpl. apply (IH (fun idx => f (i :: idx))).
  - intros; apply length_tabulate.
  - exact Hi.
  - apply ravel_lt. exact Hrest.
Qed.

Lemma tabulate_ext (sh : list nat) (f g : list nat -> T) :
  (forall idx, inb sh idx -> f idx = g idx) ->
  tabulate sh f = tabulate sh g.
Proof.
  revert f g. induction sh as [|n sh IH]; intros f g Hfg; simpl.
  - f_equal. apply Hfg. constructor.
  - assert (Hin : forall i, In i (seq 0 n) -> i < n)
      by (intros i Hi; apply in_seq in Hi; lia).
    induction (seq 0 n) as [|a l IHl]; simpl; [reflexivity|].
    f_equal.
    + apply IH. intros idx Hidx. apply Hfg. constructor; auto.
      apply Hin. now left.
    + apply IHl. intros i Hi. apply Hin. now right.
Qed.

Lemma flat_map_seq_chunks (d : T) (k : nat) :
  forall n s (l : list T),
    length l = n * k ->
    flat_map (fun i => map (fun j => nth ((i - s) * k + j) l d) (seq 0 k)) (seq s n) = l.
Proof.
  induction n as [|n IH]; intros s l Hl; simpl.
  - destruct l; [reflexivity|discriminate].
  - transitivity (firstn k l ++ skipn k l); [|apply firstn_skipn]. f_equal.
    + rewrite Nat.sub_diag. simpl.
      apply nth_ext with (d := d) (d' := d).
      * rewrite length_map, length_seq, length_firstn. simpl in Hl. lia.
      * intros j Hj. rewrite length_map, length_seq in Hj.
        rewrite nth_map_seq by lia. simpl.
        rewrite nth_firstn.
        destruct (Nat.ltb_spec j k); [reflexivity|lia].
    + transitivity (flat_map
        (fun i => map (fun j => nth ((i - S s) * k + j) (skipn k l) d) (seq 0 k))
        (seq (S s) n));
        [|apply IH; rewrite length_skipn; simpl in Hl; lia].
      apply flat_map_ext_in. intros i Hi. apply in_seq in Hi.
      apply map_ext. intros j.
      rewrite nth_skipn. f_equal.
      replace (i - s) with (S (i - S s)) by lia. simpl. lia.
Qed.

Lemma tabulate_nth (d : T) (sh : list nat) (l : list T) :
  length l = numel sh ->
  tabulate sh (fun idx => nth (ravel sh idx) l d) = l.
Proof.
  revert l. induction sh as [|n sh IH]; intros l Hl; simpl in *.
  - destruct l as [|x [|y l]]; try discriminate. reflexivity.
  - transitivity (flat_map
      (fun i => map (fun j => nth ((i - 0) * numel sh + j) l d) (seq 0 (numel sh)))
      (seq 0 n)); [|now apply flat_map_seq_chunks].
    apply flat_map_ext_in. intros i Hi. apply in_seq in Hi.
    rewrite Nat.sub_0_r.
    rewrite <- (IH (map (fun j => nth (i * numel sh + j) l d) (seq 0 (numel sh))))
      by (now rewrite length_map, length_seq).
    apply tabulate_ext. intros idx Hidx.
    pose proof (ravel_lt Hidx) as Hlt.
    now rewrite nth_map_seq by lia.
Qed.

(** Two arrays of one shape with the same element at every index are
    the same array. *)
Lemma ndarray_ext (d : T) (a b : ndarray T) :
  wf a -> wf b -> shape a = shape b ->
  (forall idx, inb (shape a) idx -> get d a idx = get d b idx) ->
  a = b.
Proof.
  destruct a as [sa da], b as [sb db]. unfold wf, get. simpl.
  intros Ha Hb Hs Hget. subst sb. f_equal.
  rewrite <- (tabulate_nth d sa da Ha), <- (tabulate_nth d sa db Hb).
  apply tabulate_ext. exact Hget.
Qed.

Lemma wf_build (sh : list nat) (f : list nat -> T) : wf (build sh f).
Proof. unfold wf, build; simpl. apply length_tabulate. Qed.

Lemma get_build (d : T) (sh idx : list nat) (f : list nat -> T) :
  inb sh idx -> get d (build sh f) idx = f idx.
Proof. intros H. unfold get, build; simpl. now apply nth_tabulate. Qed.

Lemma shape_build (sh : list nat) (f : list nat -> T) : shape (build sh f) = sh.
Proof. reflexivity. Qed.

Lemma build_ext (sh : list nat) (f g : list nat -> T) :
  (forall idx, inb sh idx -> f idx = g idx) -> build sh f = build sh g.
Proof. intros H. unfold build. f_equal. now apply tabulate_ext. Qed.

Lemma ravel_app (sh1 sh2 idx1 idx2 : list nat) :
  length idx1 = length sh1 ->
  ravel (sh1 ++ sh2) (idx1 ++ idx2) = ravel sh1 idx1 * numel sh2 + ravel sh2 idx2.
Proof.
  revert idx1. induction sh1 as [|n sh1 IH]; intros [|i idx1] Hl;
    try discriminate; simpl; [reflexivity|].
  rewrite IH by (simpl in Hl; lia).
  assert (Hn : numel (sh1 ++ sh2) = numel sh1 * numel sh2).
  { clear. induction sh1; simpl; [lia|]. rewrite IHsh1. lia. }
  rewrite Hn. lia.
Qed.

Lemma numel_app (sh1 sh2 : list nat) :
  numel (sh1 ++ sh2) = numel sh1 * numel sh2.
Proof. induction sh1; simpl; [lia|]. rewrite IHsh1. lia. Qed.

End Indexing.


(** ** Facts about reshape and broadcasting *)

Lemma inb_length (sh idx : list nat) : inb sh idx -> length idx = length sh.
Proof. intros H. induction H; simpl; congruence. Qed.

Lemma known_numel_nonneg (s : list Z) : (0 <= known_numel s)%Z.
Proof.
  unfold known_numel. induction s as [|d s IH]; simpl; [lia|].
  destruct (is_unknown d) eqn:E; simpl; [exact IH|].
  unfold is_unknown in E. apply Z.ltb_ge in E.
  apply Z.mul_nonneg_nonneg; assumption.
Qed.

Lemma numel_inferred (q : nat) (s : list Z) :
  numel (map (fun d => if is_unknown d then q else Z.to_nat d) s)
  = q ^ length (filter is_unknown s) * Z.to_nat (known_numel s).
Proof.
  unfold known_numel. induction s as [|d s IH]; simpl; [reflexivity|].
  rewrite IH. destruct (is_unknown d) eqn:E; simpl; [ring|].
  unfold is_unknown in E. apply Z.ltb_ge in E.
  rewrite Z2Nat.inj_mul by (auto; apply known_numel_nonneg). ring.
Qed.

Lemma map_to_nat_no_unknown (q : nat) (s : list Z) :
  length (filter is_unknown s) = 0 ->
  map Z.to_nat s = map (fun d => if is_unknown d then q else Z.to_nat d) s.
Proof.
  induction s as [|d s IH]; simpl; [reflexivity|].
  destruct (is_unknown d); simpl; [discriminate|].
  intros H. now rewrite IH.
Qed.

Lemma reshape_Ok {T : Type} (a b : ndarray T) (s : list Z) :
  reshape a s = Ok b ->
  numel (shape b) = numel (shape a) /\ data b = data a.
Proof.
  unfold reshape.
  destruct (length (filter is_unknown s)) as [|[|k]] eqn:Hc; [| |discriminate].
  - destruct (Z.eqb_spec (known_numel s) (Z.of_nat (numel (shape a)))) as [He|];
      [|discriminate].
    intros H; injection H as <-. simpl. split; [|reflexivity].
    rewrite (map_to_nat_no_unknown 0 s Hc), numel_inferred, Hc, He.
    rewrite Nat2Z.id. simpl. lia.
  - destruct (Z.eqb_spec (known_numel s) 0) as [|Hk]; [discriminate|].
    destruct (Z.eqb_spec (Z.of_nat (numel (shape a)) mod known_numel s) 0)
      as [Hm|]; [|discriminate].
    simpl. intros H; injection H as <-. simpl. split; [|reflexivity].
    rewrite numel_inferred, Hc. simpl.
    pose proof (known_numel_nonneg s) as Hnn.
    rewrite Nat.mul_1_r, <- Z2Nat.inj_mul by (auto; apply Z.div_pos; lia).
    apply (Z.div_exact _ _ Hk) in Hm.
    rewrite Z.mul_comm, <- Hm. apply Nat2Z.id.
Qed.

Lemma known_numel_of_nat (sh : list nat) :
  filter is_unknown (map Z.of_nat sh) = []
  /\ known_numel (map Z.of_nat sh) = Z.of_nat (numel sh).
Proof.
  unfold known_numel. induction sh as [|n sh [IH1 IH2]]; simpl; [split; reflexivity|].
  assert (E : is_unknown (Z.of_nat n) = false) by (apply Z.ltb_ge; lia).
  rewrite E. simpl. split; [exact IH1|]. rewrite IH2. lia.
Qed.

Lemma map_to_nat_of_nat (sh : list nat) : map Z.to_nat (map Z.of_nat sh) = sh.
Proof.
  induction sh as [|n sh IH]; simpl; [reflexivity|].
  now rewrite Nat2Z.id, IH.
Qed.

(** Reshaping to explicit dimensions with the right number of elements
    succeeds and keeps the buffer. *)
Lemma reshape_of_nat {T : Type} (a : ndarray T) (sh : list nat) :
  numel sh = numel (shape a) ->
  reshape a (map Z.of_nat sh) = Ok (NDArray sh (data a)).
Proof.
  intros H. unfold reshape.
  destruct (known_numel_of_nat sh) as [-> ->]. simpl.
  rewrite H, Z.eqb_refl, map_to_nat_of_nat. reflexivity.
Qed.

Lemma reshape_of_nat_inv {T : Type} (a b : ndarray T) (sh : list nat) :
  reshape a (map Z.of_nat sh) = Ok b ->
  numel sh = numel (shape a) /\ b = NDArray sh (data a).
Proof.
  unfold reshape. destruct (known_numel_of_nat sh) as [-> ->]. simpl.
  destruct (Z.eqb_spec (Z.of_nat (numel sh)) (Z.of_nat (numel (shape a))));
    [|discriminate].
  rewrite map_to_nat_of_nat. intros H; injection H as <-. split; [lia|reflexivity].
Qed.

Lemma bindex_inb (sh idx : list nat) : inb sh idx -> bindex sh idx = idx.
Proof.
  intros H. unfold bindex. rewrite (inb_length H), Nat.sub_diag. simpl.
  induction H as [|i n idx sh Hi _ IH]; simpl; [reflexivity|].
  rewrite IH. destruct (Nat.eqb_spec n 1); [f_equal; lia|reflexivity].
Qed.

Lemma broadcast_rev_same (r : list nat) : broadcast_rev r r = Some r.
Proof.
  induction r as [|a r IH]; simpl; [reflexivity|].
  now rewrite IH, Nat.eqb_refl.
Qed.

Lemma broadcast_shapes_same (sh : list nat) : broadcast_shapes sh sh = Some sh.
Proof.
  unfold broadcast_shapes. rewrite broadcast_rev_same. simpl.
  now rewrite rev_involutive.
Qed.

Lemma broadcast_shapes_nil_l (sh : list nat) : broadcast_shapes [] sh = Some sh.
Proof. unfold broadcast_shapes. simpl. now rewrite rev_involutive. Qed.

Lemma broadcast_shapes_nil_r (sh : list nat) : broadcast_shapes sh [] = Some sh.
Proof.
  unfold broadcast_shapes. rewrite <- (rev_involutive sh) at 2.
  destruct (rev sh); reflexivity.
Qed.

Lemma broadcast_shapes_one_l (sh : list nat) :
  sh <> [] -> broadcast_shapes [1] sh = Some sh.
Proof.
  intros Hne. unfold broadcast_shapes.
  assert (Hr : rev sh <> []).
  { intros E. apply Hne. now rewrite <- (rev_involutive sh), E. }
  rewrite <- (rev_involutive sh) at 2.
  destruct (rev sh) as [|b r]; [congruence|].
  cbn [rev app broadcast_rev].
  destruct (Nat.eqb_spec 1 b) as [<-|]; reflexivity.
Qed.

Lemma bindex_one (idx : list nat) : idx <> [] -> bindex [1] idx = [0].
Proof.
  intros Hne. unfold bindex. simpl.
  assert (Hl : length (skipn (length idx - 1) idx) = 1).
  { rewrite length_skipn. destruct idx as [|i idx]; [congruence|].
    cbn [length]. lia. }
  destruct (skipn (length idx - 1) idx) as [|z [|z' l]]; try discriminate.
  reflexivity.
Qed.

Lemma bindex_nil (idx : list nat) : bindex [] idx = [].
Proof. reflexivity. Qed.

Lemma broadcastable_to_same (sh : list nat) : broadcastable_to sh sh = true.
Proof.
  unfold broadcastable_to. rewrite broadcast_shapes_same.
  destruct (list_eq_dec Nat.eq_dec sh sh); congruence.
Qed.

(** ** Reshape, Add and Sum *)

Section SimpleOps.
Context {A : Type} {NA : Num A}.

Lemma Reshape_forward_inv (ctx ctx' : Ctx) (x y : ndarray A) (s : list Z) :
  Reshape_forward ctx x s = Ok (ctx', y) ->
  reshape x s = Ok y /\ ctx' = save_for_backward ctx [SShape (shape x)].
Proof.
  unfold Reshape_forward. destruct (reshape x s) as [r|e]; simpl; [|discriminate].
  intros H; injection H as <- <-. split; reflexivity.
Qed.

(** C5: reshaping to a valid target shape and then back to the original
    shape recovers the array exactly, and the backward pass through the two
    reshapes returns the upstream gradient unchanged (with the placeholder
    for the shape argument at each step). *)
Theorem Reshape_roundtrip (x y : ndarray A) (s : list Z) (ctx1 : Ctx) :
  Reshape_forward new_ctx x s = Ok (ctx1, y) ->
  exists ctx2,
    Reshape_forward new_ctx y (map Z.of_nat (shape x)) = Ok (ctx2, x)
    /\ forall g : ndarray A,
        shape g = shape x ->
        exists g1,
          Reshape_backward ctx2 g = Ok (Grad g1, NoGrad)
          /\ Reshape_backward ctx1 g1 = Ok (Grad g, NoGrad).
Proof.
  intros Hfwd. apply Reshape_forward_inv in Hfwd as [Hr ->].
  apply reshape_Ok in Hr as [Hn Hd].
  exists (save_for_backward new_ctx [SShape (shape y)]). split.
  - unfold Reshape_forward. rewrite reshape_of_nat by (symmetry; exact Hn).
    simpl. rewrite Hd. destruct x; reflexivity.
  - intros g Hg. exists (NDArray (shape y) (data g)). split.
    + unfold Reshape_backward. simpl.
      rewrite reshape_of_nat by (rewrite Hg; exact Hn). reflexivity.
    + unfold Reshape_backward. simpl.
      rewrite reshape_of_nat by (simpl; symmetry; exact Hn).
      simpl. rewrite <- Hg. destruct g; reflexivity.
Qed.

(** C6, as the code has it: Reshape's backward returns an array for the
    input and the placeholder [None] for the shape argument; Add's backward
    returns no placeholder but the incoming gradient itself for both of its
    inputs. *)
Theorem backward_placeholders :
  (forall (ctx : Ctx) (g : ndarray A) (d1 d2 : grad),
      Reshape_backward ctx g = Ok (d1, d2) ->
      d2 = NoGrad /\ exists r, d1 = Grad r)
  /\ (forall (x y g : ndarray A) (s : list Z) (ctx : Ctx),
         Reshape_forward new_ctx x s = Ok (ctx, y) ->
         shape g = shape y ->
         Reshape_backward ctx g = Ok (Grad (NDArray (shape x) (data g)), NoGrad))
  /\ (forall (ctx : Ctx) (g : ndarray A),
         Add_backward ctx g = Ok (Grad g, Grad g)).
Proof.
  split; [|split].
  - intros ctx g d1 d2. unfold Reshape_backward.
    destruct (saved_tensors ctx) as [|[a|in_shape|a] [|? ?]]; try discriminate.
    destruct (reshape g (map Z.of_nat in_shape)) as [r|e]; simpl; [|discriminate].
    intros H; injection H as <- <-. split; [reflexivity|now exists r].
  - intros x y g s ctx Hfwd Hg.
    apply Reshape_forward_inv in Hfwd as [Hr ->].
    apply reshape_Ok in Hr as [Hn _].
    unfold Reshape_backward. simpl.
    rewrite reshape_of_nat by (rewrite Hg; symmetry; exact Hn). reflexivity.
  - reflexivity.
Qed.

Lemma ufunc2_Ok {T U V : Type} (dT : T) (dU : U) (f : T -> U -> V)
    (a : ndarray T) (b : ndarray U) (sh : list nat) :
  broadcast_shapes (shape a) (shape b) = Some sh ->
  ufunc2 dT dU f a b
  = Ok (build sh (fun idx => f (get dT a (bindex (shape a) idx))
                              (get dU b (bindex (shape b) idx)))).
Proof. intros H. unfold ufunc2. now rewrite H. Qed.

(** C7, as the code has it: Sum's forward saves the input array itself
    (not only its shape) and returns the sum of all elements as an array of
    one element; for a one-element incoming gradient [g] (of shape () or, for
    an input of rank at least 1, of shape (1,)) its backward returns an
    array of the input's shape whose every element is [g]. *)
Theorem Sum_forward_backward (x : ndarray A) :
  Sum_forward new_ctx x = Ok (MkCtx [STensor x], NDArray [1] [np_sum x])
  /\ forall (g : A) (gs : list nat),
      (forall a : A, mul a one = a) ->
      gs = [] \/ (gs = [1] /\ shape x <> []) ->
      exists r,
        Sum_backward (MkCtx [STensor x]) (NDArray gs [g]) = Ok r
        /\ shape r = shape x
        /\ wf r
        /\ forall idx, inb (shape x) idx -> at_ r idx = g.
Proof.
  split; [reflexivity|].
  intros g gs Hmul Hgs. unfold Sum_backward. simpl.
  assert (Hb : broadcast_shapes gs (shape (ones_like x)) = Some (shape x)).
  { destruct Hgs as [->|[-> Hne]]; simpl.
    - apply broadcast_shapes_nil_l.
    - now apply broadcast_shapes_one_l. }
  rewrite (ufunc2_Ok zero zero mul (NDArray gs [g]) (ones_like x) Hb).
  eexists. split; [reflexivity|]. split; [reflexivity|]. split; [apply wf_build|].
  intros idx Hidx. unfold at_. rewrite get_build by exact Hidx.
  change (shape (ones_like x)) with (shape x). rewrite (bindex_inb Hidx).
  unfold ones_like. rewrite get_build by exact Hidx. rewrite Hmul.
  cbn [shape].
  destruct Hgs as [->|[-> Hne]].
  - reflexivity.
  - rewrite bindex_one; [reflexivity|].
    intros ->. inversion Hidx. congruence.
Qed.

End SimpleOps.

(** C5 at a concrete array: a 2x3 array reshaped to 3x2 (the first
    dimension inferred) and back. *)
Lemma Reshape_roundtrip_witness :
  let x : ndarray Z := NDArray [2; 3] [1; 2; 3; 4; 5; 6]%Z in
  exists ctx2,
    Reshape_forward new_ctx (NDArray [3; 2] (data x)) (map Z.of_nat (shape x))
    = Ok (ctx2, x)
    /\ forall g : ndarray Z,
        shape g = shape x ->
        exists g1,
          Reshape_backward ctx2 g = Ok (Grad g1, NoGrad)
          /\ Reshape_backward (MkCtx [SShape [2; 3]]) g1 = Ok (Grad g, NoGrad).
Proof.
  intros x.
  apply (@Reshape_roundtrip Z x (NDArray [3; 2] (data x)) [(-1)%Z; 2%Z]).
  reflexivity.
Defined.

(** The claim C6 as stated fails for Add: neither entry of what its
    backward returns is the placeholder. *)
Lemma Add_backward_no_placeholder :
  let g : ndarray Z := NDArray [2] [1; 2]%Z in
  ~ exists d, Add_backward new_ctx g = Ok (NoGrad, d)
              \/ Add_backward new_ctx g = Ok (d, NoGrad).
Proof.
  intros g [d [H|H]]; unfold Add_backward in H; congruence.
Qed.

Lemma backward_placeholders_witness :
  let x : ndarray Z := NDArray [2; 3] [1; 2; 3; 4; 5; 6]%Z in
  let g : ndarray Z := NDArray [6] [1; 1; 1; 1; 1; 1]%Z in
  Reshape_backward (MkCtx [SShape [2; 3]]) g
  = Ok (Grad (NDArray [2; 3] (data g)), NoGrad).
Proof.
  intros x g.
  apply (proj1 (proj2 (@backward_placeholders Z))
           x (NDArray [6] (data x)) g [6%Z]); reflexivity.
Defined.

(** The claim C7 as stated fails: what Sum's forward saves is the input
    array, not its shape; and for an input of rank 0 the gradient returned
    for an incoming gradient of shape (1,) has shape (1,), not (). *)
Lemma Sum_saves_input_not_shape :
  let x : ndarray Z := NDArray [2] [3; 4]%Z in
  let x0 : ndarray Z := NDArray [] [3]%Z in
  (forall ctx out, Sum_forward new_ctx x = Ok (ctx, out) ->
                   saved_tensors ctx = [STensor x]
                   /\ saved_tensors ctx <> [SShape (shape x)])
  /\ exists r, Sum_backward (MkCtx [STensor x0]) (NDArray [1] [5%Z]) = Ok r
               /\ shape r = [1] /\ shape r <> shape x0.
Proof.
  intros x x0. split.
  - intros ctx out H. injection H as <- <-. split; [reflexivity|discriminate].
  - eexists. split; [reflexivity|]. split; [reflexivity|discriminate].
Qed.

Lemma Sum_forward_backward_witness :
  let x : ndarray Z := NDArray [2; 2] [1; 2; 3; 4]%Z in
  exists r,
    Sum_backward (MkCtx [STensor x]) (NDArray [1] [7%Z]) = Ok r
    /\ shape r = shape x
    /\ wf r
    /\ forall idx, inb (shape x) idx -> at_ r idx = 7%Z.
Proof.
  intros x.
  apply (proj2 (@Sum_forward_backward Z Num_Z x) 7%Z [1]).
  - intros a. simpl. lia.
  - right. split; [reflexivity|discriminate].
Defined.

(** ** Dot *)

Section DotOp.
Context {A : Type} {NA : Num A}.

Lemma fold_left_ext_in {S I : Type} (f g : S -> I -> S) (l : list I) (s : S) :
  (forall acc i, In i l -> f acc i = g acc i) ->
  fold_left f l s = fold_left g l s.
Proof.
  revert s. induction l as [|a l IH]; intros s H; simpl; [reflexivity|].
  rewrite H by now left. apply IH. intros acc i Hi. apply H. now right.
Qed.

Lemma sum_range_ext (n : nat) (f g : nat -> A) :
  (forall i, i < n -> f i = g i) -> sum_range n f = sum_range n g.
Proof.
  intros H. unfold sum_range. apply fold_left_ext_in.
  intros acc i Hi. apply in_seq in Hi. rewrite H by lia. reflexivity.
Qed.

Lemma at_build (sh idx : list nat) (f : list nat -> A) :
  inb sh idx -> at_ (build sh f) idx = f idx.
Proof. apply get_build. Qed.

Lemma get_transpose (a : ndarray A) (idx : list nat) :
  inb (rev (shape a)) idx -> at_ (transpose zero a) idx = at_ a (rev idx).
Proof. intros H. unfold at_, transpose. now rewrite get_build. Qed.

Lemma transpose_build (sh : list nat) (f : list nat -> A) :
  transpose zero (build sh f)
  = build (rev sh) (fun idx => get zero (build sh f) (rev idx)).
Proof. reflexivity. Qed.

Lemma dot_Ok (a b : ndarray A) (m k n : nat) :
  shape a = [m; k] -> shape b = [k; n] ->
  dot a b = Ok (build [m; n]
                  (fun idx => sum_range k (fun l => mul (at_ a [ix 0 idx; l])
                                                       (at_ b [l; ix 1 idx])))).
Proof. intros Ha Hb. unfold dot. now rewrite Ha, Hb, Nat.eqb_refl. Qed.

(** C2: for conformable matrices Dot's backward returns [g . w^T] for the
    left operand and [x^T . g] for the right one; the code computes the
    latter as [(g^T . x)^T]. *)
Theorem Dot_backward_correct (x w g : ndarray A) (m k n : nat) :
  (forall a b : A, mul a b = mul b a) ->
  shape x = [m; k] -> shape w = [k; n] -> shape g = [m; n] ->
  exists y gi gw,
    Dot_forward new_ctx x w = Ok (MkCtx [STensor x; STensor w], y)
    /\ Dot_backward (MkCtx [STensor x; STensor w]) g = Ok (Grad gi, Grad gw)
    /\ dot g (transpose zero w) = Ok gi
    /\ dot (transpose zero x) g = Ok gw
    /\ shape gi = shape x /\ shape gw = shape w.
Proof.
  intros Hcomm Hx Hw Hg.
  assert (HwT : shape (transpose zero w) = [n; k]) by (unfold transpose; now rewrite Hw).
  assert (HxT : shape (transpose zero x) = [k; m]) by (unfold transpose; now rewrite Hx).
  assert (HgT : shape (transpose zero g) = [n; m]) by (unfold transpose; now rewrite Hg).
  eexists _, _, _. split; [|split; [|split; [|split; [|split]]]].
  - unfold Dot_forward. rewrite (dot_Ok _ _ Hx Hw). reflexivity.
  - unfold Dot_backward. cbn [saved_tensors].
    rewrite (dot_Ok _ _ Hg HwT), (dot_Ok _ _ HgT Hx). reflexivity.
  - apply (dot_Ok _ _ Hg HwT).
  - rewrite (dot_Ok _ _ HxT Hg). f_equal.
    rewrite transpose_build. cbn [rev app].
    apply build_ext. intros idx Hidx. inb_inv.
    rewrite get_build by inb_solve. cbn [ix nth rev app].
    apply sum_range_ext. intros l Hl.
    rewrite !get_transpose by (rewrite ?Hg, ?Hx; inb_solve).
    apply Hcomm.
  - now rewrite Hx.
  - now rewrite Hw.
Qed.

End DotOp.

Lemma Dot_backward_correct_witness :
  let x : ndarray Z := NDArray [2; 3] [1; 2; 3; 4; 5; 6]%Z in
  let w : ndarray Z := NDArray [3; 2] [1; 0; 0; 1; 1; 1]%Z in
  let g : ndarray Z := NDArray [2; 2] [1; 1; 1; 1]%Z in
  exists y gi gw,
    Dot_forward new_ctx x w = Ok (MkCtx [STensor x; STensor w], y)
    /\ Dot_backward (MkCtx [STensor x; STensor w]) g = Ok (Grad gi, Grad gw)
    /\ dot g (transpose zero w) = Ok gi
    /\ dot (transpose zero x) g = Ok gw
    /\ shape gi = shape x /\ shape gw = shape w.
Proof.
  intros x w g.
  apply (@Dot_backward_correct Z Num_Z x w g 2 3 2).
  - intros a b. simpl. lia.
  - reflexivity.
  - reflexivity.
  - reflexivity.
Defined.

(** ** LogSoftmax *)

Section LogSoftmaxOp.
Context {A : Type} {NA : Num A} {TA : Transcendental A}.

Lemma get_ufunc1 {T U : Type} (dT : T) (dU : U) (f : T -> U) (a : ndarray T)
    (idx : list nat) :
  wf a -> inb (shape a) idx ->
  get dU (ufunc1 f a) idx = f (get dT a idx).
Proof.
  intros Hwf Hidx. unfold get, ufunc1. cbn [shape data].
  pose proof (ravel_lt Hidx) as Hlt. rewrite <- Hwf in Hlt.
  rewrite (nth_indep _ dU (f dT)) by (now rewrite length_map).
  apply map_nth.
Qed.

Lemma at_ufunc1 (f : A -> A) (a : ndarray A) (idx : list nat) :
  wf a -> inb (shape a) idx -> at_ (ufunc1 f a) idx = f (at_ a idx).
Proof. apply get_ufunc1. Qed.

Lemma wf_ufunc1 {T U : Type} (f : T -> U) (a : ndarray T) : wf a -> wf (ufunc1 f a).
Proof. unfold wf, ufunc1. cbn [shape data]. now rewrite length_map. Qed.

Lemma get_column {T : Type} (d : T) (n i : nat) (l : list T) :
  get d (NDArray [n; 1] l) [i; 0] = get d (NDArray [n] l) [i].
Proof. unfold get. cbn [shape data ravel numel fold_right]. f_equal; lia. Qed.

Lemma bindex_column (n m i j : nat) : i < n -> bindex [n; 1] [i; j] = [i; 0].
Proof.
  intros Hi. unfold bindex. cbn [length Nat.sub skipn combine map fst snd].
  rewrite Nat.eqb_refl.
  destruct (Nat.eqb_spec n 1); [f_equal; lia|reflexivity].
Qed.

Lemma broadcast_shapes_column (n m : nat) :
  broadcast_shapes [n; m] [n; 1] = Some [n; m].
Proof.
  unfold broadcast_shapes. cbn [rev app broadcast_rev].
  rewrite Nat.eqb_refl.
  destruct (Nat.eqb_spec m 1) as [->|]; reflexivity.
Qed.

Lemma reshape_column {T : Type} (a : ndarray T) (n : nat) :
  shape a = [n] -> reshape a [(-1)%Z; 1%Z] = Ok (NDArray [n; 1] (data a)).
Proof.
  intros Ha. unfold reshape. rewrite Ha.
  cbn [filter is_unknown Z.ltb Z.compare length known_numel negb fold_right].
  replace (1 * 1)%Z with 1%Z by reflexivity.
  cbn [Z.eqb orb]. rewrite Z.mod_1_r. cbn [Z.eqb negb map].
  rewrite Z.div_1_r, Nat2Z.id. cbn [numel fold_right].
  now rewrite Nat.mul_1_r.
Qed.

Lemma sum_axis1_Ok (a : ndarray A) (n m : nat) :
  shape a = [n; m] ->
  sum_axis1 a = Ok (build [n] (fun idx => sum_range m (fun j => at_ a [ix 0 idx; j]))).
Proof.
  intros Ha. unfold sum_axis1. rewrite Ha. reflexivity.
Qed.

Lemma max_axis1_Ok (a : ndarray A) (n m : nat) :
  shape a = [n; m] -> 0 < m ->
  max_axis1 a = Ok (build [n] (fun idx => max_range m (fun j => at_ a [ix 0 idx; j]))).
Proof.
  intros Ha Hm. unfold max_axis1. rewrite Ha.
  destruct (Nat.eqb_spec m 0); [lia|]. reflexivity.
Qed.

(** [x op v.reshape((-1, 1))] for a matrix [x] and a vector [v] with one
    entry per row. *)
Lemma ufunc2_column (f : A -> A -> A) (x v : ndarray A) (n m : nat) :
  shape x = [n; m] -> shape v = [n] ->
  (c <- reshape v [(-1)%Z; 1%Z] ;; ufunc2 zero zero f x c)
  = Ok (build [n; m] (fun idx => f (at_ x idx) (at_ v [ix 0 idx]))).
Proof.
  intros Hx Hv. rewrite (reshape_column _ Hv). cbn [bind].
  rewrite ufunc2_Ok with (sh := [n; m])
    by (cbn [shape]; rewrite Hx; apply broadcast_shapes_column).
  f_equal. apply build_ext. intros idx Hidx.
  cbn [shape]. rewrite Hx, (bindex_inb Hidx). inb_inv.
  rewrite bindex_column by assumption.
  rewrite get_column. unfold at_, get. cbn [shape data ix nth]. now rewrite Hv.
Qed.

Lemma LogSoftmax_forward_spec (x : ndarray A) (n m : nat) :
  shape x = [n; m] -> 0 < m ->
  exists out,
    LogSoftmax_forward new_ctx x = Ok (MkCtx [STensor out], out)
    /\ shape out = [n; m] /\ wf out
    /\ forall i j, i < n -> j < m -> at_ out [i; j] = logsoftmax_entry x m i j.
Proof.
  intros Hx Hm.
  set (c := build [n] (fun idx => max_range m (fun j => at_ x [ix 0 idx; j]))).
  set (xc := build [n; m] (fun idx => sub (at_ x idx) (at_ c [ix 0 idx]))).
  set (s := build [n] (fun idx => sum_range m (fun j => at_ (ufunc1 exp xc) [ix 0 idx; j]))).
  set (l := build [n] (fun idx => add (at_ c idx) (at_ (ufunc1 log s) idx))).
  set (out := build [n; m] (fun idx => sub (at_ x idx) (at_ l [ix 0 idx]))).
  assert (Hlse : logsumexp x = Ok l).
  { unfold logsumexp. rewrite (max_axis1_Ok _ Hx Hm). cbn [bind]. fold c.
    pose proof (ufunc2_column sub x c Hx eq_refl) as Hcol.
    destruct (reshape c [(-1)%Z; 1%Z]) as [c1|e]; [|discriminate].
    cbn [bind] in *. rewrite Hcol. cbn [bind]. fold xc.
    rewrite (sum_axis1_Ok (ufunc1 exp xc) (n := n) (m := m)) by reflexivity.
    cbn [bind]. fold s.
    rewrite ufunc2_Ok with (sh := [n]) by apply broadcast_shapes_same.
    f_equal. apply build_ext. intros idx Hidx. cbn [shape ufunc1 c s build].
    now rewrite (bindex_inb Hidx). }
  exists out. split; [|split; [reflexivity|split; [apply wf_build|]]].
  - unfold LogSoftmax_forward. rewrite Hlse. cbn [bind].
    pose proof (ufunc2_column sub x l Hx eq_refl) as Hcol.
    destruct (reshape l [(-1)%Z; 1%Z]) as [l1|e]; [|discriminate].
    cbn [bind] in *. rewrite Hcol. reflexivity.
  - intros i j Hi Hj. unfold out. rewrite at_build by inb_solve.
    unfold logsoftmax_entry. f_equal. cbn [ix nth].
    unfold l. rewrite at_build by inb_solve. f_equal.
    + unfold c. rewrite at_build by inb_solve. reflexivity.
    + rewrite at_ufunc1 by (try apply wf_build; inb_solve).
      f_equal. unfold s. rewrite at_build by inb_solve. cbn [ix nth].
      apply sum_range_ext. intros k Hk.
      rewrite at_ufunc1 by (try apply wf_build; inb_solve).
      f_equal. unfold xc. rewrite at_build by inb_solve. cbn [ix nth].
      f_equal. unfold c. rewrite at_build by inb_solve. reflexivity.
Qed.

(** C4: LogSoftmax's forward saves its output, not its input, and its
    backward maps an incoming gradient [g] to
    [g - exp(output) * rowsum(g)], computed from the saved output alone. *)
Theorem LogSoftmax_backward_correct :
  (forall (x out : ndarray A) (ctx : Ctx),
      LogSoftmax_forward new_ctx x = Ok (ctx, out) ->
      saved_tensors ctx = [STensor out])
  /\ (forall (x : ndarray A) (n m : nat),
         shape x = [n; m] -> 0 < m ->
         exists out, LogSoftmax_forward new_ctx x = Ok (MkCtx [STensor out], out)
                     /\ shape out = [n; m] /\ wf out)
  /\ (forall (out g : ndarray A) (n m : nat),
         shape out = [n; m] -> wf out -> shape g = [n; m] ->
         exists r,
           LogSoftmax_backward (MkCtx [STensor out]) g = Ok r
           /\ shape r = [n; m] /\ wf r
           /\ forall i j, i < n -> j < m ->
                at_ r [i; j]
                = sub (at_ g [i; j])
                      (mul (exp (at_ out [i; j]))
                           (sum_range m (fun k => at_ g [i; k])))).
Proof.
  split; [|split].
  - intros x out ctx. unfold LogSoftmax_forward.
    destruct (logsumexp x) as [l|e]; cbn [bind]; [|discriminate].
    destruct (reshape l [(-1)%Z; 1%Z]) as [l1|e]; cbn [bind]; [|discriminate].
    destruct (ufunc2 zero zero sub x l1) as [o|e]; cbn [bind]; [|discriminate].
    intros H; injection H as <- <-. reflexivity.
  - intros x n m Hx Hm.
    destruct (LogSoftmax_forward_spec x Hx Hm) as [out (H1 & H2 & H3 & _)].
    now exists out.
  - intros out g n m Hout Hwf Hg.
    set (s := build [n] (fun idx => sum_range m (fun j => at_ g [ix 0 idx; j]))).
    set (e := build [n; m] (fun idx => mul (at_ (ufunc1 exp out) idx) (at_ s [ix 0 idx]))).
    exists (build [n; m] (fun idx => sub (at_ g idx) (at_ e idx))).
    split; [|split; [reflexivity|split; [apply wf_build|]]].
    + unfold LogSoftmax_backward. cbn [saved_tensors].
      rewrite (sum_axis1_Ok _ Hg). cbn [bind]. fold s.
      pose proof (ufunc2_column mul (ufunc1 exp out) s (n := n) (m := m) Hout eq_refl)
        as Hcol.
      destruct (reshape s [(-1)%Z; 1%Z]) as [s1|err]; [|discriminate].
      cbn [bind] in *. rewrite Hcol. cbn [bind]. fold e.
      rewrite ufunc2_Ok with (sh := [n; m])
        by (rewrite Hg; apply broadcast_shapes_same).
      f_equal. apply build_ext. intros idx Hidx. rewrite Hg. cbn [shape e build].
      now rewrite (bindex_inb Hidx).
    + intros i j Hi Hj. rewrite at_build by inb_solve.
      f_equal. unfold e. rewrite at_build by inb_solve. cbn [ix nth].
      f_equal.
      * apply at_ufunc1; [exact Hwf|rewrite Hout; inb_solve].
      * unfold s. rewrite at_build by inb_solve. reflexivity.
Qed.

End LogSoftmaxOp.

(** ** LogSoftmax over the real numbers *)

Lemma sum_range_S {A : Type} {NA : Num A} (n : nat) (f : nat -> A) :
  sum_range (S n) f = add (sum_range n f) (f n).
Proof.
  unfold sum_range, range. rewrite seq_S, fold_left_app. reflexivity.
Qed.

Lemma sum_range_R_scal (n : nat) (f : nat -> R) (c : R) :
  sum_range n (fun j => (f j * c)%R) = (sum_range n f * c)%R.
Proof.
  induction n as [|n IH].
  - unfold sum_range. simpl. ring.
  - rewrite !sum_range_S, IH. simpl. ring.
Qed.

Lemma sum_range_R_pos (n : nat) (f : nat -> R) :
  0 < n -> (forall j, j < n -> (0 < f j)%R) -> (0 < sum_range n f)%R.
Proof.
  induction n as [|n IH]; intros Hn Hf; [lia|].
  rewrite sum_range_S. simpl.
  destruct n as [|n].
  - unfold sum_range. simpl. rewrite Rplus_0_l. apply Hf. lia.
  - apply Rplus_lt_0_compat; [apply IH; [lia|]|]; auto.
Qed.



Lemma LogSoftmax_backward_correct_witness :
  let out : ndarray R := NDArray [1; 2] [-1; -2]%R in
  let g : ndarray R := NDArray [1; 2] [1; 0]%R in
  exists r,
    LogSoftmax_backward (MkCtx [STensor out]) g = Ok r
    /\ shape r = [1; 2] /\ wf r
    /\ forall i j, i < 1 -> j < 2 ->
         at_ r [i; j]
         = sub (at_ g [i; j])
               (mul (exp (at_ out [i; j])) (sum_range 2 (fun k => at_ g [i; k]))).
Proof.
  intros out g.
  apply (proj2 (proj2 (@LogSoftmax_backward_correct R Num_R Transcendental_R))
           out g 1 2); reflexivity.
Defined.

(** ** LogSoftmax on binary64 floats *)

(** The stand-ins for [np.exp] and [np.log] at a few arguments: the
    values are the C library's, but for [exp 1], which is one unit in the
    last place above it. *)
Example float_exp_log_values :
  map float_exp [0; 1; -1; 10; 710; -746]%float
  = [1; 0x1.5bf0a8b14576ap+1; 0x1.78b56362cef38p-2; 0x1.5829dcf95056p+14;
     infinity; 0]%float
  /\ map float_log [1; 2; 10; 0.5; 0]%float
     = [0; 0x1.62e42fefa39efp-1; 0x1.26bb1bbb55516p+1;
        -0x1.62e42fefa39efp-1; neg_infinity]%float.
Proof. split; reflexivity. Qed.



(** ** MaxPool2x2 *)

Lemma slice2_len_even (m Y : nat) : Y < 2 -> slice2_len (2 * m) Y = m.
Proof.
  intros HY. unfold slice2_len.
  destruct m as [|m].
  - rewrite Nat.min_0_r. reflexivity.
  - replace (2 * S m - Nat.min Y (2 * S m) + 1) with ((1 - Y) + S m * 2) by lia.
    rewrite Nat.div_add by lia.
    destruct Y as [|[|Y]]; [reflexivity|reflexivity|lia].
Qed.

Lemma slice2_len_odd (m : nat) :
  slice2_len (2 * m + 1) 0 = m + 1 /\ slice2_len (2 * m + 1) 1 = m.
Proof.
  unfold slice2_len. split.
  - replace (2 * m + 1 - Nat.min 0 (2 * m + 1) + 1) with (0 + (m + 1) * 2) by lia.
    rewrite Nat.div_add by lia. reflexivity.
  - replace (2 * m + 1 - Nat.min 1 (2 * m + 1) + 1) with (1 + m * 2) by lia.
    rewrite Nat.div_add by lia. reflexivity.
Qed.

Lemma nth_concat_chunks {T : Type} (d : T) (N : nat) (l : list (list T)) (k r : nat) :
  Forall (fun c => length c = N) l ->
  k < length l -> r < N ->
  nth (k * N + r) (concat l) d = nth r (nth k l []) d.
Proof.
  intros Hl. revert k. induction Hl as [|c l Hc _ IH]; intros k Hk Hr; simpl in Hk; [lia|].
  simpl. destruct k as [|k].
  - rewrite app_nth1 by lia. reflexivity.
  - rewrite app_nth2 by (simpl; lia).
    replace (S k * N + r - length c) with (k * N + r) by (simpl; lia).
    apply IH; lia.
Qed.

Section MaxPoolForward.
Context {A : Type} {NA : Num A}.

Lemma argmax_range_S (n : nat) (f : nat -> A) :
  argmax_range (S (S n)) f
  = if ltb (f (argmax_range (S n) f)) (f (S n)) then S n else argmax_range (S n) f.
Proof.
  unfold argmax_range. cbn [Nat.sub]. rewrite Nat.sub_0_r.
  rewrite seq_S, fold_left_app. reflexivity.
Qed.

Lemma argmax_range_lt (n : nat) (f : nat -> A) : 0 < n -> argmax_range n f < n.
Proof.
  intros Hn. destruct n as [|n]; [lia|]. clear Hn.
  induction n as [|n IH]; [unfold argmax_range; simpl; lia|].
  rewrite argmax_range_S. destruct (ltb _ _); lia.
Qed.

Lemma argmax_range_ext (n : nat) (f g : nat -> A) :
  (forall k, k < n -> f k = g k) -> argmax_range n f = argmax_range n g.
Proof.
  destruct n as [|n]; [reflexivity|].
  induction n as [|n IH]; intros H; [reflexivity|].
  pose proof (@argmax_range_lt (S n) f ltac:(lia)) as Hb.
  rewrite !argmax_range_S, <- IH by (intros; apply H; lia).
  rewrite (H (S n)) by lia. rewrite (H (argmax_range (S n) f)) by lia.
  reflexivity.
Qed.

Lemma max_range_ext (n : nat) (f g : nat -> A) :
  0 < n -> (forall k, k < n -> f k = g k) -> max_range n f = max_range n g.
Proof.
  intros Hn H. unfold max_range. rewrite (H 0 Hn).
  apply fold_left_ext_in. intros acc k Hk. apply in_seq in Hk.
  rewrite H by lia. reflexivity.
Qed.

Lemma list_eq_dec_refl (l : list nat) :
  (if list_eq_dec Nat.eq_dec l l then true else false) = true.
Proof. destruct (list_eq_dec Nat.eq_dec l l); congruence. Qed.

Lemma get_stack4 {T : Type} (z : T) (sh idx : list nat) (d0 d1 d2 d3 : list T)
    (k : nat) :
  length d0 = numel sh -> length d1 = numel sh ->
  length d2 = numel sh -> length d3 = numel sh ->
  inb sh idx -> k < 4 ->
  get z (NDArray (4 :: sh) (d0 ++ d1 ++ d2 ++ d3 ++ [])) (k :: idx)
  = nth (ravel sh idx) (nth k [d0; d1; d2; d3] []) z.
Proof.
  intros H0 H1 H2 H3 Hidx Hk. unfold get. cbn [ravel shape data].
  apply (nth_concat_chunks z (l := [d0; d1; d2; d3])).
  - repeat constructor; assumption.
  - exact Hk.
  - now apply ravel_lt.
Qed.

Lemma MaxPool2x2_forward_spec (x : ndarray A) (bs ch m n : nat) :
  shape x = [bs; ch; 2 * m; 2 * n] ->
  exists idxs out,
    MaxPool2x2_forward new_ctx x = Ok (MkCtx [SIndex idxs], out)
    /\ shape idxs = [bs; ch; m; n] /\ wf idxs
    /\ shape out = [bs; ch; m; n] /\ wf out
    /\ forall b c i j, b < bs -> c < ch -> i < m -> j < n ->
         let cand := fun k => at_ x [b; c; k / 2 + 2 * i; k mod 2 + 2 * j] in
         get 0 idxs [b; c; i; j] = argmax_range 4 cand
         /\ at_ out [b; c; i; j] = max_range 4 cand.
Proof.
  intros Hx. unfold MaxPool2x2_forward, strided2. rewrite Hx.
  cbn [range seq for_ bind app].
  unfold concatenate0. cbn [shape expand_dims0 build forallb].
  rewrite !slice2_len_even by lia. rewrite !list_eq_dec_refl.
  cbn [andb fold_left hd Nat.add shape expand_dims0 build bind flat_map data].
  unfold argmax_axis0, max_axis0. cbn [shape Nat.eqb bind].
  eexists _, _. split; [reflexivity|].
  split; [reflexivity|]. split; [apply wf_build|].
  split; [reflexivity|]. split; [apply wf_build|].
  intros b c i j Hb Hc Hi Hj.
  set (cand := fun k => at_ x [b; c; k / 2 + 2 * i; k mod 2 + 2 * j]).
  assert (Hcand : forall k, k < 4 ->
            at_ (NDArray [4; bs; ch; m; n]
              (tabulate [bs; ch; m; n]
                 (fun idx => at_ x [ix 0 idx; ix 1 idx; 0 + 2 * ix 2 idx; 0 + 2 * ix 3 idx])
               ++ tabulate [bs; ch; m; n]
                 (fun idx => at_ x [ix 0 idx; ix 1 idx; 0 + 2 * ix 2 idx; 1 + 2 * ix 3 idx])
               ++ tabulate [bs; ch; m; n]
                 (fun idx => at_ x [ix 0 idx; ix 1 idx; 1 + 2 * ix 2 idx; 0 + 2 * ix 3 idx])
               ++ tabulate [bs; ch; m; n]
                 (fun idx => at_ x [ix 0 idx; ix 1 idx; 1 + 2 * ix 2 idx; 1 + 2 * ix 3 idx])
               ++ [])) [k; b; c; i; j] = cand k).
  { intros k Hk. unfold at_ at 1. rewrite get_stack4; try apply length_tabulate;
      [|inb_solve|exact Hk].
    destruct k as [|[|[|[|k]]]]; [| | | |lia]; cbn [nth];
      rewrite nth_tabulate by inb_solve; reflexivity. }
  split.
  - rewrite get_build by inb_solve.
    apply argmax_range_ext. intros k Hk. apply Hcand. exact Hk.
  - rewrite at_build by inb_solve.
    apply max_range_ext; [lia|]. intros k Hk. apply Hcand. exact Hk.
Qed.

Lemma list_eq_dec_neq (l l' : list nat) :
  l <> l' -> (if list_eq_dec Nat.eq_dec l l' then true else false) = false.
Proof. intros H. destruct (list_eq_dec Nat.eq_dec l l'); congruence. Qed.

Lemma MaxPool2x2_forward_odd (x : ndarray A) (bs ch iy ix_ : nat) :
  shape x = [bs; ch; iy; ix_] ->
  Nat.odd iy = true \/ Nat.odd ix_ = true ->
  MaxPool2x2_forward new_ctx x = Raise ValueError.
Proof.
  intros Hx Hodd. unfold MaxPool2x2_forward, strided2. rewrite Hx.
  cbn [range seq for_ bind app].
  unfold concatenate0. cbn [shape expand_dims0 build forallb].
  destruct Hodd as [Ho|Ho]; apply Nat.odd_spec in Ho as [q ->];
    destruct (slice2_len_odd q) as [-> ->].
  - rewrite (@list_eq_dec_neq [bs; ch; q + 1; slice2_len ix_ 0]
                              [bs; ch; q; slice2_len ix_ 0])
      by (intros E; injection E; lia).
    rewrite andb_false_l, andb_false_r. reflexivity.
  - rewrite (@list_eq_dec_neq [bs; ch; slice2_len iy 0; q + 1]
                              [bs; ch; slice2_len iy 0; q])
      by (intros E; injection E; lia).
    rewrite andb_false_l. reflexivity.
Qed.

(** C9: MaxPool2x2's forward maps an input of shape (bs, ch, 2m, 2n) to an
    output of shape (bs, ch, m, n); on an input with an odd height or width
    the four strided slices have different shapes and concatenating them
    raises [ValueError], so no output is produced. *)
Theorem MaxPool2x2_forward_even_only (x : ndarray A) (bs ch iy ix_ : nat) :
  shape x = [bs; ch; iy; ix_] ->
  (forall m n, iy = 2 * m -> ix_ = 2 * n ->
     exists ctx out, MaxPool2x2_forward new_ctx x = Ok (ctx, out)
                     /\ shape out = [bs; ch; m; n])
  /\ (Nat.odd iy = true \/ Nat.odd ix_ = true ->
      MaxPool2x2_forward new_ctx x = Raise ValueError).
Proof.
  intros Hx. split.
  - intros m n -> ->.
    destruct (@MaxPool2x2_forward_spec x _ _ _ _ Hx) as (idxs & out & Hf & _ & _ & Hs & _).
    eauto.
  - intros Hodd. eapply MaxPool2x2_forward_odd; eassumption.
Qed.

End MaxPoolForward.

Lemma MaxPool2x2_forward_even_only_witness :
  let x : ndarray Z := NDArray [1; 1; 2; 4] [1; 5; 3; 3; 5; 2; 3; 0]%Z in
  let x' : ndarray Z := NDArray [1; 1; 3; 2] [1; 5; 3; 3; 5; 2]%Z in
  (exists ctx out, MaxPool2x2_forward new_ctx x = Ok (ctx, out)
                   /\ shape out = [1; 1; 1; 2])
  /\ MaxPool2x2_forward new_ctx x' = Raise ValueError.
Proof.
  intros x x'. split.
  - apply (proj1 (@MaxPool2x2_forward_even_only Z Num_Z x 1 1 2 4 eq_refl) 1 2);
      reflexivity.
  - apply (proj2 (@MaxPool2x2_forward_even_only Z Num_Z x' 1 1 3 2 eq_refl)).
    left. reflexivity.
Defined.

Lemma even_double (i : nat) : Nat.even (2 * i) = true.
Proof. rewrite Nat.even_mul. reflexivity. Qed.

Lemma even_succ_double (i : nat) : Nat.even (1 + 2 * i) = false.
Proof. rewrite Nat.even_add, even_double. reflexivity. Qed.

(** Row [Y' + 2i] is in the slice [Y::2] exactly when [Y' = Y], and is
    then its row [i]. *)
Lemma stride_match (Y Y' i : nat) :
  Y < 2 -> Y' < 2 ->
  ((Y <=? Y' + 2 * i) && Nat.even (Y' + 2 * i - Y)) = (Y' =? Y).
Proof.
  intros HY HY'.
  destruct Y as [|[|Y]]; [| |lia]; destruct Y' as [|[|Y']]; try lia.
  - rewrite Nat.sub_0_r. cbn [Nat.add Nat.leb Nat.eqb andb]. apply even_double.
  - rewrite Nat.sub_0_r. cbn [Nat.leb Nat.eqb andb]. apply even_succ_double.
  - cbn [Nat.eqb]. destruct i as [|i].
    + reflexivity.
    + replace (0 + 2 * S i - 1) with (1 + 2 * i) by lia.
      rewrite even_succ_double. apply andb_false_r.
  - replace (1 + 2 * i - 1) with (2 * i) by lia.
    rewrite even_double. cbn [Nat.eqb]. rewrite andb_true_r.
    apply Nat.leb_le. lia.
Qed.

Lemma stride_row (Y i : nat) : (Y + 2 * i - Y) / 2 = i.
Proof.
  replace (Y + 2 * i - Y) with (i * 2) by lia. apply Nat.div_mul. lia.
Qed.

Section MaxPoolBackward.
Context {A : Type} {NA : Num A}.

Lemma setitem_strided2_spec (ret v : ndarray A) (d0 d1 m n Y X : nat) :
  shape ret = [d0; d1; m * 2; n * 2] -> shape v = [d0; d1; m; n] ->
  Y < 2 -> X < 2 ->
  exists ret',
    setitem_strided2 ret Y X v = Ok ret'
    /\ shape ret' = [d0; d1; m * 2; n * 2]
    /\ forall b c i j Y' X',
        b < d0 -> c < d1 -> i < m -> j < n -> Y' < 2 -> X' < 2 ->
        at_ ret' [b; c; Y' + 2 * i; X' + 2 * j]
        = if (Y' =? Y) && (X' =? X) then at_ v [b; c; i; j]
          else at_ ret [b; c; Y' + 2 * i; X' + 2 * j].
Proof.
  intros Hret Hv HY HX. unfold setitem_strided2. rewrite Hret, Hv.
  rewrite (Nat.mul_comm m 2), (Nat.mul_comm n 2), !slice2_len_even by assumption.
  rewrite broadcastable_to_same.
  eexists. split; [reflexivity|]. split; [reflexivity|].
  intros b c i j Y' X' Hb Hc Hi Hj HY' HX'.
  rewrite at_build by inb_solve. cbn [ix nth].
  rewrite <- andb_assoc, !stride_match by assumption.
  destruct (Nat.eqb_spec Y' Y) as [->|]; [|reflexivity].
  destruct (Nat.eqb_spec X' X) as [->|]; [|reflexivity].
  cbn [andb]. rewrite !stride_row, bindex_inb by inb_solve. reflexivity.
Qed.

(** One iteration of the loops of the backward. *)
Lemma MaxPool2x2_backward_step (idxs : ndarray nat) (g ret : ndarray A)
    (d0 d1 m n Y X : nat) :
  shape idxs = [d0; d1; m; n] -> shape g = [d0; d1; m; n] ->
  shape ret = [d0; d1; m * 2; n * 2] -> Y < 2 -> X < 2 ->
  exists ret',
    (m <- ufunc2 0 0 Nat.eqb idxs (NDArray [] [Y * 2 + X]) ;;
     v <- ufunc2 zero false (fun g b => mul g (of_bool b)) g m ;;
     setitem_strided2 ret Y X v) = Ok ret'
    /\ shape ret' = [d0; d1; m * 2; n * 2]
    /\ forall b c i j Y' X',
        b < d0 -> c < d1 -> i < m -> j < n -> Y' < 2 -> X' < 2 ->
        at_ ret' [b; c; Y' + 2 * i; X' + 2 * j]
        = if (Y' =? Y) && (X' =? X)
          then mul (at_ g [b; c; i; j])
                   (of_bool (get 0 idxs [b; c; i; j] =? Y * 2 + X))
          else at_ ret [b; c; Y' + 2 * i; X' + 2 * j].
Proof.
  intros Hidxs Hg Hret HY HX.
  rewrite ufunc2_Ok with (sh := [d0; d1; m; n])
    by (rewrite Hidxs; apply broadcast_shapes_nil_r).
  cbn [bind].
  rewrite ufunc2_Ok with (sh := [d0; d1; m; n])
    by (rewrite Hg; apply broadcast_shapes_same).
  cbn [bind].
  match goal with
  | |- exists r, setitem_strided2 ret Y X ?v = _ /\ _ =>
      destruct (@setitem_strided2_spec ret v d0 d1 m n Y X Hret eq_refl HY HX)
        as (ret' & Hset & Hsh & Hel)
  end.
  exists ret'. split; [exact Hset|]. split; [exact Hsh|].
  intros b c i j Y' X' Hb Hc Hi Hj HY' HX'.
  rewrite Hel by assumption.
  destruct ((Y' =? Y) && (X' =? X)); [|reflexivity].
  rewrite at_build by inb_solve.
  rewrite shape_build, Hg, !bindex_inb by inb_solve.
  rewrite get_build by inb_solve.
  rewrite Hidxs, bindex_inb by inb_solve. reflexivity.
Qed.

Lemma MaxPool2x2_backward_spec (idxs : ndarray nat) (g : ndarray A)
    (d0 d1 m n : nat) :
  (forall a : A, mul a one = a) -> (forall a : A, mul a zero = zero) ->
  shape idxs = [d0; d1; m; n] -> shape g = [d0; d1; m; n] ->
  exists r,
    MaxPool2x2_backward (MkCtx [SIndex idxs]) g = Ok r
    /\ shape r = [d0; d1; m * 2; n * 2]
    /\ forall b c i j Y X,
        b < d0 -> c < d1 -> i < m -> j < n -> Y < 2 -> X < 2 ->
        at_ r [b; c; Y + 2 * i; X + 2 * j]
        = if Y * 2 + X =? get 0 idxs [b; c; i; j] then at_ g [b; c; i; j] else zero.
Proof.
  intros Hone Hzero Hidxs Hg. unfold MaxPool2x2_backward.
  cbn [saved_tensors]. rewrite Hg. cbn [range seq for_].
  destruct (@MaxPool2x2_backward_step idxs g (zeros [d0; d1; m * 2; n * 2])
              d0 d1 m n 0 0 Hidxs Hg eq_refl) as (r00 & E00 & S00 & V00); try lia.
  rewrite E00; cbn [bind].
  destruct (@MaxPool2x2_backward_step idxs g r00
              d0 d1 m n 0 1 Hidxs Hg S00) as (r01 & E01 & S01 & V01); try lia.
  rewrite E01; cbn [bind].
  destruct (@MaxPool2x2_backward_step idxs g r01
              d0 d1 m n 1 0 Hidxs Hg S01) as (r10 & E10 & S10 & V10); try lia.
  rewrite E10; cbn [bind].
  destruct (@MaxPool2x2_backward_step idxs g r10
              d0 d1 m n 1 1 Hidxs Hg S10) as (r11 & E11 & S11 & V11); try lia.
  rewrite E11; cbn [bind].
  exists r11. split; [reflexivity|]. split; [exact S11|].
  intros b c i j Y X Hb Hc Hi Hj HY HX.
  assert (Hsel : forall k, mul (at_ g [b; c; i; j]) (of_bool (get 0 idxs [b; c; i; j] =? k))
                           = if k =? get 0 idxs [b; c; i; j] then at_ g [b; c; i; j] else zero).
  { intros k. rewrite (Nat.eqb_sym k).
    destruct (get 0 idxs [b; c; i; j] =? k); cbn [of_bool]; auto. }
  rewrite V11, V10, V01, V00, !Hsel by assumption.
  destruct Y as [|[|Y]]; [| |lia]; destruct X as [|[|X]]; try lia;
    cbn [Nat.eqb andb]; reflexivity.
Qed.

End MaxPoolBackward.

Section MaxPoolClaim.
Context {A : Type} {NA : Num A}.

(** The comparison of the elements is a strict total order. *)
Hypothesis ltb_irrefl : forall a : A, ltb a a = false.
Hypothesis ltb_trans :
  forall a b c : A, ltb a b = true -> ltb b c = true -> ltb a c = true.
Hypothesis ltb_total :
  forall a b : A, ltb a b = false -> ltb b a = false -> a = b.

(** The winner is a largest candidate, and every candidate before it is
    strictly smaller: it is the first occurrence of the maximum. *)
Lemma argmax_range_first (n : nat) (f : nat -> A) :
  0 < n ->
  (forall k, k < n -> ltb (f (argmax_range n f)) (f k) = false)
  /\ (forall k, k < argmax_range n f -> ltb (f k) (f (argmax_range n f)) = true).
Proof.
  intros Hn. destruct n as [|n]; [lia|]. clear Hn.
  induction n as [|n [IH1 IH2]].
  - unfold argmax_range. cbn [Nat.sub seq fold_left]. split.
    + intros k Hk. replace k with 0 by lia. apply ltb_irrefl.
    + intros k Hk. lia.
  - pose proof (@argmax_range_lt _ _ (S n) f ltac:(lia)) as Hw.
    rewrite argmax_range_S.
    destruct (ltb (f (argmax_range (S n) f)) (f (S n))) eqn:E; split.
    + intros k Hk. destruct (Nat.eq_dec k (S n)) as [->|Hne]; [apply ltb_irrefl|].
      destruct (ltb (f (S n)) (f k)) eqn:E'; [|reflexivity].
      rewrite <- (IH1 k) by lia. symmetry. eapply ltb_trans; eassumption.
    + intros k Hk.
      destruct (ltb (f k) (f (argmax_range (S n) f))) eqn:E'.
      * eapply ltb_trans; eassumption.
      * rewrite (ltb_total _ _ E' (IH1 k Hk)). exact E.
    + intros k Hk. destruct (Nat.eq_dec k (S n)) as [->|Hne]; [exact E|].
      apply IH1. lia.
    + exact IH2.
Qed.

(** C3: for an input with even height and width, MaxPool2x2's backward
    writes the gradient of each output element to the position of its 2x2
    block that the saved index names and zero to the other three; the saved
    index is that of the first largest candidate in the block, the
    candidates being numbered [Y*2+X]. *)
Theorem MaxPool2x2_backward_routes (x g : ndarray A) (bs ch m n : nat) :
  (forall a : A, mul a one = a) -> (forall a : A, mul a zero = zero) ->
  shape x = [bs; ch; 2 * m; 2 * n] -> shape g = [bs; ch; m; n] ->
  exists idxs out r,
    MaxPool2x2_forward new_ctx x = Ok (MkCtx [SIndex idxs], out)
    /\ MaxPool2x2_backward (MkCtx [SIndex idxs]) g = Ok r
    /\ shape r = shape x
    /\ forall b c i j, b < bs -> c < ch -> i < m -> j < n ->
         let cand := fun k => at_ x [b; c; k / 2 + 2 * i; k mod 2 + 2 * j] in
         let win := get 0 idxs [b; c; i; j] in
         win < 4
         /\ (forall k, k < 4 -> ltb (cand win) (cand k) = false)
         /\ (forall k, k < win -> ltb (cand k) (cand win) = true)
         /\ forall Y X, Y < 2 -> X < 2 ->
              at_ r [b; c; Y + 2 * i; X + 2 * j]
              = if Y * 2 + X =? win then at_ g [b; c; i; j] else zero.
Proof.
  intros Hone Hzero Hx Hg.
  destruct (@MaxPool2x2_forward_spec _ _ x bs ch m n Hx)
    as (idxs & out & Hfwd & Hsi & _ & _ & _ & Hwin).
  destruct (@MaxPool2x2_backward_spec _ _ idxs g bs ch m n Hone Hzero Hsi Hg)
    as (r & Hbwd & Hsr & Hr).
  exists idxs, out, r. split; [exact Hfwd|]. split; [exact Hbwd|].
  split; [rewrite Hsr, Hx; f_equal; f_equal; f_equal; [lia|f_equal; lia]|].
  intros b c i j Hb Hc Hi Hj cand win.
  destruct (Hwin b c i j Hb Hc Hi Hj) as [Hw _]. fold cand in Hw. fold win in Hw.
  destruct (@argmax_range_first 4 cand ltac:(lia)) as [Hmax Hfirst].
  rewrite <- Hw in Hmax, Hfirst.
  split; [rewrite Hw; apply argmax_range_lt; lia|].
  split; [exact Hmax|]. split; [exact Hfirst|].
  intros Y X HY HX. apply Hr; assumption.
Qed.

End MaxPoolClaim.

(** C3 on a 2x4 input: in the first block the candidates 1 and 2 tie for
    the maximum, in the second the candidates 0, 1 and 2 do. *)
Lemma MaxPool2x2_backward_routes_witness :
  let x : ndarray Z := NDArray [1; 1; 2; 4] [1; 5; 3; 3; 5; 2; 3; 0]%Z in
  let g : ndarray Z := NDArray [1; 1; 1; 2] [10; 20]%Z in
  exists idxs out r,
    MaxPool2x2_forward new_ctx x = Ok (MkCtx [SIndex idxs], out)
    /\ MaxPool2x2_backward (MkCtx [SIndex idxs]) g = Ok r
    /\ shape r = shape x
    /\ forall b c i j, b < 1 -> c < 1 -> i < 1 -> j < 2 ->
         let cand := fun k => at_ x [b; c; k / 2 + 2 * i; k mod 2 + 2 * j] in
         let win := get 0 idxs [b; c; i; j] in
         win < 4
         /\ (forall k, k < 4 -> ltb (cand win) (cand k) = false)
         /\ (forall k, k < win -> ltb (cand k) (cand win) = true)
         /\ forall Y X, Y < 2 -> X < 2 ->
              at_ r [b; c; Y + 2 * i; X + 2 * j]
              = if Y * 2 + X =? win then at_ g [b; c; i; j] else zero.
Proof.
  intros x g.
  apply (@MaxPool2x2_backward_routes Z Num_Z).
  - intros a. apply Z.ltb_irrefl.
  - intros a b c Hab Hbc. simpl in *. lia.
  - intros a b Hab Hba. simpl in *. lia.
  - intros a. simpl. lia.
  - intros a. simpl. lia.
  - reflexivity.
  - reflexivity.
Defined.

(** The tie of the spec's test: with two equal maxima in a block the whole
    gradient goes to the one of lower index. *)
Example MaxPool2x2_tie :
  let x : ndarray Z := NDArray [1; 1; 2; 2] [1; 5; 5; 2]%Z in
  let g : ndarray Z := NDArray [1; 1; 1; 1] [10]%Z in
  (ctx_out <- MaxPool2x2_forward new_ctx x ;; MaxPool2x2_backward (fst ctx_out) g)
  = Ok (NDArray [1; 1; 2; 2] [0; 10; 0; 0]%Z).
Proof. reflexivity. Qed.

(** ** Convolution: reshapes, axis moves and loops *)

Lemma nth_tabulate_app {T : Type} (d : T) (sh1 sh2 idx1 : list nat)
    (f : list nat -> T) (l : nat) :
  inb sh1 idx1 -> l < numel sh2 ->
  nth (ravel sh1 idx1 * numel sh2 + l) (tabulate (sh1 ++ sh2) f) d
  = nth l (tabulate sh2 (fun i2 => f (idx1 ++ i2))) d.
Proof.
  unfold inb. intros H Hl. revert f.
  induction H as [|i n idx1 sh1 Hi Hrest IH]; intros f.
  - reflexivity.
  - cbn [app tabulate ravel].
    replace ((i * numel sh1 + ravel sh1 idx1) * numel sh2 + l)
      with (i * numel (sh1 ++ sh2) + (ravel sh1 idx1 * numel sh2 + l))
      by (rewrite numel_app; ring).
    rewrite nth_flat_map_seq with (k := numel (sh1 ++ sh2)).
    + cbn [Nat.add]. apply (IH (fun idx => f (i :: idx))).
    + intros; apply length_tabulate.
    + exact Hi.
    + rewrite numel_app. pose proof (ravel_lt Hrest). nia.
Qed.

(** A matrix whose buffer is a tabulation over [sh1 ++ sh2], read at the
    row of the index [idx1]. *)
Lemma get_matrix_of_tabulate {T : Type} (d : T) (sh1 sh2 idx1 : list nat)
    (f : list nat -> T) (l : nat) :
  inb sh1 idx1 -> l < numel sh2 ->
  get d (NDArray [numel sh1; numel sh2] (tabulate (sh1 ++ sh2) f))
      [ravel sh1 idx1; l]
  = nth l (tabulate sh2 (fun i2 => f (idx1 ++ i2))) d.
Proof.
  intros H Hl. unfold get. cbn [shape data ravel numel fold_right].
  rewrite <- (nth_tabulate_app d sh2 f H Hl). f_equal. lia.
Qed.

Lemma reshape_rows {T : Type} (a : ndarray T) (d0 : nat) (rest : list nat) :
  shape a = d0 :: rest -> 0 < d0 ->
  reshape a [Z.of_nat d0; (-1)%Z] = Ok (NDArray [d0; numel rest] (data a)).
Proof.
  intros Ha Hd. unfold reshape. rewrite Ha.
  assert (E : is_unknown (Z.of_nat d0) = false) by (apply Z.ltb_ge; lia).
  unfold known_numel. cbn [filter negb]. rewrite E.
  replace (is_unknown (-1)) with true by reflexivity.
  cbn [length fold_right negb filter map]. rewrite E.
  replace (is_unknown (-1)) with true by reflexivity.
  rewrite Z.mul_1_r.
  destruct (Z.eqb_spec (Z.of_nat d0) 0) as [|_]; [lia|]. cbn [orb].
  cbn [numel fold_right]. rewrite Nat2Z.inj_mul.
  rewrite (Z.mul_comm (Z.of_nat d0)), Z.mod_mul, Z.div_mul by lia.
  cbn [Z.eqb negb]. now rewrite !Nat2Z.id.
Qed.

Lemma np_zeros_of_nat {A : Type} {NA : Num A} (sh : list nat) :
  np_zeros (A := A) (map Z.of_nat sh) = Ok (zeros sh).
Proof.
  unfold np_zeros.
  assert (E : existsb (fun d => (d <? 0)%Z) (map Z.of_nat sh) = false).
  { induction sh as [|n sh IH]; [reflexivity|]. cbn [map existsb].
    rewrite IH. destruct (Z.ltb_spec (Z.of_nat n) 0); [lia|reflexivity]. }
  now rewrite E, map_to_nat_of_nat.
Qed.

Lemma out_dim (iy H : nat) :
  H <= iy -> (Z.of_nat iy - (Z.of_nat H - 1))%Z = Z.of_nat (iy + 1 - H).
Proof. lia. Qed.

Lemma moveaxis_0231 {T : Type} (d : T) (a : ndarray T) (s0 s1 s2 s3 : nat) :
  shape a = [s0; s1; s2; s3] ->
  moveaxis d a [0; 1; 2; 3] [0; 2; 3; 1]
  = Ok (build [s0; s3; s1; s2]
          (fun idx => get d a [ix 0 idx; ix 2 idx; ix 3 idx; ix 1 idx])).
Proof.
  intros Ha. unfold moveaxis, transpose_axes. rewrite Ha. reflexivity.
Qed.

Lemma moveaxis_1023 {T : Type} (d : T) (a : ndarray T) (s0 s1 s2 s3 : nat) :
  shape a = [s0; s1; s2; s3] ->
  moveaxis d a [0; 1; 2; 3] [1; 0; 2; 3]
  = Ok (build [s1; s0; s2; s3]
          (fun idx => get d a [ix 1 idx; ix 0 idx; ix 2 idx; ix 3 idx])).
Proof.
  intros Ha. unfold moveaxis, transpose_axes. rewrite Ha. reflexivity.
Qed.

Lemma slice_len_full (n lo len : nat) : lo + len <= n -> slice_len n lo (lo + len) = len.
Proof. intros H. unfold slice_len. lia. Qed.

Section ConvForward.
Context {A : Type} {NA : Num A}.

Lemma get_merge_axes {T : Type} (d : T) (sh1 sh2 idx1 idx2 : list nat) (l : list T) :
  length idx1 = length sh1 ->
  get d (NDArray (sh1 ++ sh2) l) (idx1 ++ idx2)
  = get d (NDArray (numel sh1 :: sh2) l) (ravel sh1 idx1 :: idx2).
Proof.
  intros Hl. unfold get. cbn [shape data ravel]. now rewrite ravel_app.
Qed.

Lemma get_merge_3_1 {T : Type} (d : T) (a b c n i j k l : nat) (buf : list T) :
  get d (NDArray [a; b; c; n] buf) [i; j; k; l]
  = get d (NDArray [numel [a; b; c]; n] buf) [ravel [a; b; c] [i; j; k]; l].
Proof. apply (get_merge_axes d [a; b; c] [n] [i; j; k] [l]). reflexivity. Qed.

Lemma at_kernel_in (w : ndarray A) (cout cin H W c l : nat) :
  c < cout -> l < numel [cin; H; W] ->
  at_ (transpose zero (NDArray [cout; numel [cin; H; W]] (data w))) [l; c]
  = kernel_entry w cin H W c l.
Proof.
  intros Hc Hl. rewrite get_transpose by (cbn [shape rev app]; inb_solve).
  unfold at_, get, kernel_entry. cbn [rev app shape data ravel].
  f_equal. cbn [numel fold_right]. lia.
Qed.

Lemma im2col_Ok (x : ndarray A) (bs cin iy ix_ H W : nat) :
  shape x = [bs; cin; iy; ix_] -> H <= iy -> W <= ix_ ->
  im2col x H W
  = Ok (NDArray [numel [bs; iy + 1 - H; ix_ + 1 - W]; numel [cin; H; W]]
          (tabulate ([bs; iy + 1 - H; ix_ + 1 - W] ++ [cin; H; W])
             (fun idx => at_ x [ix 0 idx; ix 3 idx;
                                ix 1 idx + ix 4 idx; ix 2 idx + ix 5 idx]))).
Proof.
  intros Hx HH HW. unfold im2col. rewrite Hx.
  destruct (Nat.leb_spec H iy); [|lia]. destruct (Nat.leb_spec W ix_); [|lia].
  reflexivity.
Qed.

(** Row [(b, Y, X)] of the patch matrix holds the window at [(Y, X)] of
    batch element [b]. *)
Lemma at_im2col (x : ndarray A) (bs cin oy ox H W b Y X l : nat) :
  b < bs -> Y < oy -> X < ox -> l < numel [cin; H; W] ->
  at_ (NDArray [numel [bs; oy; ox]; numel [cin; H; W]]
         (tabulate ([bs; oy; ox] ++ [cin; H; W])
            (fun idx => at_ x [ix 0 idx; ix 3 idx;
                               ix 1 idx + ix 4 idx; ix 2 idx + ix 5 idx])))
      [ravel [bs; oy; ox] [b; Y; X]; l]
  = patch_entry x cin H W b Y X l.
Proof.
  intros Hb HY HX Hl. unfold at_.
  rewrite get_matrix_of_tabulate by (try exact Hl; inb_solve).
  reflexivity.
Qed.

Lemma FastConv2D_forward_spec (x w : ndarray A) (bs cin iy ix_ cout H W : nat) :
  shape x = [bs; cin; iy; ix_] -> shape w = [cout; cin; H; W] ->
  H <= iy -> W <= ix_ -> 0 < cout ->
  exists tx out,
    im2col x H W = Ok tx
    /\ FastConv2D_forward new_ctx x w = Ok (MkCtx [STensor tx; STensor w], out)
    /\ shape out = [bs; cout; iy + 1 - H; ix_ + 1 - W]
    /\ wf out
    /\ forall b c Y X, b < bs -> c < cout -> Y < iy + 1 - H -> X < ix_ + 1 - W ->
         at_ out [b; c; Y; X] = conv_entry x w cin H W b c Y X.
Proof.
  intros Hx Hw HH HW Hc.
  set (oy := iy + 1 - H). set (ox := ix_ + 1 - W).
  eexists _, _. split; [apply (im2col_Ok x Hx HH HW)|].
  unfold FastConv2D_forward. rewrite Hw, (reshape_rows w Hw Hc), Hx.
  cbn [bind]. rewrite (im2col_Ok x Hx HH HW). cbn [bind].
  fold oy. fold ox.
  erewrite dot_Ok by reflexivity. cbn [bind].
  rewrite !out_dim by assumption. fold oy. fold ox.
  change [Z.of_nat bs; Z.of_nat oy; Z.of_nat ox; Z.of_nat cout]
    with (map Z.of_nat ([bs; oy; ox] ++ [cout])).
  rewrite reshape_of_nat by (cbn [app numel fold_right shape build]; ring).
  cbn [bind data build].
  erewrite moveaxis_0231 by reflexivity. cbn [bind save_for_backward new_ctx saved_tensors app].
  split; [reflexivity|]. split; [reflexivity|]. split; [apply wf_build|].
  intros b c Y X Hb Hcc HY HX.
  rewrite at_build by inb_solve. cbn [ix nth].
  assert (Hr : ravel [bs; oy; ox] [b; Y; X] < numel [bs; oy; ox])
    by (apply ravel_lt; inb_solve).
  rewrite get_merge_3_1. unfold get at 1. cbn [shape data].
  rewrite nth_tabulate by inb_solve. cbn [ix nth].
  unfold conv_entry. apply sum_range_ext. intros l Hl.
  rewrite at_im2col, at_kernel_in by assumption. reflexivity.
Qed.

(** C10: FastConv2D's forward returns an array of shape
    (bs, cout, iy - H + 1, ix - W + 1). *)
Theorem FastConv2D_forward_shape (x w : ndarray A) (bs cin iy ix_ cout H W : nat) :
  shape x = [bs; cin; iy; ix_] -> shape w = [cout; cin; H; W] ->
  H <= iy -> W <= ix_ -> 0 < cout ->
  exists ctx out,
    FastConv2D_forward new_ctx x w = Ok (ctx, out)
    /\ shape out = [bs; cout; iy - H + 1; ix_ - W + 1].
Proof.
  intros Hx Hw HH HW Hc.
  destruct (FastConv2D_forward_spec x w Hx Hw HH HW Hc)
    as (tx & out & _ & Hf & Hs & _).
  eexists _, out. split; [exact Hf|].
  rewrite Hs. f_equal. f_equal. f_equal; [lia|f_equal; lia].
Qed.

Lemma for_pure {I S : Type} (Inv : S -> Prop) (l : list I)
    (body : I -> S -> result S) (upd : I -> S -> S) (s0 : S) :
  Inv s0 ->
  (forall i s, In i l -> Inv s -> body i s = Ok (upd i s) /\ Inv (upd i s)) ->
  for_ l body s0 = Ok (fold_left (fun s i => upd i s) l s0)
  /\ Inv (fold_left (fun s i => upd i s) l s0).
Proof.
  revert s0. induction l as [|a l IH]; intros s0 H0 Hstep; cbn [for_ fold_left].
  - split; [reflexivity|exact H0].
  - destruct (Hstep a s0 (or_introl eq_refl) H0) as [-> Ha]. cbn [bind].
    apply IH; [exact Ha|]. intros i s Hi. apply Hstep. now right.
Qed.

(** A loop whose every iteration updates each element on its own updates
    each element by the loop of the element updates. *)
Lemma fold_left_pointwise {I S : Type} (Inv : S -> Prop) (proj : S -> ndarray A)
    (upd : I -> S -> S) (u : I -> list nat -> A -> A)
    (l : list I) (s0 : S) (idx : list nat) :
  (forall i s, In i l -> Inv s ->
     Inv (upd i s) /\ at_ (proj (upd i s)) idx = u i idx (at_ (proj s) idx)) ->
  Inv s0 ->
  Inv (fold_left (fun s i => upd i s) l s0)
  /\ at_ (proj (fold_left (fun s i => upd i s) l s0)) idx
     = fold_left (fun v i => u i idx v) l (at_ (proj s0) idx).
Proof.
  revert s0. induction l as [|a l IH]; intros s0 Hstep H0; cbn [fold_left].
  - split; [exact H0|reflexivity].
  - destruct (Hstep a s0 (or_introl eq_refl) H0) as [Ha Hv].
    rewrite <- Hv. apply IH; [|exact Ha].
    intros i s Hi. apply Hstep. now right.
Qed.

Lemma fold_left_select {V : Type} (n k : nat) (h : nat -> V) (v0 : V) :
  k < n ->
  fold_left (fun v i => if k =? i then h i else v) (seq 0 n) v0 = h k.
Proof.
  induction n as [|n IH]; intros Hk; [lia|].
  rewrite seq_S, fold_left_app. cbn [fold_left Nat.add].
  destruct (Nat.eqb_spec k n) as [->|Hne]; [reflexivity|].
  apply IH. lia.
Qed.

Lemma fold_left_keep {V I : Type} (l : list I) (v0 : V) :
  fold_left (fun v _ => v) l v0 = v0.
Proof. induction l; simpl; auto. Qed.

Lemma get_rows_of_tabulate {T : Type} (d : T) (n b l : nat) (sh2 : list nat)
    (f : list nat -> T) :
  b < n -> l < numel sh2 ->
  get d (NDArray [n; numel sh2] (tabulate (n :: sh2) f)) [b; l]
  = nth l (tabulate sh2 (fun i2 => f (b :: i2))) d.
Proof.
  intros Hb Hl. unfold get. cbn [shape data ravel numel fold_right].
  transitivity (nth (ravel [n] [b] * numel sh2 + l) (tabulate ([n] ++ sh2) f) d).
  - f_equal. cbn [ravel numel fold_right]. lia.
  - apply nth_tabulate_app; [inb_solve|exact Hl].
Qed.

(** One iteration of the loops of Conv2D's forward. *)
Lemma Conv2D_forward_step (x w ret : ndarray A)
    (bs cin iy ix_ cout H W oy ox Y X : nat) :
  shape x = [bs; cin; iy; ix_] -> 0 < bs ->
  Y + H <= iy -> X + W <= ix_ -> Y < oy -> X < ox ->
  shape ret = [bs; cout; oy; ox] ->
  (p <- window x Y H X W ;;
   tx <- reshape p [Z.of_nat bs; (-1)%Z] ;;
   v <- dot tx (transpose zero (NDArray [cout; numel [cin; H; W]] (data w))) ;;
   setitem_YX ret Y X v)
  = Ok (build [bs; cout; oy; ox]
          (fun idx => if (ix 2 idx =? Y) && (ix 3 idx =? X)
                      then conv_entry x w cin H W (ix 0 idx) (ix 1 idx) Y X
                      else at_ ret idx)).
Proof.
  intros Hx Hbs HY HX HYo HXo Hret.
  unfold window. rewrite Hx, !slice_len_full by assumption. cbn [bind].
  erewrite reshape_rows by (try exact Hbs; reflexivity). cbn [bind data build].
  erewrite dot_Ok by reflexivity. cbn [bind].
  unfold setitem_YX. rewrite Hret.
  destruct (Nat.ltb_spec Y oy); [|lia]. destruct (Nat.ltb_spec X ox); [|lia].
  cbn [andb shape build]. rewrite broadcastable_to_same. f_equal.
  apply build_ext. intros idx Hidx. inb_inv. cbn [ix nth].
  destruct ((_ =? Y) && (_ =? X)); [|reflexivity].
  rewrite bindex_inb, at_build by inb_solve. cbn [ix nth].
  unfold conv_entry. apply sum_range_ext. intros l Hl.
  rewrite at_kernel_in by assumption. f_equal.
  unfold at_. rewrite get_rows_of_tabulate by assumption. reflexivity.
Qed.

Lemma Conv2D_forward_spec (x w : ndarray A) (bs cin iy ix_ cout H W : nat) :
  shape x = [bs; cin; iy; ix_] -> shape w = [cout; cin; H; W] ->
  H <= iy -> W <= ix_ -> 0 < cout -> 0 < bs ->
  exists out,
    Conv2D_forward new_ctx x w = Ok (MkCtx [STensor x; STensor w], out)
    /\ shape out = [bs; cout; iy + 1 - H; ix_ + 1 - W]
    /\ wf out
    /\ forall b c Y X, b < bs -> c < cout -> Y < iy + 1 - H -> X < ix_ + 1 - W ->
         at_ out [b; c; Y; X] = conv_entry x w cin H W b c Y X.
Proof.
  intros Hx Hw HH HW Hc Hbs.
  set (oy := iy + 1 - H). set (ox := ix_ + 1 - W).
  set (sh := [bs; cout; oy; ox]).
  set (Inv := fun ret : ndarray A => shape ret = sh /\ wf ret).
  set (u := fun (Y X : nat) (idx : list nat) (v : A) =>
              if (ix 2 idx =? Y) && (ix 3 idx =? X)
              then conv_entry x w cin H W (ix 0 idx) (ix 1 idx) Y X else v).
  set (updX := fun (Y X : nat) (ret : ndarray A) =>
                 build sh (fun idx => u Y X idx (at_ ret idx))).
  set (updY := fun (Y : nat) (ret : ndarray A) =>
                 fold_left (fun s X => updX Y X s) (range ox) ret).
  unfold Conv2D_forward. rewrite Hw, (reshape_rows w Hw Hc), Hx.
  cbn [bind]. rewrite !out_dim by assumption. fold oy. fold ox.
  change [Z.of_nat bs; Z.of_nat cout; Z.of_nat oy; Z.of_nat ox]
    with (map Z.of_nat sh).
  rewrite np_zeros_of_nat, !Nat2Z.id. cbn [bind].
  assert (Hinner : forall Y s, In Y (range oy) -> Inv s ->
            for_ (range ox)
              (fun X ret =>
                 p <- window x Y H X W ;;
                 tx <- reshape p [Z.of_nat bs; (-1)%Z] ;;
                 v <- dot tx (transpose zero (NDArray [cout; numel [cin; H; W]] (data w))) ;;
                 setitem_YX ret Y X v) s
            = Ok (updY Y s) /\ Inv (updY Y s)).
  { intros Y s HY Hs. apply in_seq in HY.
    apply (for_pure Inv); [exact Hs|].
    intros X r HX [Hr _]. apply in_seq in HX. split.
    - apply (@Conv2D_forward_step x w r bs cin iy ix_ cout H W oy ox Y X);
        try assumption; unfold oy, ox in *; lia.
    - split; [reflexivity|apply wf_build]. }
  assert (H0 : Inv (zeros sh)) by (split; [reflexivity|apply wf_build]).
  destruct (for_pure Inv (range oy) _ updY (zeros sh) H0 Hinner) as [E [Hsh Hwf]].
  rewrite E. cbn [bind].
  eexists. split; [reflexivity|]. split; [exact Hsh|]. split; [exact Hwf|].
  intros b c Y X Hb Hcc HY HX.
  assert (HupdX : forall Y' X' s, Inv s ->
            Inv (updX Y' X' s)
            /\ at_ (updX Y' X' s) [b; c; Y; X] = u Y' X' [b; c; Y; X] (at_ s [b; c; Y; X])).
  { intros Y' X' s _. split; [split; [reflexivity|apply wf_build]|].
    unfold updX. rewrite at_build by (unfold sh; inb_solve). reflexivity. }
  assert (HupdY : forall Y' s, In Y' (range oy) -> Inv s ->
            Inv (updY Y' s)
            /\ at_ (updY Y' s) [b; c; Y; X]
               = (if Y =? Y' then conv_entry x w cin H W b c Y X else at_ s [b; c; Y; X])).
  { intros Y' s _ Hs.
    destruct (@fold_left_pointwise nat _ Inv (fun s => s) (updX Y') (u Y') (range ox) s
                [b; c; Y; X] (fun X' s' _ Hs' => HupdX Y' X' s' Hs') Hs) as [Hi Hv].
    split; [exact Hi|]. unfold updY. rewrite Hv. unfold u. cbn [ix nth].
    destruct (Nat.eqb_spec Y Y') as [<-|Hne]; cbn [andb].
    - apply (fold_left_select (fun X' => conv_entry x w cin H W b c Y X') _ HX).
    - apply fold_left_keep. }
  destruct (@fold_left_pointwise nat _ Inv (fun s => s) updY
              (fun Y' _ v => if Y =? Y' then conv_entry x w cin H W b c Y X else v)
              (range oy) (zeros sh) [b; c; Y; X] HupdY H0) as [_ Hv].
  rewrite Hv.
  apply (fold_left_select (fun _ => conv_entry x w cin H W b c Y X) _ HY).
Qed.

End ConvForward.

Section ConvBackwardFast.
Context {A : Type} {NA : Num A}.

Lemma get_merge_3_3 {T : Type} (d : T) (a b c e f g i j k l m n : nat) (buf : list T) :
  get d (NDArray [a; b; c; e; f; g] buf) [i; j; k; l; m; n]
  = get d (NDArray [numel [a; b; c]; numel [e; f; g]] buf)
        [ravel [a; b; c] [i; j; k]; ravel [e; f; g] [l; m; n]].
Proof.
  unfold get. cbn [shape data].
  change [a; b; c; e; f; g] with ([a; b; c] ++ [e; f; g]).
  change [i; j; k; l; m; n] with ([i; j; k] ++ [l; m; n]).
  rewrite ravel_app by reflexivity. f_equal.
  generalize (ravel [a; b; c] [i; j; k]) (ravel [e; f; g] [l; m; n])
             (numel [e; f; g]).
  intros r q K. cbn [ravel numel fold_right]. lia.
Qed.

Lemma iadd_window_Ok (dx v : ndarray A) (d0 d1 d2 d3 H W Y X : nat) :
  shape dx = [d0; d1; d2; d3] -> shape v = [d0; d1; H; W] ->
  Y + H <= d2 -> X + W <= d3 ->
  iadd_window dx Y H X W v
  = Ok (build [d0; d1; d2; d3]
          (fun idx => scatter_step H W Y X (at_ v) idx (at_ dx idx))).
Proof.
  intros Hdx Hv HY HX. unfold iadd_window.
  rewrite Hdx, Hv, !slice_len_full, broadcastable_to_same by assumption.
  f_equal. apply build_ext. intros idx Hidx. inb_inv. unfold scatter_step.
  cbn [ix nth].
  destruct (Nat.leb_spec Y x1); [|reflexivity].
  destruct (Nat.ltb_spec x1 (Y + H)); [|reflexivity].
  destruct (Nat.leb_spec X x2); [|reflexivity].
  destruct (Nat.ltb_spec x2 (X + W)); [|reflexivity].
  cbn [andb]. rewrite bindex_inb by inb_solve. reflexivity.
Qed.

Lemma div_numel3 (a b c : nat) :
  0 < b -> 0 < c ->
  (Z.of_nat (numel [a; b; c]) / (Z.of_nat b * Z.of_nat c))%Z = Z.of_nat a.
Proof.
  intros Hb Hc. cbn [numel fold_right].
  rewrite Nat.mul_1_r, !Nat2Z.inj_mul. apply Z.div_mul. nia.
Qed.

Lemma div_numel3' (a b c : nat) :
  0 < b -> 0 < c ->
  (Z.of_nat (numel [a; b; c]) / Z.of_nat (b * c))%Z = Z.of_nat a.
Proof.
  intros Hb Hc. rewrite Nat2Z.inj_mul. now apply div_numel3.
Qed.

(** Patch scatter: the element at [(b, ci, y, x)] of the result collects
    the entries of the patch matrix of every window that covers [(y, x)]. *)
Lemma col2im_spec (tx : ndarray A) (bs cin oy ox H W : nat) :
  shape tx = [numel [bs; oy; ox]; numel [cin; H; W]] ->
  0 < oy -> 0 < ox -> 0 < H -> 0 < W ->
  exists dx,
    col2im tx H W (Z.of_nat oy + (Z.of_nat H - 1)) (Z.of_nat ox + (Z.of_nat W - 1))
    = Ok dx
    /\ shape dx = [bs; cin; oy + H - 1; ox + W - 1]
    /\ wf dx
    /\ forall idx, inb [bs; cin; oy + H - 1; ox + W - 1] idx ->
         at_ dx idx
         = fold_left (fun v Y =>
             fold_left (fun v X =>
               scatter_step H W Y X
                 (fun p => at_ tx [ravel [bs; oy; ox] [ix 0 p; Y; X];
                                   ravel [cin; H; W] [ix 1 p; ix 2 p; ix 3 p]])
                 idx v) (range ox) v) (range oy) zero.
Proof.
  intros Htx Hoy Hox HH HW.
  set (sh := [bs; cin; oy + H - 1; ox + W - 1]).
  set (t := fun (Y X : nat) (p : list nat) =>
              at_ tx [ravel [bs; oy; ox] [ix 0 p; Y; X];
                      ravel [cin; H; W] [ix 1 p; ix 2 p; ix 3 p]]).
  set (Inv := fun s : ndarray A => shape s = sh /\ wf s).
  set (updX := fun (Y X : nat) (s : ndarray A) =>
                 build sh (fun idx => scatter_step H W Y X (t Y X) idx (at_ s idx))).
  set (updY := fun (Y : nat) (s : ndarray A) =>
                 fold_left (fun s X => updX Y X s) (range ox) s).
  unfold col2im. rewrite Htx.
  replace (Z.of_nat oy + (Z.of_nat H - 1) - (Z.of_nat H - 1))%Z with (Z.of_nat oy) by lia.
  replace (Z.of_nat ox + (Z.of_nat W - 1) - (Z.of_nat W - 1))%Z with (Z.of_nat ox) by lia.
  destruct (Z.leb_spec (Z.of_nat oy) 0); [lia|].
  destruct (Z.leb_spec (Z.of_nat ox) 0); [lia|].
  destruct (Nat.eqb_spec H 0); [lia|]. destruct (Nat.eqb_spec W 0); [lia|].
  cbn [orb]. rewrite div_numel3, div_numel3' by assumption.
  change [Z.of_nat bs; Z.of_nat oy; Z.of_nat ox; Z.of_nat cin; Z.of_nat H; Z.of_nat W]
    with (map Z.of_nat ([bs; oy; ox] ++ [cin; H; W])).
  rewrite reshape_of_nat by (rewrite Htx, numel_app; cbn [numel fold_right]; ring).
  cbn [bind].
  replace (Z.of_nat oy + (Z.of_nat H - 1))%Z with (Z.of_nat (oy + H - 1)) by lia.
  replace (Z.of_nat ox + (Z.of_nat W - 1))%Z with (Z.of_nat (ox + W - 1)) by lia.
  change [Z.of_nat bs; Z.of_nat cin; Z.of_nat (oy + H - 1); Z.of_nat (ox + W - 1)]
    with (map Z.of_nat sh).
  rewrite np_zeros_of_nat, !Nat2Z.id. cbn [bind].
  assert (Hinner : forall Y s, In Y (range oy) -> Inv s ->
            for_ (range ox)
              (fun X x =>
                 p <- patch_YX (NDArray ([bs; oy; ox] ++ [cin; H; W]) (data tx)) Y X ;;
                 iadd_window x Y H X W p) s
            = Ok (updY Y s) /\ Inv (updY Y s)).
  { intros Y s HY Hs. apply in_seq in HY.
    apply (for_pure Inv); [exact Hs|].
    intros X r HX [Hr _]. apply in_seq in HX. split; [|split; [reflexivity|apply wf_build]].
    unfold patch_YX. cbn [app shape].
    destruct (Nat.ltb_spec Y oy); [|lia]. destruct (Nat.ltb_spec X ox); [|lia].
    cbn [andb bind].
    erewrite iadd_window_Ok by (try exact Hr; try reflexivity; lia).
    f_equal. apply build_ext. intros idx Hidx. unfold scatter_step.
    destruct (_ && _ && _ && _) eqn:Hc; [|reflexivity].
    apply andb_prop in Hc as [Hc Hc4]. apply andb_prop in Hc as [Hc Hc3].
    apply andb_prop in Hc as [Hc1 Hc2].
    apply Nat.leb_le in Hc1, Hc3. apply Nat.ltb_lt in Hc2, Hc4.
    unfold sh in Hidx. inb_inv. cbn [ix nth] in *. f_equal.
    rewrite at_build by inb_solve. cbn [ix nth].
    unfold t, at_. rewrite get_merge_3_3. cbn [ix nth].
    unfold get. cbn [shape data]. now rewrite Htx. }
  assert (Hz : Inv (zeros sh)) by (split; [reflexivity|apply wf_build]).
  destruct (for_pure Inv (range oy) _ updY (zeros sh) Hz Hinner) as [E [Hsh Hwf]].
  rewrite E. eexists. split; [reflexivity|]. split; [exact Hsh|]. split; [exact Hwf|].
  intros idx Hidx.
  assert (HupdX : forall Y X s, Inv s ->
            Inv (updX Y X s)
            /\ at_ (updX Y X s) idx = scatter_step H W Y X (t Y X) idx (at_ s idx)).
  { intros Y X s _. split; [split; [reflexivity|apply wf_build]|].
    unfold updX. now rewrite at_build. }
  assert (HupdY : forall Y s, In Y (range oy) -> Inv s ->
            Inv (updY Y s)
            /\ at_ (updY Y s) idx
               = fold_left (fun v X => scatter_step H W Y X (t Y X) idx v)
                           (range ox) (at_ s idx)).
  { intros Y s _ Hs.
    apply (@fold_left_pointwise _ _ nat _ Inv (fun s => s) (updX Y)
             (fun X idx v => scatter_step H W Y X (t Y X) idx v) (range ox) s idx
             (fun X s' _ Hs' => HupdX Y X s' Hs') Hs). }
  destruct (@fold_left_pointwise _ _ nat _ Inv (fun s => s) updY
              (fun Y idx v => fold_left (fun v X => scatter_step H W Y X (t Y X) idx v)
                                        (range ox) v)
              (range oy) (zeros sh) idx HupdY Hz) as [_ Hv].
  rewrite Hv. unfold zeros. rewrite at_build by exact Hidx. reflexivity.
Qed.

End ConvBackwardFast.

Section ConvBackward.
Context {A : Type} {NA : Num A}.

Lemma get_split_1_3 {T : Type} (d : T) (a b c e i j k l : nat) (buf : list T) :
  get d (NDArray [a; b; c; e] buf) [i; j; k; l]
  = get d (NDArray [a; numel [b; c; e]] buf) [i; ravel [b; c; e] [j; k; l]].
Proof.
  unfold get. cbn [shape data]. f_equal.
  change (ravel [a; b; c; e] [i; j; k; l])
    with (i * numel [b; c; e] + ravel [b; c; e] [j; k; l]).
  generalize (ravel [b; c; e] [j; k; l]) (numel [b; c; e]). intros q N.
  cbn [ravel numel fold_right]. lia.
Qed.

Lemma at_kernel_rows (w : ndarray A) (cout cin H W c l : nat) :
  at_ (NDArray [cout; numel [cin; H; W]] (data w)) [c; l] = kernel_entry w cin H W c l.
Proof.
  unfold at_, get, kernel_entry. cbn [shape data]. f_equal.
  generalize (numel [cin; H; W]). intros K. cbn [ravel numel fold_right]. lia.
Qed.

Lemma scatter_step_ext (H W Y X : nat) (t t' : list nat -> A) (idx : list nat) (v : A) :
  (forall h w', h < H -> w' < W ->
     t [ix 0 idx; ix 1 idx; h; w'] = t' [ix 0 idx; ix 1 idx; h; w']) ->
  scatter_step H W Y X t idx v = scatter_step H W Y X t' idx v.
Proof.
  intros Ht. unfold scatter_step.
  destruct (Nat.leb_spec Y (ix 2 idx)); [|reflexivity].
  destruct (Nat.ltb_spec (ix 2 idx) (Y + H)); [|reflexivity].
  destruct (Nat.leb_spec X (ix 3 idx)); [|reflexivity].
  destruct (Nat.ltb_spec (ix 3 idx) (X + W)); [|reflexivity].
  cbn [andb]. f_equal. apply Ht; lia.
Qed.

(** The output gradient with the channel axis first and the others merged:
    the matrix [ggt] of FastConv2D's backward. *)
Lemma at_ggt (g : ndarray A) (bs cout oy ox b c Y X : nat) :
  b < bs -> c < cout -> Y < oy -> X < ox ->
  at_ (NDArray [cout; numel [bs; oy; ox]]
         (tabulate [cout; bs; oy; ox]
            (fun idx => get zero g [ix 1 idx; ix 0 idx; ix 2 idx; ix 3 idx])))
      [c; ravel [bs; oy; ox] [b; Y; X]]
  = at_ g [b; c; Y; X].
Proof.
  intros Hb Hc HY HX. unfold at_ at 1.
  rewrite <- get_split_1_3. unfold get at 1. cbn [shape data].
  rewrite nth_tabulate by inb_solve. reflexivity.
Qed.

(** One iteration of the loops of Conv2D's backward, on the pair
    [(dx, dw)]. *)
Lemma Conv2D_backward_step (x w g : ndarray A) (st : ndarray A * ndarray A)
    (bs cin iy ix_ cout H W oy ox Y X : nat) :
  shape x = [bs; cin; iy; ix_] -> shape g = [bs; cout; oy; ox] ->
  0 < bs -> Y + H <= iy -> X + W <= ix_ -> Y < oy -> X < ox ->
  shape (fst st) = [bs; cin; iy; ix_] -> shape (snd st) = [cout; cin; H; W] ->
  (gg <- getitem_YX g Y X ;;
   p <- window x Y H X W ;;
   tx <- reshape p [Z.of_nat (hd 0 (shape x)); (-1)%Z] ;;
   m <- dot (transpose zero gg) tx ;;
   m <- reshape m (map Z.of_nat (shape (snd st))) ;;
   dw <- iadd (snd st) m ;;
   n <- dot gg (NDArray [cout; numel [cin; H; W]] (data w)) ;;
   n <- reshape n [Z.of_nat (nth 0 (shape (fst st)) 0);
                   Z.of_nat (nth 1 (shape (fst st)) 0);
                   Z.of_nat H; Z.of_nat W] ;;
   dx <- iadd_window (fst st) Y H X W n ;;
   Ok (dx, dw))
  = Ok (build [bs; cin; iy; ix_]
          (fun idx =>
             scatter_step H W Y X
               (fun p => dxi_entry g w cout cin H W (ix 0 p) Y X
                           (ravel [cin; H; W] [ix 1 p; ix 2 p; ix 3 p]))
               idx (at_ (fst st) idx)),
        build [cout; cin; H; W]
          (fun idx =>
             add (at_ (snd st) idx)
                 (dw_term x g bs cin H W (ix 0 idx) Y X
                    (ravel [cin; H; W] [ix 1 idx; ix 2 idx; ix 3 idx])))).
Proof.
  intros Hx Hg Hbs HY HX HYo HXo Hdx Hdw.
  unfold getitem_YX. rewrite Hg.
  destruct (Nat.ltb_spec Y oy); [|lia]. destruct (Nat.ltb_spec X ox); [|lia].
  cbn [andb bind].
  unfold window. rewrite Hx, !slice_len_full by assumption. cbn [bind hd].
  erewrite reshape_rows by (try exact Hbs; reflexivity). cbn [bind data build].
  erewrite dot_Ok by reflexivity. cbn [bind].
  rewrite Hdw.
  rewrite reshape_of_nat by (cbn [shape build numel fold_right]; ring).
  cbn [bind data build].
  unfold iadd. cbn [shape]. rewrite Hdw, broadcastable_to_same. cbn [bind].
  erewrite dot_Ok by reflexivity. cbn [bind].
  rewrite Hdx. cbn [nth].
  change [Z.of_nat bs; Z.of_nat cin; Z.of_nat H; Z.of_nat W]
    with (map Z.of_nat [bs; cin; H; W]).
  rewrite reshape_of_nat by (cbn [shape build numel fold_right]; ring).
  cbn [bind data build].
  erewrite iadd_window_Ok by (try exact Hdx; try reflexivity; assumption).
  cbn [bind]. f_equal. f_equal.
  - apply build_ext. intros idx Hidx. apply scatter_step_ext.
    intros h w' Hh Hw'. inb_inv. cbn [ix nth].
    assert (Hk : ravel [cin; H; W] [x1; h; w'] < numel [cin; H; W])
      by (apply ravel_lt; inb_solve).
    unfold at_ at 1. rewrite get_split_1_3. unfold get at 1. cbn [shape data].
    rewrite nth_tabulate by inb_solve. cbn [ix nth].
    unfold dxi_entry. apply sum_range_ext. intros c Hc.
    rewrite at_build by inb_solve. cbn [ix nth].
    rewrite at_kernel_rows. reflexivity.
  - apply build_ext. intros idx Hidx. f_equal.
    rewrite bindex_inb by exact Hidx. inb_inv.
    assert (Hk : ravel [cin; H; W] [x1; x2; x3] < numel [cin; H; W])
      by (apply ravel_lt; inb_solve).
    unfold at_ at 1. rewrite get_split_1_3. unfold get at 1. cbn [shape data].
    rewrite nth_tabulate by inb_solve. cbn [ix nth].
    unfold dw_term. apply sum_range_ext. intros b Hb.
    rewrite get_transpose by (cbn [shape build rev app]; inb_solve).
    cbn [rev app]. rewrite at_build by inb_solve. cbn [ix nth]. f_equal.
    unfold at_. rewrite get_rows_of_tabulate by assumption. reflexivity.
Qed.

End ConvBackward.

(** ** Sums up to the order of summation *)

Section SummationOrder.
Context {A : Type} {NA : Num A}.

(** Addition of the elements is associative and commutative and has
    [zero] as its unit: the order in which a sum is taken does not
    matter. *)
Hypothesis add_assoc : forall a b c : A, add a (add b c) = add (add a b) c.
Hypothesis add_comm : forall a b : A, add a b = add b a.
Hypothesis add_0_l : forall a : A, add zero a = a.

Lemma add_0_r (a : A) : add a zero = a.
Proof. now rewrite add_comm. Qed.

Lemma sum_range_zero (n : nat) : sum_range n (fun _ => zero) = zero.
Proof.
  induction n as [|n IH]; [reflexivity|].
  now rewrite sum_range_S, IH, add_0_l.
Qed.

Lemma sum_range_add (n : nat) (f g : nat -> A) :
  sum_range n (fun i => add (f i) (g i)) = add (sum_range n f) (sum_range n g).
Proof.
  induction n as [|n IH].
  - unfold sum_range. cbn. now rewrite add_0_l.
  - rewrite !sum_range_S, IH.
    rewrite <- !add_assoc. f_equal.
    rewrite !add_assoc. f_equal. apply add_comm.
Qed.

Lemma sum_range_exchange (a b : nat) (f : nat -> nat -> A) :
  sum_range a (fun i => sum_range b (fun j => f i j))
  = sum_range b (fun j => sum_range a (fun i => f i j)).
Proof.
  induction a as [|a IH].
  - symmetry. apply sum_range_zero.
  - rewrite sum_range_S, IH, <- sum_range_add.
    apply sum_range_ext. intros j _. now rewrite sum_range_S.
Qed.

Lemma sum_range_app (n m : nat) (f : nat -> A) :
  sum_range (n + m) f = add (sum_range n f) (sum_range m (fun j => f (n + j))).
Proof.
  induction m as [|m IH].
  - rewrite Nat.add_0_r. unfold sum_range at 3. cbn. now rewrite add_0_r.
  - rewrite Nat.add_succ_r, !sum_range_S, IH. now rewrite add_assoc.
Qed.

Lemma sum_range_mul (a b : nat) (f : nat -> A) :
  sum_range (a * b) f = sum_range a (fun i => sum_range b (fun j => f (i * b + j))).
Proof.
  induction a as [|a IH]; [reflexivity|].
  replace (S a * b) with (a * b + b) by lia.
  now rewrite sum_range_app, IH, sum_range_S.
Qed.

(** The three nested loops over a (a, b, c) block visit the positions of
    its row-major buffer. *)
Lemma sum_range_numel3 (a b c : nat) (f : nat -> A) :
  sum_range (numel [a; b; c]) f
  = sum_range a (fun i => sum_range b (fun j => sum_range c (fun k =>
      f (ravel [a; b; c] [i; j; k])))).
Proof.
  replace (numel [a; b; c]) with (a * (b * c)) by (cbn [numel fold_right]; lia).
  rewrite sum_range_mul. apply sum_range_ext. intros i _.
  rewrite sum_range_mul. apply sum_range_ext. intros j _.
  apply sum_range_ext. intros k _. f_equal.
  cbn [ravel numel fold_right]. lia.
Qed.

(** Accumulating the terms [h i] onto [v0] adds their sum to [v0]. *)
Lemma fold_left_add (n : nat) (h : nat -> A) (v0 : A) :
  fold_left (fun v i => add v (h i)) (range n) v0 = add v0 (sum_range n h).
Proof.
  induction n as [|n IH].
  - unfold sum_range. cbn. now rewrite add_0_r.
  - rewrite sum_range_S. unfold range in *. rewrite seq_S, fold_left_app.
    cbn [fold_left Nat.add]. now rewrite IH, add_assoc.
Qed.


Lemma FastConv2D_backward_spec (x w g tx : ndarray A)
    (bs cin iy ix_ cout H W : nat) :
  shape x = [bs; cin; iy; ix_] -> shape w = [cout; cin; H; W] ->
  shape g = [bs; cout; iy + 1 - H; ix_ + 1 - W] ->
  H <= iy -> W <= ix_ -> 0 < cout -> 0 < H -> 0 < W ->
  im2col x H W = Ok tx ->
  exists dx dw,
    FastConv2D_backward (MkCtx [STensor tx; STensor w]) g = Ok (Grad dx, Grad dw)
    /\ shape dx = [bs; cin; iy; ix_] /\ wf dx
    /\ shape dw = [cout; cin; H; W] /\ wf dw
    /\ (forall idx, inb [bs; cin; iy; ix_] idx ->
          at_ dx idx
          = fold_left (fun v Y =>
              fold_left (fun v X =>
                scatter_step H W Y X
                  (fun p => dxi_entry g w cout cin H W (ix 0 p) Y X
                              (ravel [cin; H; W] [ix 1 p; ix 2 p; ix 3 p]))
                  idx v) (range (ix_ + 1 - W)) v) (range (iy + 1 - H)) zero)
    /\ (forall c ci h w', c < cout -> ci < cin -> h < H -> w' < W ->
          at_ dw [c; ci; h; w']
          = sum_range bs (fun b =>
              sum_range (iy + 1 - H) (fun Y =>
                sum_range (ix_ + 1 - W) (fun X =>
                  mul (at_ g [b; c; Y; X])
                      (patch_entry x cin H W b Y X (ravel [cin; H; W] [ci; h; w'])))))).
Proof.
  intros Hx Hw Hg HH HW Hc HH0 HW0 Htx.
  assert (Etx : tx = NDArray [numel [bs; iy + 1 - H; ix_ + 1 - W]; numel [cin; H; W]]
                  (tabulate ([bs; iy + 1 - H; ix_ + 1 - W] ++ [cin; H; W])
                     (fun idx => at_ x [ix 0 idx; ix 3 idx;
                                        ix 1 idx + ix 4 idx; ix 2 idx + ix 5 idx])))
    by (rewrite (im2col_Ok x Hx HH HW) in Htx; congruence).
  clear Htx. subst tx.
  set (oy := iy + 1 - H) in *. set (ox := ix_ + 1 - W) in *.
  unfold FastConv2D_backward. rewrite Hg. cbn [saved_tensors]. rewrite Hw.
  cbn [hd]. rewrite (reshape_rows w Hw Hc). cbn [bind].
  erewrite moveaxis_1023 by exact Hg. cbn [bind].
  erewrite reshape_rows by (try exact Hc; reflexivity). cbn [bind data build].
  erewrite dot_Ok by reflexivity. cbn [bind].
  rewrite reshape_of_nat by (cbn [shape build numel fold_right]; ring).
  cbn [bind data build].
  erewrite dot_Ok by reflexivity. cbn [bind].
  match goal with
  | |- context [col2im ?dxi _ _ _ _] =>
      destruct (@col2im_spec _ _ dxi bs cin oy ox H W eq_refl)
        as (dx & Ecol & Hsdx & Hwdx & Hdx); try (unfold oy, ox; lia)
  end.
  rewrite Ecol. cbn [bind].
  replace (oy + H - 1) with iy in * by (unfold oy; lia).
  replace (ox + W - 1) with ix_ in * by (unfold ox; lia).
  eexists _, _. split; [reflexivity|]. split; [exact Hsdx|]. split; [exact Hwdx|].
  split; [reflexivity|].
  split; [unfold wf; cbn [shape data]; rewrite length_tabulate;
          cbn [numel fold_right]; ring|].
  split.
  - intros idx Hidx. rewrite (Hdx idx Hidx).
    apply fold_left_ext_in. intros v Y HY. apply in_seq in HY.
    apply fold_left_ext_in. intros v' X HX. apply in_seq in HX.
    apply scatter_step_ext. intros h w' Hh Hw'. inb_inv. cbn [ix nth].
    assert (Hr : ravel [bs; oy; ox] [x0; Y; X] < numel [bs; oy; ox])
      by (apply ravel_lt; inb_solve).
    assert (Hk : ravel [cin; H; W] [x1; h; w'] < numel [cin; H; W])
      by (apply ravel_lt; inb_solve).
    rewrite at_build by inb_solve. cbn [ix nth].
    unfold dxi_entry. apply sum_range_ext. intros c Hcc.
    rewrite get_transpose by (cbn [shape rev app]; inb_solve).
    cbn [rev app]. rewrite at_ggt, at_kernel_rows by lia. reflexivity.
  - intros c ci h w' Hcc Hci Hh Hw'.
    assert (Hk : ravel [cin; H; W] [ci; h; w'] < numel [cin; H; W])
      by (apply ravel_lt; inb_solve).
    unfold at_ at 1. rewrite get_split_1_3. unfold get at 1. cbn [shape data].
    rewrite nth_tabulate by inb_solve. cbn [ix nth].
    rewrite sum_range_numel3.
    apply sum_range_ext. intros b Hb.
    apply sum_range_ext. intros Y HY.
    apply sum_range_ext. intros X HX.
    rewrite at_ggt by assumption. f_equal. apply at_im2col; assumption.
Qed.

Lemma Conv2D_backward_spec (x w g : ndarray A) (bs cin iy ix_ cout H W : nat) :
  shape x = [bs; cin; iy; ix_] -> shape w = [cout; cin; H; W] ->
  shape g = [bs; cout; iy + 1 - H; ix_ + 1 - W] ->
  H <= iy -> W <= ix_ -> 0 < cout -> 0 < bs ->
  exists dx dw,
    Conv2D_backward (MkCtx [STensor x; STensor w]) g = Ok (Grad dx, Grad dw)
    /\ shape dx = [bs; cin; iy; ix_] /\ wf dx
    /\ shape dw = [cout; cin; H; W] /\ wf dw
    /\ (forall idx, inb [bs; cin; iy; ix_] idx ->
          at_ dx idx
          = fold_left (fun v Y =>
              fold_left (fun v X =>
                scatter_step H W Y X
                  (fun p => dxi_entry g w cout cin H W (ix 0 p) Y X
                              (ravel [cin; H; W] [ix 1 p; ix 2 p; ix 3 p]))
                  idx v) (range (ix_ + 1 - W)) v) (range (iy + 1 - H)) zero)
    /\ (forall c ci h w', c < cout -> ci < cin -> h < H -> w' < W ->
          at_ dw [c; ci; h; w']
          = sum_range (iy + 1 - H) (fun Y =>
              sum_range (ix_ + 1 - W) (fun X =>
                dw_term x g bs cin H W c Y X (ravel [cin; H; W] [ci; h; w'])))).
Proof.
  intros Hx Hw Hg HH HW Hc Hbs.
  set (oy := iy + 1 - H) in *. set (ox := ix_ + 1 - W) in *.
  set (xs := [bs; cin; iy; ix_]). set (ws := [cout; cin; H; W]).
  set (Inv := fun st : ndarray A * ndarray A =>
                (shape (fst st) = xs /\ wf (fst st))
                /\ (shape (snd st) = ws /\ wf (snd st))).
  set (ux := fun (Y X : nat) (idx : list nat) (v : A) =>
               scatter_step H W Y X
                 (fun p => dxi_entry g w cout cin H W (ix 0 p) Y X
                             (ravel [cin; H; W] [ix 1 p; ix 2 p; ix 3 p])) idx v).
  set (uw := fun (Y X : nat) (idx : list nat) (v : A) =>
               add v (dw_term x g bs cin H W (ix 0 idx) Y X
                        (ravel [cin; H; W] [ix 1 idx; ix 2 idx; ix 3 idx]))).
  set (updX := fun (Y X : nat) (st : ndarray A * ndarray A) =>
                 (build xs (fun idx => ux Y X idx (at_ (fst st) idx)),
                  build ws (fun idx => uw Y X idx (at_ (snd st) idx)))).
  set (updY := fun (Y : nat) (st : ndarray A * ndarray A) =>
                 fold_left (fun s X => updX Y X s) (range ox) st).
  unfold Conv2D_backward. rewrite Hg. cbn [saved_tensors]. rewrite Hw.
  rewrite (reshape_rows w Hw Hc). cbn [bind].
  assert (Hz : Inv (zeros_like x, zeros_like w)).
  { unfold Inv, zeros_like. cbn [fst snd]. rewrite Hx, Hw.
    repeat split; apply wf_build. }
  match goal with
  | |- context [for_ (range oy) ?body _] =>
      assert (Houter : forall Y s, In Y (range oy) -> Inv s ->
                body Y s = Ok (updY Y s) /\ Inv (updY Y s))
  end.
  { intros Y s HY Hs. apply in_seq in HY. cbv beta.
    apply (for_pure Inv); [exact Hs|].
    intros X r HX [[Hr1 _] [Hr2 _]]. apply in_seq in HX. split.
    - cbv zeta.
      apply (@Conv2D_backward_step _ _ x w g r bs cin iy ix_ cout H W oy ox Y X);
        try assumption; unfold oy, ox in *; lia.
    - unfold Inv, updX. cbn [fst snd]. repeat split; apply wf_build. }
  destruct (for_pure Inv (range oy) _ updY _ Hz Houter) as [E [[Hsx Hwx] [Hsw Hww]]].
  rewrite E. cbn [bind].
  eexists _, _. split; [reflexivity|].
  split; [exact Hsx|]. split; [exact Hwx|]. split; [exact Hsw|]. split; [exact Hww|].
  split.
  - intros idx Hidx.
    assert (HupdY : forall Y s, In Y (range oy) -> Inv s ->
              Inv (updY Y s)
              /\ at_ (fst (updY Y s)) idx
                 = fold_left (fun v X => ux Y X idx v) (range ox) (at_ (fst s) idx)).
    { intros Y s _ Hs.
      apply (@fold_left_pointwise _ _ nat _ Inv fst (updX Y) (ux Y) (range ox) s idx);
        [|exact Hs].
      intros X s' _ _. split.
      - unfold Inv, updX. cbn [fst snd]. repeat split; apply wf_build.
      - unfold updX. cbn [fst]. now rewrite at_build. }
    destruct (@fold_left_pointwise _ _ nat _ Inv fst updY
                (fun Y idx v => fold_left (fun v X => ux Y X idx v) (range ox) v)
                (range oy) (zeros_like x, zeros_like w) idx HupdY Hz) as [_ Hv].
    rewrite Hv. cbn [fst]. unfold zeros_like, zeros.
    rewrite Hx, at_build by exact Hidx. reflexivity.
  - intros c ci h w' Hcc Hci Hh Hw'.
    assert (Hidx : inb ws [c; ci; h; w']) by (unfold ws; inb_solve).
    assert (HupdY : forall Y s, In Y (range oy) -> Inv s ->
              Inv (updY Y s)
              /\ at_ (snd (updY Y s)) [c; ci; h; w']
                 = fold_left (fun v X => uw Y X [c; ci; h; w'] v) (range ox)
                             (at_ (snd s) [c; ci; h; w'])).
    { intros Y s _ Hs.
      apply (@fold_left_pointwise _ _ nat _ Inv snd (updX Y) (uw Y) (range ox) s
               [c; ci; h; w']); [|exact Hs].
      intros X s' _ _. split.
      - unfold Inv, updX. cbn [fst snd]. repeat split; apply wf_build.
      - unfold updX. cbn [snd]. now rewrite at_build. }
    destruct (@fold_left_pointwise _ _ nat _ Inv snd updY
                (fun Y idx v => fold_left (fun v X => uw Y X idx v) (range ox) v)
                (range oy) (zeros_like x, zeros_like w) [c; ci; h; w'] HupdY Hz)
      as [_ Hv].
    rewrite Hv. cbn [snd]. unfold zeros_like, zeros.
    rewrite Hw, at_build by exact Hidx. unfold uw. cbn [ix nth].
    rewrite fold_left_ext_in
      with (g := fun v Y => add v (sum_range ox (fun X =>
                   dw_term x g bs cin H W c Y X (ravel [cin; H; W] [ci; h; w']))))
      by (intros v Y _; apply fold_left_add).
    rewrite fold_left_add. apply add_0_l.
Qed.

(** C1: on the same input, weights and incoming gradient, Conv2D and
    FastConv2D return the same output, the same gradient of the input and
    the same gradient of the weights, when the order in which the elements
    are added does not matter. *)
Theorem Conv2D_FastConv2D_agree (x w g : ndarray A) (bs cin iy ix_ cout H W : nat) :
  shape x = [bs; cin; iy; ix_] -> shape w = [cout; cin; H; W] ->
  shape g = [bs; cout; iy - H + 1; ix_ - W + 1] ->
  H <= iy -> W <= ix_ -> 0 < bs -> 0 < cout -> 0 < H -> 0 < W ->
  exists ctxN ctxF out dx dw,
    Conv2D_forward new_ctx x w = Ok (ctxN, out)
    /\ FastConv2D_forward new_ctx x w = Ok (ctxF, out)
    /\ shape out = [bs; cout; iy - H + 1; ix_ - W + 1]
    /\ Conv2D_backward ctxN g = Ok (Grad dx, Grad dw)
    /\ FastConv2D_backward ctxF g = Ok (Grad dx, Grad dw)
    /\ shape dx = shape x /\ shape dw = shape w.
Proof.
  intros Hx Hw Hg HH HW Hbs Hc HH0 HW0.
  replace (iy - H + 1) with (iy + 1 - H) in * by lia.
  replace (ix_ - W + 1) with (ix_ + 1 - W) in * by lia.
  destruct (@Conv2D_forward_spec _ _ x w bs cin iy ix_ cout H W Hx Hw HH HW Hc Hbs)
    as (outN & HfN & HsN & HwN & HeN).
  destruct (@FastConv2D_forward_spec _ _ x w bs cin iy ix_ cout H W Hx Hw HH HW Hc)
    as (tx & outF & Htx & HfF & HsF & HwF & HeF).
  destruct (@Conv2D_backward_spec x w g bs cin iy ix_ cout H W Hx Hw Hg HH HW Hc Hbs)
    as (dxN & dwN & HbN & HsxN & HwxN & HswN & HwwN & HdxN & HdwN).
  destruct (@FastConv2D_backward_spec x w g tx bs cin iy ix_ cout H W
              Hx Hw Hg HH HW Hc HH0 HW0 Htx)
    as (dxF & dwF & HbF & HsxF & HwxF & HswF & HwwF & HdxF & HdwF).
  assert (Eout : outN = outF).
  { apply (ndarray_ext zero); try assumption; [congruence|].
    rewrite HsN. intros idx Hidx. inb_inv.
    change (at_ outN [x0; x1; x2; x3] = at_ outF [x0; x1; x2; x3]).
    rewrite HeN, HeF by assumption. reflexivity. }
  assert (Edx : dxN = dxF).
  { apply (ndarray_ext zero); try assumption; [congruence|].
    rewrite HsxN. intros idx Hidx.
    change (at_ dxN idx = at_ dxF idx).
    rewrite HdxN, HdxF by assumption. reflexivity. }
  assert (Edw : dwN = dwF).
  { apply (ndarray_ext zero); try assumption; [congruence|].
    rewrite HswN. intros idx Hidx. inb_inv.
    change (at_ dwN [x0; x1; x2; x3] = at_ dwF [x0; x1; x2; x3]).
    rewrite HdwN, HdwF by assumption.
    rewrite (sum_range_exchange bs).
    apply sum_range_ext. intros Y _.
    rewrite (sum_range_exchange bs).
    apply sum_range_ext. intros X _. reflexivity. }
  subst outF dxF dwF.
  exists (MkCtx [STensor x; STensor w]), (MkCtx [STensor tx; STensor w]), outN, dxN, dwN.
  repeat split; try assumption; congruence.
Qed.

End SummationOrder.

(** C1 on a batch of two 2-channel 3x3 inputs and two 2x2 kernels. *)
Lemma Conv2D_FastConv2D_agree_witness :
  let x : ndarray Z :=
    NDArray [2; 2; 3; 3]
      [1; 2; 3; 4; 5; 6; 7; 8; 9;  1; 0; 1; 0; 1; 0; 1; 0; 1;
       2; 2; 2; 3; 3; 3; 4; 4; 4;  9; 8; 7; 6; 5; 4; 3; 2; 1]%Z in
  let w : ndarray Z :=
    NDArray [2; 2; 2; 2] [1; 0; 0; 1;  1; 1; 1; 1;  2; 0; 0; 0;  0; 0; 0; 3]%Z in
  let g : ndarray Z :=
    NDArray [2; 2; 2; 2] [1; 2; 3; 4;  5; 6; 7; 8;  1; 0; 0; 1;  1; 1; 0; 0]%Z in
  exists ctxN ctxF out dx dw,
    Conv2D_forward new_ctx x w = Ok (ctxN, out)
    /\ FastConv2D_forward new_ctx x w = Ok (ctxF, out)
    /\ shape out = [2; 2; 3 - 2 + 1; 3 - 2 + 1]
    /\ Conv2D_backward ctxN g = Ok (Grad dx, Grad dw)
    /\ FastConv2D_backward ctxF g = Ok (Grad dx, Grad dw)
    /\ shape dx = shape x /\ shape dw = shape w.
Proof.
  intros x w g.
  refine (@Conv2D_FastConv2D_agree Z Num_Z _ _ _ x w g 2 2 3 3 2 2 2
            _ _ _ _ _ _ _ _ _).
  - intros a b c. simpl. lia.
  - intros a b. simpl. lia.
  - intros a. reflexivity.
  - reflexivity.
  - reflexivity.
  - reflexivity.
  - lia.
  - lia.
  - lia.
  - lia.
  - lia.
  - lia.
Defined.

Lemma FastConv2D_forward_shape_witness :
  let x : ndarray Z :=
    NDArray [1; 1; 3; 3] [1; 2; 3; 4; 5; 6; 7; 8; 9]%Z in
  let w : ndarray Z := NDArray [2; 1; 2; 2] [1; 0; 0; 1;  1; 1; 1; 1]%Z in
  exists ctx out,
    FastConv2D_forward new_ctx x w = Ok (ctx, out)
    /\ shape out = [1; 2; 3 - 2 + 1; 3 - 2 + 1].
Proof.
  intros x w.
  apply (@FastConv2D_forward_shape Z Num_Z x w 1 1 3 3 2 2 2);
    try reflexivity; lia.
Defined.

(** The two implementations evaluated on one input: the same output and
    the same gradients, element for element. *)
Example Conv2D_FastConv2D_run :
  let x : ndarray Z := NDArray [1; 1; 3; 3] [1; 2; 3; 4; 5; 6; 7; 8; 9]%Z in
  let w : ndarray Z := NDArray [1; 1; 2; 2] [1; 0; 0; 1]%Z in
  let g : ndarray Z := NDArray [1; 1; 2; 2] [1; 1; 1; 1]%Z in
  (r <- Conv2D_forward new_ctx x w ;; Ok (snd r))
  = Ok (NDArray [1; 1; 2; 2] [6; 8; 12; 14]%Z)
  /\ (r <- FastConv2D_forward new_ctx x w ;; Ok (snd r))
     = Ok (NDArray [1; 1; 2; 2] [6; 8; 12; 14]%Z)
  /\ (r <- Conv2D_forward new_ctx x w ;; Conv2D_backward (fst r) g)
     = Ok (Grad (NDArray [1; 1; 3; 3] [1; 1; 0; 1; 2; 1; 0; 1; 1]%Z),
           Grad (NDArray [1; 1; 2; 2] [12; 16; 24; 28]%Z))
  /\ (r <- FastConv2D_forward new_ctx x w ;; FastConv2D_backward (fst r) g)
     = Ok (Grad (NDArray [1; 1; 3; 3] [1; 1; 0; 1; 2; 1; 0; 1; 1]%Z),
           Grad (NDArray [1; 1; 2; 2] [12; 16; 24; 28]%Z)).
Proof. repeat split; vm_compute; reflexivity. Qed.

(** Every dimension is positive in the statements above.  numpy also has
    arrays with a dimension of length 0, and on those [reshape] cannot infer
    the dimension written [-1]: [w.reshape(cout, -1)] raises for a kernel
    array without output channels, and so does [tx.reshape(bs, -1)] in
    Conv2D's loop for an empty batch. *)
Example Conv2D_empty_dimensions :
  FastConv2D_forward new_ctx (NDArray [1; 1; 1; 1] [1%Z]) (NDArray [0; 1; 1; 1] [])
  = Raise ValueError
  /\ Conv2D_forward new_ctx (NDArray [0; 1; 1; 1] []) (NDArray [1; 1; 1; 1] [1%Z])
     = Raise ValueError.
Proof. split; reflexivity. Qed.

(** * Further properties of the operations *)

(** ** Reshape *)

Section ReshapeMore.
Context {A : Type} {NA : Num A}.

Lemma reshape_same_size {T : Type} (a b : ndarray T) (s : list Z) :
  numel (shape a) = numel (shape b) -> data a = data b ->
  reshape a s = reshape b s.
Proof. intros Hn Hd. unfold reshape. now rewrite Hn, Hd. Qed.

(** X1: with explicit dimensions, Reshape's forward succeeds exactly when
    the target shape has as many elements as the input, and raises
    [ValueError] otherwise; on success it saves the input's shape and
    returns the input's buffer under the new shape. *)
Theorem Reshape_forward_explicit (x : ndarray A) (sh : list nat) :
  (numel sh = numel (shape x) ->
   Reshape_forward new_ctx x (map Z.of_nat sh)
   = Ok (MkCtx [SShape (shape x)], NDArray sh (data x)))
  /\ (numel sh <> numel (shape x) ->
      Reshape_forward new_ctx x (map Z.of_nat sh) = Raise ValueError).
Proof.
  split; intros H; unfold Reshape_forward.
  - now rewrite reshape_of_nat.
  - destruct (reshape x (map Z.of_nat sh)) as [r|e] eqn:E.
    + apply reshape_of_nat_inv in E as [E _]. contradiction.
    + unfold reshape in E. destruct (known_numel_of_nat sh) as [E1 E2].
      rewrite E1, E2 in E. cbn [length] in E.
      destruct (Z.eqb_spec (Z.of_nat (numel sh)) (Z.of_nat (numel (shape x))));
        [discriminate|]. now injection E as <-.
Qed.

(** X2: a successful Reshape never touches the elements: the output has
    the input's buffer, in the same order and with the same number of
    elements (also when a dimension was inferred), the target shape had at
    most one negative entry, and the saved value is the input's shape. *)
Theorem Reshape_forward_keeps_buffer (x y : ndarray A) (s : list Z) (ctx : Ctx) :
  Reshape_forward new_ctx x s = Ok (ctx, y) ->
  data y = data x
  /\ numel (shape y) = numel (shape x)
  /\ (wf x -> wf y)
  /\ length (shape y) = length s
  /\ length (filter is_unknown s) <= 1
  /\ saved_tensors ctx = [SShape (shape x)].
Proof.
  intros H. apply Reshape_forward_inv in H as [Hr ->].
  pose proof (reshape_Ok _ _ Hr) as [Hn Hd].
  split; [exact Hd|]. split; [exact Hn|].
  split; [unfold wf; intros Hx; now rewrite Hd, Hn|].
  split; [|split; [|reflexivity]].
  - unfold reshape in Hr.
    destruct (length (filter is_unknown s)) as [|[|k]]; [| |discriminate].
    + destruct (_ =? _)%Z; [|discriminate]. injection Hr as <-.
      cbn [shape]. apply length_map.
    + destruct (_ || _); [discriminate|]. injection Hr as <-.
      cbn [shape]. apply length_map.
  - unfold reshape in Hr.
    destruct (length (filter is_unknown s)) as [|[|k]]; [lia|lia|discriminate].
Qed.

(** X3: two reshapes in a row give what the second one gives on the
    original array, an exception included. *)
Theorem Reshape_forward_twice (x y : ndarray A) (s1 s2 : list Z) (ctx1 : Ctx) :
  Reshape_forward new_ctx x s1 = Ok (ctx1, y) ->
  (r <- Reshape_forward new_ctx y s2 ;; Ok (snd r))
  = (r <- Reshape_forward new_ctx x s2 ;; Ok (snd r)).
Proof.
  intros H. apply Reshape_forward_inv in H as [Hr _].
  apply reshape_Ok in Hr as [Hn Hd].
  unfold Reshape_forward. rewrite (reshape_same_size y x s2 Hn Hd).
  destruct (reshape x s2); reflexivity.
Qed.

(** X4: Sum after Reshape returns what Sum returns on the original
    array. *)
Theorem Sum_after_Reshape (x y : ndarray A) (s : list Z) (ctx : Ctx) :
  Reshape_forward new_ctx x s = Ok (ctx, y) ->
  (r <- Sum_forward new_ctx y ;; Ok (snd r))
  = (r <- Sum_forward new_ctx x ;; Ok (snd r)).
Proof.
  intros H. apply Reshape_forward_inv in H as [Hr _].
  apply reshape_Ok in Hr as [_ Hd].
  unfold Sum_forward, np_sum. cbn [bind snd]. now rewrite Hd.
Qed.

End ReshapeMore.

Lemma Reshape_forward_explicit_witness :
  let x : ndarray Z := NDArray [2; 3] [1; 2; 3; 4; 5; 6]%Z in
  Reshape_forward new_ctx x (map Z.of_nat [3; 2])
  = Ok (MkCtx [SShape (shape x)], NDArray [3; 2] (data x))
  /\ Reshape_forward new_ctx x (map Z.of_nat [4; 2]) = Raise ValueError.
Proof.
  intros x. split.
  - apply (proj1 (@Reshape_forward_explicit Z x [3; 2])). reflexivity.
  - apply (proj2 (@Reshape_forward_explicit Z x [4; 2])). simpl. lia.
Defined.

Lemma Reshape_forward_keeps_buffer_witness :
  let x : ndarray Z := NDArray [2; 3] [1; 2; 3; 4; 5; 6]%Z in
  let y : ndarray Z := NDArray [3; 2] [1; 2; 3; 4; 5; 6]%Z in
  data y = data x
  /\ numel (shape y) = numel (shape x)
  /\ (wf x -> wf y)
  /\ length (shape y) = length [(-1)%Z; 2%Z]
  /\ length (filter is_unknown [(-1)%Z; 2%Z]) <= 1
  /\ saved_tensors (MkCtx (A := Z) [SShape [2; 3]]) = [SShape (shape x)].
Proof.
  intros x y.
  apply (@Reshape_forward_keeps_buffer Z x y [(-1)%Z; 2%Z]). reflexivity.
Defined.

Lemma Reshape_forward_twice_witness :
  let x : ndarray Z := NDArray [2; 3] [1; 2; 3; 4; 5; 6]%Z in
  let y : ndarray Z := NDArray [6] [1; 2; 3; 4; 5; 6]%Z in
  (r <- Reshape_forward new_ctx y [3%Z; (-1)%Z] ;; Ok (snd r))
  = (r <- Reshape_forward new_ctx x [3%Z; (-1)%Z] ;; Ok (snd r)).
Proof.
  intros x y.
  apply (@Reshape_forward_twice Z x y [6%Z] [3%Z; (-1)%Z] (MkCtx [SShape [2; 3]])).
  reflexivity.
Defined.

Lemma Sum_after_Reshape_witness :
  let x : ndarray Z := NDArray [2; 3] [1; 2; 3; 4; 5; 6]%Z in
  let y : ndarray Z := NDArray [6] [1; 2; 3; 4; 5; 6]%Z in
  (r <- Sum_forward new_ctx y ;; Ok (snd r))
  = (r <- Sum_forward new_ctx x ;; Ok (snd r)).
Proof.
  intros x y.
  apply (@Sum_after_Reshape Z Num_Z x y [6%Z] (MkCtx [SShape [2; 3]])).
  reflexivity.
Defined.

(** ** Mul, Add and ReLU *)

Lemma broadcast_rev_comm (r1 r2 : list nat) :
  broadcast_rev r1 r2 = broadcast_rev r2 r1.
Proof.
  revert r2. induction r1 as [|a r1 IH]; intros [|b r2]; try reflexivity.
  cbn [broadcast_rev]. rewrite (IH r2).
  destruct (broadcast_rev r2 r1); [|reflexivity].
  destruct (Nat.eqb_spec a b) as [->|Hab].
  - now rewrite Nat.eqb_refl.
  - destruct (Nat.eqb_spec b a) as [->|_]; [congruence|].
    destruct (Nat.eqb_spec a 1) as [->|Ha]; destruct (Nat.eqb_spec b 1) as [->|Hb];
      congruence.
Qed.

Lemma broadcast_shapes_comm (s1 s2 : list nat) :
  broadcast_shapes s1 s2 = broadcast_shapes s2 s1.
Proof. unfold broadcast_shapes. now rewrite broadcast_rev_comm. Qed.

Lemma broadcast_shapes_row (n m : nat) : broadcast_shapes [n; m] [m] = Some [n; m].
Proof.
  unfold broadcast_shapes. cbn [rev app broadcast_rev].
  now rewrite Nat.eqb_refl.
Qed.

Lemma bindex_row (m i j : nat) : j < m -> bindex [m] [i; j] = [j].
Proof.
  intros Hj. unfold bindex. cbn [length Nat.sub skipn combine map fst snd].
  destruct (Nat.eqb_spec m 1); [f_equal; lia|reflexivity].
Qed.

Section Elementwise.
Context {A : Type} {NA : Num A}.

(** An element-wise operation on operands of one shape. *)
Lemma ufunc2_same_shape {T U V : Type} (dT : T) (dU : U) (dV : V) (f : T -> U -> V)
    (a : ndarray T) (b : ndarray U) (sh : list nat) :
  shape a = sh -> shape b = sh ->
  exists r,
    ufunc2 dT dU f a b = Ok r /\ shape r = sh /\ wf r
    /\ forall idx, inb sh idx -> get dV r idx = f (get dT a idx) (get dU b idx).
Proof.
  intros Ha Hb.
  rewrite ufunc2_Ok with (sh := sh) by (rewrite Ha, Hb; apply broadcast_shapes_same).
  eexists. split; [reflexivity|]. split; [reflexivity|]. split; [apply wf_build|].
  intros idx Hidx. rewrite get_build by exact Hidx.
  now rewrite Ha, Hb, (bindex_inb Hidx).
Qed.

(** An element-wise operation between an array and a Python scalar. *)
Lemma ufunc2_scalar {T U V : Type} (dT : T) (dU : U) (dV : V) (f : T -> U -> V)
    (a : ndarray T) (v : U) :
  exists r,
    ufunc2 dT dU f a (scalar v) = Ok r /\ shape r = shape a /\ wf r
    /\ forall idx, inb (shape a) idx -> get dV r idx = f (get dT a idx) v.
Proof.
  rewrite ufunc2_Ok with (sh := shape a) by apply broadcast_shapes_nil_r.
  eexists. split; [reflexivity|]. split; [reflexivity|]. split; [apply wf_build|].
  intros idx Hidx. rewrite get_build by exact Hidx.
  now rewrite (bindex_inb Hidx).
Qed.

(** X5: on operands of one shape Mul's forward multiplies element by
    element and saves both operands, and its backward follows the product
    rule: the gradient of each operand is the other operand times the
    incoming gradient, element by element. *)
Theorem Mul_product_rule (x y g : ndarray A) (sh : list nat) :
  shape x = sh -> shape y = sh -> shape g = sh ->
  exists out gx gy,
    Mul_forward new_ctx x y = Ok (MkCtx [STensor x; STensor y], out)
    /\ Mul_backward (MkCtx [STensor x; STensor y]) g = Ok (Grad gx, Grad gy)
    /\ shape out = sh /\ shape gx = sh /\ shape gy = sh
    /\ forall idx, inb sh idx ->
         at_ out idx = mul (at_ x idx) (at_ y idx)
         /\ at_ gx idx = mul (at_ y idx) (at_ g idx)
         /\ at_ gy idx = mul (at_ x idx) (at_ g idx).
Proof.
  intros Hx Hy Hg.
  destruct (ufunc2_same_shape zero zero zero mul x y Hx Hy) as (out & Eo & So & _ & Vo).
  destruct (ufunc2_same_shape zero zero zero mul y g Hy Hg) as (gx & Ex & Sx & _ & Vx).
  destruct (ufunc2_same_shape zero zero zero mul x g Hx Hg) as (gy & Ey & Sy & _ & Vy).
  exists out, gx, gy. unfold Mul_forward, Mul_backward. cbn [saved_tensors].
  rewrite Eo, Ex, Ey. cbn [bind].
  repeat split; try assumption; unfold at_; auto.
Qed.

(** X6: Add's and Mul's forward do not depend on the order of the
    operands, broadcasting and exceptions included, when the addition and
    the multiplication of the elements are commutative. *)
Theorem Add_Mul_forward_comm (x y : ndarray A) :
  (forall a b : A, add a b = add b a) ->
  (forall a b : A, mul a b = mul b a) ->
  (r <- Add_forward new_ctx x y ;; Ok (snd r))
  = (r <- Add_forward new_ctx y x ;; Ok (snd r))
  /\ (r <- Mul_forward new_ctx x y ;; Ok (snd r))
     = (r <- Mul_forward new_ctx y x ;; Ok (snd r)).
Proof.
  intros Hadd Hmul.
  assert (H : forall f : A -> A -> A, (forall a b, f a b = f b a) ->
                ufunc2 zero zero f x y = ufunc2 zero zero f y x).
  { intros f Hf. unfold ufunc2. rewrite (broadcast_shapes_comm (shape y)).
    destruct (broadcast_shapes (shape x) (shape y)); [|reflexivity].
    f_equal. apply build_ext. intros idx _. apply Hf. }
  unfold Add_forward, Mul_forward. rewrite (H add Hadd), (H mul Hmul).
  split.
  - destruct (ufunc2 zero zero add y x); reflexivity.
  - destruct (ufunc2 zero zero mul y x); reflexivity.
Qed.

(** X7: Add broadcasts a vector over the rows of a matrix, and its backward
    then returns a gradient of the matrix's shape for the vector too: the
    gradient is not summed back to the shape of the operand that was
    broadcast. *)
Theorem Add_broadcast_gradient (x y g : ndarray A) (n m : nat) :
  shape x = [n; m] -> shape y = [m] -> shape g = [n; m] ->
  exists ctx out gx gy,
    Add_forward new_ctx x y = Ok (ctx, out)
    /\ shape out = [n; m]
    /\ (forall i j, i < n -> j < m ->
          at_ out [i; j] = add (at_ x [i; j]) (at_ y [j]))
    /\ Add_backward ctx g = Ok (Grad gx, Grad gy)
    /\ gx = g /\ gy = g
    /\ shape gy <> shape y.
Proof.
  intros Hx Hy Hg. unfold Add_forward, Add_backward.
  rewrite ufunc2_Ok with (sh := [n; m])
    by (rewrite Hx, Hy; apply broadcast_shapes_row).
  cbn [bind]. eexists _, _, g, g.
  split; [reflexivity|]. split; [reflexivity|].
  split; [|split; [reflexivity|split; [reflexivity|split; [reflexivity|]]]].
  - intros i j Hi Hj. rewrite at_build by inb_solve.
    rewrite Hx, Hy, bindex_inb, bindex_row by (try assumption; inb_solve).
    reflexivity.
  - rewrite Hg, Hy. discriminate.
Qed.

(** X8: ReLU's forward is defined on every array; it saves the input and
    replaces the negative elements by zero, leaving the others (zero
    included) as they are, and applying it to its own output changes
    nothing. *)
Theorem ReLU_forward_spec (x : ndarray A) :
  exists out,
    ReLU_forward new_ctx x = Ok (MkCtx [STensor x], out)
    /\ shape out = shape x /\ wf out
    /\ (forall idx, inb (shape x) idx ->
          at_ out idx = if ltb (at_ x idx) zero then zero else at_ x idx)
    /\ ReLU_forward new_ctx out = Ok (MkCtx [STensor out], out).
Proof.
  destruct (ufunc2_scalar zero zero zero maximum x zero) as (out & E & Hs & Hw & Hv).
  exists out. unfold ReLU_forward. rewrite E. cbn [bind].
  split; [reflexivity|]. split; [exact Hs|]. split; [exact Hw|].
  split; [exact Hv|].
  destruct (ufunc2_scalar zero zero zero maximum out zero)
    as (out2 & E2 & Hs2 & Hw2 & Hv2).
  rewrite E2. cbn [bind]. do 2 f_equal.
  apply (ndarray_ext zero); try assumption.
  intros idx Hidx. rewrite Hv2 by (now rewrite <- Hs2).
  rewrite Hs2, Hs in Hidx. rewrite (Hv idx Hidx). unfold maximum.
  destruct (ltb (get zero x idx) zero) eqn:E1.
  - destruct (ltb zero zero); reflexivity.
  - now rewrite E1.
Qed.

Lemma mask_fits_refl (sh : list nat) : mask_fits sh sh = true.
Proof.
  induction sh as [|a sh IH]; [reflexivity|].
  cbn [mask_fits]. now rewrite Nat.eqb_refl, orb_true_r, IH.
Qed.

Lemma mask_fits_eq (ms sh : list nat) :
  length ms = length sh -> ~ In 0 ms -> mask_fits ms sh = true -> ms = sh.
Proof.
  revert sh. induction ms as [|m ms IH]; intros [|a sh] Hl H0 Hf;
    try discriminate; [reflexivity|].
  cbn [mask_fits] in Hf. apply andb_prop in Hf. destruct Hf as [Hm Hf].
  destruct (Nat.eqb_spec m 0) as [->|_]; [exfalso; apply H0; now left|].
  cbn [orb] in Hm. apply Nat.eqb_eq in Hm. subst a. f_equal.
  apply IH; [now injection Hl|intros Hin; apply H0; now right|exact Hf].
Qed.

Lemma mask_fits_Forall2 (ms sh : list nat) :
  Forall2 (fun m a => m = 0 \/ m = a) ms sh -> mask_fits ms sh = true.
Proof.
  intros H. induction H as [|m a ms sh Hm _ IH]; [reflexivity|].
  cbn [mask_fits]. rewrite IH. destruct Hm as [->| ->].
  - reflexivity.
  - now rewrite Nat.eqb_refl, orb_true_r.
Qed.

Lemma numel_In_0 (sh : list nat) : In 0 sh -> numel sh = 0.
Proof.
  induction sh as [|a sh IH]; intros H; [destruct H|].
  destruct H as [->|Hin]; cbn [numel fold_right].
  - reflexivity.
  - fold (numel sh). rewrite (IH Hin). lia.
Qed.

(** X9: for an incoming gradient of the input's shape, ReLU's backward
    returns zero where the saved input is negative and the incoming
    gradient everywhere else, also where the input is exactly zero. *)
Theorem ReLU_backward_spec (x g : ndarray A) :
  shape g = shape x ->
  exists r,
    ReLU_backward (MkCtx [STensor x]) g = Ok r
    /\ shape r = shape x /\ wf r
    /\ forall idx, inb (shape x) idx ->
         at_ r idx = if ltb (at_ x idx) zero then zero else at_ g idx.
Proof.
  intros Hg. unfold ReLU_backward. cbn [saved_tensors].
  destruct (ufunc2_scalar zero zero false ltb x zero) as (m & E & Hs & Hw & Hv).
  rewrite E. cbn [bind]. unfold setitem_mask.
  rewrite Hs, Hg, mask_fits_refl.
  eexists. split; [reflexivity|]. split; [reflexivity|]. split; [apply wf_build|].
  intros idx Hidx. rewrite at_build by exact Hidx.
  pose proof (ravel_lt Hidx) as Hlt.
  destruct (Nat.eqb_spec (numel (shape x)) 0) as [Hz|_]; [lia|]. cbn [negb andb].
  rewrite <- (inb_length Hidx), firstn_all, (Hv idx Hidx). reflexivity.
Qed.

(** X10: when the incoming gradient has the rank of the saved input but
    another shape, ReLU's backward raises [IndexError] if the input has no
    axis of length 0: the boolean mask does not fit the gradient.  If the
    input has an axis of length 0 and each of its other axes has the
    length of the gradient's, the mask selects nothing and the backward
    returns the incoming gradient as it is. *)
Theorem ReLU_backward_shape_mismatch (x g : ndarray A) :
  length (shape g) = length (shape x) -> shape g <> shape x ->
  (~ In 0 (shape x) ->
   ReLU_backward (MkCtx [STensor x]) g = Raise IndexError)
  /\ (In 0 (shape x) ->
      Forall2 (fun m a => m = 0 \/ m = a) (shape x) (shape g) ->
      exists r,
        ReLU_backward (MkCtx [STensor x]) g = Ok r
        /\ shape r = shape g /\ wf r
        /\ forall idx, inb (shape g) idx -> at_ r idx = at_ g idx).
Proof.
  intros Hl Hne. unfold ReLU_backward. cbn [saved_tensors].
  destruct (ufunc2_scalar zero zero false ltb x zero) as (m & E & Hs & _ & _).
  rewrite E. cbn [bind]. unfold setitem_mask. rewrite Hs. split.
  - intros H0.
    destruct (mask_fits (shape x) (shape g)) eqn:Hf; [|reflexivity].
    exfalso. apply Hne. symmetry. now apply mask_fits_eq.
  - intros H0 Hfit. rewrite (mask_fits_Forall2 Hfit).
    eexists. split; [reflexivity|]. split; [reflexivity|].
    split; [apply wf_build|].
    intros idx Hidx. rewrite at_build by exact Hidx.
    now rewrite (numel_In_0 _ H0).
Qed.

End Elementwise.

(** ** Dot, and Sum of a Dot *)

Section DotMore.
Context {A : Type} {NA : Num A}.

(** X11: on two matrices Dot's forward succeeds exactly when the number of
    columns of the first is the number of rows of the second, and raises
    [ValueError] otherwise; its backward raises [ValueError] when the
    incoming gradient does not have the columns of the saved weight. *)
Theorem Dot_conformable (x w g : ndarray A) (m k k' n p q : nat) :
  shape x = [m; k] -> shape w = [k'; n] -> shape g = [p; q] ->
  (k = k' -> exists out, Dot_forward new_ctx x w = Ok (MkCtx [STensor x; STensor w], out)
                         /\ shape out = [m; n] /\ wf out)
  /\ (k <> k' -> Dot_forward new_ctx x w = Raise ValueError)
  /\ (q <> n -> Dot_backward (MkCtx [STensor x; STensor w]) g = Raise ValueError).
Proof.
  intros Hx Hw Hg. split; [|split].
  - intros <-. unfold Dot_forward. rewrite (dot_Ok _ _ Hx Hw). cbn [bind].
    eexists. split; [reflexivity|]. split; [reflexivity|apply wf_build].
  - intros Hne. unfold Dot_forward, dot. rewrite Hx, Hw.
    destruct (Nat.eqb_spec k k'); [contradiction|reflexivity].
  - intros Hne. unfold Dot_backward. cbn [saved_tensors].
    unfold dot at 1. rewrite Hg. unfold transpose at 1. rewrite Hw.
    cbn [shape build rev app].
    destruct (Nat.eqb_spec q n); [contradiction|reflexivity].
Qed.

(** X12: the gradients of [sum(x . w)]: seeding Sum's backward with the
    one-element gradient [g0] and passing what it returns to Dot's backward
    gives, at [x[i,l]], the sum over [j] of [g0 * w[l,j]] and, at
    [w[l,j]], the sum over [i] of [g0 * x[i,l]]. *)
Theorem Sum_of_Dot_gradient (x w : ndarray A) (m k n : nat) (g0 : A) :
  (forall a : A, mul a one = a) ->
  shape x = [m; k] -> shape w = [k; n] ->
  exists ctxD y ctxS loss gy gx gw,
    Dot_forward new_ctx x w = Ok (ctxD, y)
    /\ Sum_forward new_ctx y = Ok (ctxS, loss)
    /\ Sum_backward ctxS (NDArray [1] [g0]) = Ok gy
    /\ Dot_backward ctxD gy = Ok (Grad gx, Grad gw)
    /\ shape gx = shape x /\ shape gw = shape w
    /\ (forall i l, i < m -> l < k ->
          at_ gx [i; l] = sum_range n (fun j => mul g0 (at_ w [l; j])))
    /\ (forall l j, l < k -> j < n ->
          at_ gw [l; j] = sum_range m (fun i => mul g0 (at_ x [i; l]))).
Proof.
  intros Hone Hx Hw.
  set (y := build [m; n]
              (fun idx => sum_range k (fun l => mul (at_ x [ix 0 idx; l])
                                                   (at_ w [l; ix 1 idx])))).
  set (gy := build [m; n]
               (fun idx => mul (get zero (NDArray [1] [g0]) (bindex [1] idx))
                               (get zero (ones_like y) (bindex (shape (ones_like y)) idx)))).
  assert (Hgy : forall i j, i < m -> j < n -> at_ gy [i; j] = g0).
  { intros i j Hi Hj. unfold gy. rewrite at_build by inb_solve.
    rewrite bindex_one by discriminate.
    change (shape (ones_like y)) with [m; n].
    rewrite bindex_inb by inb_solve. unfold ones_like.
    rewrite get_build by inb_solve. apply Hone. }
  assert (HwT : shape (transpose zero w) = [n; k]) by (unfold transpose; now rewrite Hw).
  assert (HgT : shape (transpose zero gy) = [n; m]) by reflexivity.
  exists (MkCtx [STensor x; STensor w]), y, (MkCtx [STensor y]),
         (NDArray [1] [np_sum y]), gy.
  eexists _, _.
  split; [unfold Dot_forward; now rewrite (dot_Ok _ _ Hx Hw)|].
  split; [reflexivity|].
  split.
  { unfold Sum_backward. cbn [saved_tensors].
    apply (ufunc2_Ok zero zero mul (NDArray [1] [g0]) (ones_like y)).
    cbn [shape]. apply broadcast_shapes_one_l. discriminate. }
  split.
  { unfold Dot_backward. cbn [saved_tensors].
    rewrite (@dot_Ok _ _ gy (transpose zero w) m n k eq_refl HwT).
    rewrite (@dot_Ok _ _ (transpose zero gy) x n m k HgT Hx).
    reflexivity. }
  split; [now rewrite Hx|]. split; [now rewrite Hw|]. split.
  - intros i l Hi Hl. rewrite at_build by inb_solve. cbn [ix nth].
    apply sum_range_ext. intros j Hj.
    rewrite Hgy by assumption.
    rewrite get_transpose by (rewrite Hw; inb_solve). reflexivity.
  - intros l j Hl Hj.
    rewrite get_transpose by (cbn [shape build rev app]; inb_solve).
    cbn [rev app]. rewrite at_build by inb_solve. cbn [ix nth].
    apply sum_range_ext. intros i Hi.
    rewrite get_transpose by (cbn [shape rev app]; inb_solve).
    cbn [rev app]. now rewrite Hgy.
Qed.

End DotMore.

(** ** LogSoftmax, further *)

Section LogSoftmaxMore.
Context {A : Type} {NA : Num A} {TA : Transcendental A}.

Lemma logsumexp_spec (x : ndarray A) (n m : nat) :
  shape x = [n; m] -> 0 < m ->
  exists l,
    logsumexp x = Ok l /\ shape l = [n] /\ wf l
    /\ forall i, i < n ->
         at_ l [i]
         = add (max_range m (fun k => at_ x [i; k]))
               (log (sum_range m (fun k =>
                  exp (sub (at_ x [i; k]) (max_range m (fun k => at_ x [i; k])))))).
Proof.
  intros Hx Hm.
  set (c := build [n] (fun idx => max_range m (fun j => at_ x [ix 0 idx; j]))).
  set (xc := build [n; m] (fun idx => sub (at_ x idx) (at_ c [ix 0 idx]))).
  set (s := build [n] (fun idx => sum_range m (fun j => at_ (ufunc1 exp xc) [ix 0 idx; j]))).
  set (l := build [n] (fun idx => add (at_ c idx) (at_ (ufunc1 log s) idx))).
  exists l. split; [|split; [reflexivity|split; [apply wf_build|]]].
  - unfold logsumexp. rewrite (max_axis1_Ok _ Hx Hm). cbn [bind]. fold c.
    pose proof (ufunc2_column sub x c Hx eq_refl) as Hcol.
    destruct (reshape c [(-1)%Z; 1%Z]) as [c1|e]; [|discriminate].
    cbn [bind] in *. rewrite Hcol. cbn [bind]. fold xc.
    rewrite (sum_axis1_Ok (ufunc1 exp xc) (n := n) (m := m)) by reflexivity.
    cbn [bind]. fold s.
    rewrite ufunc2_Ok with (sh := [n]) by apply broadcast_shapes_same.
    f_equal. apply build_ext. intros idx Hidx. cbn [shape ufunc1 c s build].
    now rewrite (bindex_inb Hidx).
  - intros i Hi. unfold l. rewrite at_build by inb_solve. f_equal.
    + unfold c. rewrite at_build by inb_solve. reflexivity.
    + rewrite at_ufunc1 by (try apply wf_build; inb_solve).
      f_equal. unfold s. rewrite at_build by inb_solve. cbn [ix nth].
      apply sum_range_ext. intros k Hk.
      rewrite at_ufunc1 by (try apply wf_build; inb_solve).
      f_equal. unfold xc. rewrite at_build by inb_solve. cbn [ix nth].
      f_equal. unfold c. rewrite at_build by inb_solve. reflexivity.
Qed.

(** X13: LogSoftmax's forward raises [ValueError] on a matrix without
    columns (the row maximum of an empty row does not exist) and
    [AxisError] on an array of rank below 2. *)
Theorem LogSoftmax_forward_errors (x : ndarray A) :
  (forall n, shape x = [n; 0] -> LogSoftmax_forward new_ctx x = Raise ValueError)
  /\ (length (shape x) < 2 -> LogSoftmax_forward new_ctx x = Raise AxisError).
Proof.
  split.
  - intros n Hx. unfold LogSoftmax_forward, logsumexp, max_axis1. now rewrite Hx.
  - intros Hl. unfold LogSoftmax_forward, logsumexp, max_axis1.
    destruct (shape x) as [|d0 [|d1 rest]]; [reflexivity|reflexivity|].
    cbn [length] in Hl. lia.
Qed.

End LogSoftmaxMore.

(** Over the reals the row maximum drops out of the entries of
    log-softmax. *)
Lemma logsoftmax_entry_real (x : ndarray R) (m i j : nat) :
  0 < m ->
  logsoftmax_entry x m i j
  = (at_ x [i; j] - ln (sum_range m (fun k => exp (at_ x [i; k]))))%R.
Proof.
  intros Hm. unfold logsoftmax_entry.
  set (c := max_range m (fun k => at_ x [i; k])).
  assert (HS : (0 < sum_range m (fun k => exp (at_ x [i; k])))%R).
  { apply sum_range_R_pos; [exact Hm|]. intros k _. apply exp_pos. }
  rewrite sum_range_ext
    with (g := fun k => (exp (at_ x [i; k]) * Rtrigo_def.exp (- c))%R).
  - rewrite sum_range_R_scal. simpl.
    rewrite ln_mult by (try exact HS; apply exp_pos).
    rewrite ln_exp. ring.
  - intros k _. simpl. unfold Rminus. apply exp_plus.
Qed.

(** X14: over the reals, the [logsumexp] that subtracts the row maximum
    before exponentiating returns what the plain formula
    [log(sum(exp(x), axis=1))] returns. *)
Theorem logsumexp_is_log_sum_exp (x : ndarray R) (n m : nat) :
  shape x = [n; m] -> 0 < m ->
  exists l,
    logsumexp x = Ok l /\ shape l = [n]
    /\ forall i, i < n ->
         at_ l [i] = ln (sum_range m (fun k => exp (at_ x [i; k]))).
Proof.
  intros Hx Hm.
  destruct (logsumexp_spec x Hx Hm) as (l & El & Hs & _ & Hl).
  exists l. split; [exact El|]. split; [exact Hs|].
  intros i Hi. rewrite (Hl i Hi).
  pose proof (logsoftmax_entry_real x i 0 Hm) as E.
  unfold logsoftmax_entry in E. simpl in *. lra.
Qed.

(** ** MaxPool2x2, further *)

Section MaxPoolMore.
Context {A : Type} {NA : Num A}.

Lemma max_range_argmax (n : nat) (f : nat -> A) :
  max_range n f = f (argmax_range n f).
Proof.
  assert (H : forall l b,
            fold_left (fun m j => maximum m (f j)) l (f b)
            = f (fold_left (fun best j => if ltb (f best) (f j) then j else best) l b)).
  { induction l as [|j l IH]; intros b; cbn [fold_left]; [reflexivity|].
    unfold maximum at 2. destruct (ltb (f b) (f j)); apply IH. }
  apply H.
Qed.

Lemma block_position (Y X : nat) :
  Y < 2 -> X < 2 -> (Y * 2 + X) / 2 = Y /\ (Y * 2 + X) mod 2 = X.
Proof.
  intros HY HX.
  destruct Y as [|[|Y]]; [| |lia]; destruct X as [|[|X]]; try lia;
    split; reflexivity.
Qed.

(** X18: on an input of even height and width, every element of
    MaxPool2x2's output is the input element at the position that the saved
    index names in its 2x2 block, and no element of the block is larger. *)
Theorem MaxPool2x2_forward_value (x : ndarray A) (bs ch m n : nat) :
  (forall a : A, ltb a a = false) ->
  (forall a b c : A, ltb a b = true -> ltb b c = true -> ltb a c = true) ->
  (forall a b : A, ltb a b = false -> ltb b a = false -> a = b) ->
  shape x = [bs; ch; 2 * m; 2 * n] ->
  exists idxs out,
    MaxPool2x2_forward new_ctx x = Ok (MkCtx [SIndex idxs], out)
    /\ shape out = [bs; ch; m; n]
    /\ forall b c i j, b < bs -> c < ch -> i < m -> j < n ->
         get 0 idxs [b; c; i; j] < 4
         /\ at_ out [b; c; i; j]
            = at_ x [b; c; get 0 idxs [b; c; i; j] / 2 + 2 * i;
                           get 0 idxs [b; c; i; j] mod 2 + 2 * j]
         /\ forall Y X, Y < 2 -> X < 2 ->
              ltb (at_ out [b; c; i; j]) (at_ x [b; c; Y + 2 * i; X + 2 * j]) = false.
Proof.
  intros Hirr Htr Htot Hx.
  destruct (@MaxPool2x2_forward_spec _ _ x bs ch m n Hx)
    as (idxs & out & Hf & _ & _ & Hso & _ & Hv).
  exists idxs, out. split; [exact Hf|]. split; [exact Hso|].
  intros b c i j Hb Hc Hi Hj.
  destruct (Hv b c i j Hb Hc Hi Hj) as [Hw Ho].
  set (cand := fun k => at_ x [b; c; k / 2 + 2 * i; k mod 2 + 2 * j]) in *.
  split; [rewrite Hw; apply argmax_range_lt; lia|].
  rewrite Ho, max_range_argmax, <- Hw. split; [reflexivity|].
  intros Y X HY HX.
  destruct (@argmax_range_first _ _ Hirr Htr Htot 4 cand ltac:(lia)) as [Hmax _].
  rewrite <- Hw in Hmax.
  specialize (Hmax (Y * 2 + X) ltac:(lia)). unfold cand in Hmax.
  destruct (block_position HY HX) as [E1 E2]. now rewrite E1, E2 in Hmax.
Qed.

(** X19: MaxPool2x2's backward keeps the gradient of every output element
    whole: the four entries it writes to the element's 2x2 block add up to
    the incoming gradient of the element. *)
Theorem MaxPool2x2_backward_block_sum (x g : ndarray A) (bs ch m n : nat) :
  (forall a : A, mul a one = a) -> (forall a : A, mul a zero = zero) ->
  (forall a : A, add zero a = a) -> (forall a : A, add a zero = a) ->
  shape x = [bs; ch; 2 * m; 2 * n] -> shape g = [bs; ch; m; n] ->
  exists ctx out r,
    MaxPool2x2_forward new_ctx x = Ok (ctx, out)
    /\ MaxPool2x2_backward ctx g = Ok r
    /\ forall b c i j, b < bs -> c < ch -> i < m -> j < n ->
         add (add (add (at_ r [b; c; 0 + 2 * i; 0 + 2 * j])
                       (at_ r [b; c; 0 + 2 * i; 1 + 2 * j]))
                  (at_ r [b; c; 1 + 2 * i; 0 + 2 * j]))
             (at_ r [b; c; 1 + 2 * i; 1 + 2 * j])
         = at_ g [b; c; i; j].
Proof.
  intros Hone Hzero H0l H0r Hx Hg.
  destruct (@MaxPool2x2_forward_spec _ _ x bs ch m n Hx)
    as (idxs & out & Hf & Hsi & _ & _ & _ & Hv).
  destruct (@MaxPool2x2_backward_spec _ _ idxs g bs ch m n Hone Hzero Hsi Hg)
    as (r & Hb & _ & Hr).
  exists (MkCtx [SIndex idxs]), out, r. split; [exact Hf|]. split; [exact Hb|].
  intros b c i j Hbb Hc Hi Hj.
  destruct (Hv b c i j Hbb Hc Hi Hj) as [Hw _].
  assert (Hlt : get 0 idxs [b; c; i; j] < 4)
    by (rewrite Hw; apply argmax_range_lt; lia).
  rewrite !Hr by (try assumption; lia).
  destruct (get 0 idxs [b; c; i; j]) as [|[|[|[|k]]]]; [| | | |lia];
    cbn [Nat.mul Nat.add Nat.eqb]; now rewrite ?H0l, ?H0r.
Qed.

End MaxPoolMore.

(** ** Conv2D, further *)

Section ConvMore.
Context {A : Type} {NA : Num A}.

Lemma at_patch_entry (x : ndarray A) (cin H W b Y X ci i j : nat) :
  ci < cin -> i < H -> j < W ->
  patch_entry x cin H W b Y X (ravel [cin; H; W] [ci; i; j])
  = at_ x [b; ci; Y + i; X + j].
Proof.
  intros Hc Hi Hj. unfold patch_entry.
  rewrite nth_tabulate by inb_solve. reflexivity.
Qed.

Lemma at_kernel_entry (w : ndarray A) (cout cin H W c ci i j : nat) :
  shape w = [cout; cin; H; W] ->
  kernel_entry w cin H W c (ravel [cin; H; W] [ci; i; j]) = at_ w [c; ci; i; j].
Proof.
  intros Hw. unfold kernel_entry, at_, get. rewrite Hw. reflexivity.
Qed.

(** X20: Conv2D's forward raises [ValueError] when the kernels do not
    have as many input channels as the input: the flattened window and the
    flattened kernels do not conform in the first product. *)
Theorem Conv2D_forward_channel_mismatch (x w : ndarray A)
    (bs cin cin' iy ix_ cout H W : nat) :
  shape x = [bs; cin; iy; ix_] -> shape w = [cout; cin'; H; W] ->
  cin <> cin' -> 0 < H <= iy -> 0 < W <= ix_ -> 0 < cout -> 0 < bs ->
  Conv2D_forward new_ctx x w = Raise ValueError.
Proof.
  intros Hx Hw Hne [HH0 HH] [HW0 HW] Hc Hbs.
  unfold Conv2D_forward. rewrite Hw, (reshape_rows w Hw Hc), Hx.
  cbn [bind]. rewrite !out_dim by assumption.
  change [Z.of_nat bs; Z.of_nat cout; Z.of_nat (iy + 1 - H); Z.of_nat (ix_ + 1 - W)]
    with (map Z.of_nat [bs; cout; iy + 1 - H; ix_ + 1 - W]).
  rewrite np_zeros_of_nat, !Nat2Z.id. cbn [bind].
  destruct (iy + 1 - H) as [|oy] eqn:Eoy; [lia|].
  destruct (ix_ + 1 - W) as [|ox] eqn:Eox; [lia|].
  unfold range. cbn [seq for_].
  unfold window. rewrite Hx. cbn [bind].
  rewrite !slice_len_full by lia.
  erewrite reshape_rows by (try exact Hbs; reflexivity). cbn [bind].
  unfold dot. cbn [shape transpose build rev app].
  destruct (Nat.eqb_spec (numel [cin; H; W]) (numel [cin'; H; W])) as [E|_];
    [|reflexivity].
  exfalso. apply Hne. cbn [numel fold_right] in E.
  apply Nat.mul_cancel_r in E; [exact E|]. nia.
Qed.

(** X21: when the kernel is one row taller than the input, Conv2D's
    forward raises nothing and returns an output without rows; when it is
    taller still, the negative output height makes [np.zeros] raise
    [ValueError]. *)
Theorem Conv2D_forward_kernel_too_tall (x w : ndarray A)
    (bs cin iy ix_ cout H W : nat) :
  shape x = [bs; cin; iy; ix_] -> shape w = [cout; cin; H; W] ->
  0 < cout -> W <= ix_ + 1 ->
  (H = iy + 1 ->
   Conv2D_forward new_ctx x w
   = Ok (MkCtx [STensor x; STensor w], zeros [bs; cout; 0; ix_ + 1 - W]))
  /\ (iy + 1 < H -> Conv2D_forward new_ctx x w = Raise ValueError).
Proof.
  intros Hx Hw Hc HW. split; intros HH;
    unfold Conv2D_forward; rewrite Hw, (reshape_rows w Hw Hc), Hx; cbn [bind].
  - replace (Z.of_nat iy - (Z.of_nat H - 1))%Z with (Z.of_nat 0) by lia.
    replace (Z.of_nat ix_ - (Z.of_nat W - 1))%Z with (Z.of_nat (ix_ + 1 - W)) by lia.
    change [Z.of_nat bs; Z.of_nat cout; Z.of_nat 0; Z.of_nat (ix_ + 1 - W)]
      with (map Z.of_nat [bs; cout; 0; ix_ + 1 - W]).
    rewrite np_zeros_of_nat. reflexivity.
  - unfold np_zeros. cbn [existsb].
    destruct (Z.ltb_spec (Z.of_nat iy - (Z.of_nat H - 1)) 0) as [_|Hge]; [|lia].
    now rewrite !orb_true_r.
Qed.

Section Formulas.

Hypothesis add_assoc : forall a b c : A, add a (add b c) = add (add a b) c.
Hypothesis add_comm : forall a b : A, add a b = add b a.
Hypothesis add_0_l : forall a : A, add zero a = a.

(** X22: Conv2D's forward is the cross-correlation of the input with the
    kernels: the output at [(b, c, Y, X)] is the sum over the channels and
    the kernel positions of [x[b, ci, Y+i, X+j] * w[c, ci, i, j]]. *)
Theorem Conv2D_forward_formula (x w : ndarray A) (bs cin iy ix_ cout H W : nat) :
  shape x = [bs; cin; iy; ix_] -> shape w = [cout; cin; H; W] ->
  H <= iy -> W <= ix_ -> 0 < cout -> 0 < bs ->
  exists ctx out,
    Conv2D_forward new_ctx x w = Ok (ctx, out)
    /\ forall b c Y X, b < bs -> c < cout -> Y < iy + 1 - H -> X < ix_ + 1 - W ->
         at_ out [b; c; Y; X]
         = sum_range cin (fun ci =>
             sum_range H (fun i =>
               sum_range W (fun j =>
                 mul (at_ x [b; ci; Y + i; X + j]) (at_ w [c; ci; i; j])))).
Proof.
  intros Hx Hw HH HW Hc Hbs.
  destruct (@Conv2D_forward_spec _ _ x w bs cin iy ix_ cout H W Hx Hw HH HW Hc Hbs)
    as (out & Hf & _ & _ & Ho).
  eexists _, out. split; [exact Hf|].
  intros b c Y X Hb Hcc HY HX. rewrite (Ho b c Y X Hb Hcc HY HX).
  unfold conv_entry. rewrite (sum_range_numel3 add_assoc add_comm add_0_l).
  apply sum_range_ext. intros ci Hci.
  apply sum_range_ext. intros i Hi.
  apply sum_range_ext. intros j Hj.
  now rewrite at_patch_entry, (at_kernel_entry w c ci i j Hw).
Qed.

(** X23: the gradient of the kernels that Conv2D's backward returns: at
    [(c, ci, i, j)] it is the sum over the output positions and the batch
    of [g[b, c, Y, X] * x[b, ci, Y+i, X+j]]. *)
Theorem Conv2D_backward_dw_formula (x w g : ndarray A)
    (bs cin iy ix_ cout H W : nat) :
  shape x = [bs; cin; iy; ix_] -> shape w = [cout; cin; H; W] ->
  shape g = [bs; cout; iy + 1 - H; ix_ + 1 - W] ->
  H <= iy -> W <= ix_ -> 0 < cout -> 0 < bs ->
  exists dx dw,
    Conv2D_backward (MkCtx [STensor x; STensor w]) g = Ok (Grad dx, Grad dw)
    /\ shape dw = shape w
    /\ forall c ci i j, c < cout -> ci < cin -> i < H -> j < W ->
         at_ dw [c; ci; i; j]
         = sum_range (iy + 1 - H) (fun Y =>
             sum_range (ix_ + 1 - W) (fun X =>
               sum_range bs (fun b =>
                 mul (at_ g [b; c; Y; X]) (at_ x [b; ci; Y + i; X + j])))).
Proof.
  intros Hx Hw Hg HH HW Hc Hbs.
  destruct (@Conv2D_backward_spec _ _ add_assoc add_comm add_0_l
              x w g bs cin iy ix_ cout H W Hx Hw Hg HH HW Hc Hbs)
    as (dx & dw & Hb & _ & _ & Hsw & _ & _ & Hdw).
  exists dx, dw. split; [exact Hb|]. split; [congruence|].
  intros c ci i j Hcc Hci Hi Hj. rewrite (Hdw c ci i j Hcc Hci Hi Hj).
  apply sum_range_ext. intros Y _. apply sum_range_ext. intros X _.
  unfold dw_term. apply sum_range_ext. intros b _.
  now rewrite at_patch_entry.
Qed.

(** X24: the gradient of the input that Conv2D's backward returns: at
    [(b, ci, y, x)] it is the sum, over the output positions [(Y, X)] whose
    window covers [(y, x)], of the sum over the output channels of
    [g[b, c, Y, X] * w[c, ci, y-Y, x-X]]. *)
Theorem Conv2D_backward_dx_formula (x w g : ndarray A)
    (bs cin iy ix_ cout H W : nat) :
  shape x = [bs; cin; iy; ix_] -> shape w = [cout; cin; H; W] ->
  shape g = [bs; cout; iy + 1 - H; ix_ + 1 - W] ->
  H <= iy -> W <= ix_ -> 0 < cout -> 0 < bs ->
  exists dx dw,
    Conv2D_backward (MkCtx [STensor x; STensor w]) g = Ok (Grad dx, Grad dw)
    /\ shape dx = shape x
    /\ forall b ci y x_, b < bs -> ci < cin -> y < iy -> x_ < ix_ ->
         at_ dx [b; ci; y; x_]
         = sum_range (iy + 1 - H) (fun Y =>
             sum_range (ix_ + 1 - W) (fun X =>
               if (Y <=? y) && (y <? Y + H) && (X <=? x_) && (x_ <? X + W)
               then sum_range cout (fun c =>
                      mul (at_ g [b; c; Y; X]) (at_ w [c; ci; y - Y; x_ - X]))
               else zero)).
Proof.
  intros Hx Hw Hg HH HW Hc Hbs.
  destruct (@Conv2D_backward_spec _ _ add_assoc add_comm add_0_l
              x w g bs cin iy ix_ cout H W Hx Hw Hg HH HW Hc Hbs)
    as (dx & dw & Hb & Hsx & _ & _ & _ & Hdx & _).
  exists dx, dw. split; [exact Hb|]. split; [congruence|].
  intros b ci y x_ Hbb Hci Hy Hx_.
  rewrite (Hdx [b; ci; y; x_]) by inb_solve.
  set (term := fun Y X =>
         if (Y <=? y) && (y <? Y + H) && (X <=? x_) && (x_ <? X + W)
         then sum_range cout (fun c =>
                mul (at_ g [b; c; Y; X]) (at_ w [c; ci; y - Y; x_ - X]))
         else zero).
  rewrite fold_left_ext_in
    with (g := fun v Y => add v (sum_range (ix_ + 1 - W) (fun X => term Y X))).
  - rewrite (fold_left_add add_assoc add_comm add_0_l). apply add_0_l.
  - intros v Y _.
    rewrite fold_left_ext_in with (g := fun v X => add v (term Y X)).
    + apply (fold_left_add add_assoc add_comm add_0_l).
    + intros v' X _. unfold scatter_step, term. cbn [ix nth].
      destruct (Nat.leb_spec Y y); cbn [andb];
        [|symmetry; apply (add_0_r add_comm add_0_l)].
      destruct (Nat.ltb_spec y (Y + H)); cbn [andb];
        [|symmetry; apply (add_0_r add_comm add_0_l)].
      destruct (Nat.leb_spec X x_); cbn [andb];
        [|symmetry; apply (add_0_r add_comm add_0_l)].
      destruct (Nat.ltb_spec x_ (X + W)); cbn [andb];
        [|symmetry; apply (add_0_r add_comm add_0_l)].
      f_equal. unfold dxi_entry. apply sum_range_ext. intros c _.
      now rewrite (at_kernel_entry w c ci (y - Y) (x_ - X) Hw).
Qed.

End Formulas.

End ConvMore.

(** * [examples/hlb_cifar10.py] *)

(** ** The whitening patches *)

Lemma reshape_lead {T : Type} (a : ndarray T) (sh1 : list nat) (c h w : nat) :
  shape a = sh1 ++ [c; h; w] -> 0 < c -> 0 < h -> 0 < w ->
  reshape a [(-1)%Z; Z.of_nat c; Z.of_nat h; Z.of_nat w]
  = Ok (NDArray [numel sh1; c; h; w] (data a)).
Proof.
  intros Ha Hc Hh Hw. unfold reshape. rewrite Ha.
  assert (E : forall k, is_unknown (Z.of_nat k) = false)
    by (intros k; apply Z.ltb_ge; lia).
  unfold known_numel. replace (is_unknown (-1)) with true by reflexivity.
  cbn [filter negb]. rewrite !E.
  cbn [length fold_right negb filter map]. rewrite !E.
  replace (is_unknown (-1)) with true by reflexivity.
  cbn [negb length fold_right]. rewrite Z.mul_1_r, numel_app.
  cbn [numel fold_right]. rewrite Nat.mul_1_r.
  replace (Z.of_nat c * (Z.of_nat h * Z.of_nat w))%Z
    with (Z.of_nat (c * (h * w))) by lia.
  assert (Hk : 0 < c * (h * w)) by nia.
  destruct (Z.eqb_spec (Z.of_nat (c * (h * w))) 0) as [|_]; [lia|]. cbn [orb].
  rewrite Nat2Z.inj_mul, Z.mod_mul, Z.div_mul by lia.
  cbn [Z.eqb negb]. now rewrite !Nat2Z.id.
Qed.

Section Patches.
Context {T : Type}.
Variable dT : T.

Lemma patches_spec (imgs : ndarray T) (n c H W h w : nat) :
  shape imgs = [n; c; H; W] -> h <= H -> w <= W -> 0 < c -> 0 < h -> 0 < w ->
  _patches dT imgs h w
  = Ok (NDArray [numel [n; W + 1 - w; H + 1 - h]; c; h; w]
          (tabulate [n; W + 1 - w; H + 1 - h; c; h; w]
             (fun idx => get dT imgs [ix 0 idx; ix 3 idx;
                                      ix 2 idx + ix 4 idx; ix 1 idx + ix 5 idx]))).
Proof.
  intros Hd Hh Hw Hc Hh0 Hw0. unfold _patches, sliding_window_view. rewrite Hd.
  destruct (Nat.ltb_spec H h); [lia|]. destruct (Nat.ltb_spec W w); [lia|].
  cbn [orb bind].
  erewrite (@reshape_lead T _ [n; W + 1 - w; H + 1 - h] c h w);
    [|reflexivity|assumption..].
  f_equal. f_equal. unfold transpose_axes. cbn [shape build data].
  apply tabulate_ext. intros idx Hidx. inb_inv.
  cbn [map range seq length find nth Nat.eqb].
  rewrite get_build by inb_solve. reflexivity.
Qed.

(** X25: [_patches] returns one patch for every position of an [h] by [w]
    window in every image, the positions of one image column by column;
    the patch at [(b, X, Y)] holds, at [(ci, i, j)], the pixel
    [imgs[b, ci, Y+i, X+j]]. *)
Theorem patches_are_windows (imgs : ndarray T) (n c H W h w : nat) :
  shape imgs = [n; c; H; W] -> h <= H -> w <= W -> 0 < c -> 0 < h -> 0 < w ->
  exists p,
    _patches dT imgs h w = Ok p
    /\ shape p = [n * ((W + 1 - w) * (H + 1 - h)); c; h; w]
    /\ wf p
    /\ forall b X Y ci i j,
         b < n -> X < W + 1 - w -> Y < H + 1 - h -> ci < c -> i < h -> j < w ->
         get dT p [(b * (W + 1 - w) + X) * (H + 1 - h) + Y; ci; i; j]
         = get dT imgs [b; ci; Y + i; X + j].
Proof.
  intros Hd Hh Hw Hc Hh0 Hw0.
  eexists. split; [apply (patches_spec imgs Hd Hh Hw Hc Hh0 Hw0)|].
  split; [cbn [shape numel fold_right]; f_equal; lia|].
  split.
  { unfold wf. cbn [shape data]. rewrite length_tabulate.
    cbn [numel fold_right]. lia. }
  intros b X Y ci i j Hb HX HY Hci Hi Hj.
  replace ((b * (W + 1 - w) + X) * (H + 1 - h) + Y)
    with (ravel [n; W + 1 - w; H + 1 - h] [b; X; Y])
    by (cbn [ravel numel fold_right]; lia).
  rewrite <- (@get_merge_axes T dT [n; W + 1 - w; H + 1 - h] [c; h; w]
                [b; X; Y] [ci; i; j]) by reflexivity.
  cbn [app]. unfold get at 1. cbn [shape data].
  rewrite nth_tabulate by inb_solve. reflexivity.
Qed.

End Patches.

(** ** The covariance of the patches *)

(** X26: for a matrix of [n] rows and [m] columns, [n] other than 1,
    [_cov] returns the [m] by [m] matrix of the column products
    [sum_k X[k,i] * X[k,j]] divided by [n - 1], which is symmetric. *)
Theorem cov_symmetric (X : ndarray R) (n m : nat) :
  shape X = [n; m] -> n <> 1 ->
  exists c,
    _cov X = Ok c
    /\ shape c = [m; m]
    /\ (forall i j, i < m -> j < m ->
          at_ c [i; j]
          = (sum_range n (fun k => at_ X [k; i] * at_ X [k; j])
             / IZR (Z.of_nat n - 1))%R)
    /\ (forall i j, i < m -> j < m -> at_ c [i; j] = at_ c [j; i]).
Proof.
  intros HX Hn. unfold _cov.
  rewrite (@dot_Ok R Num_R (transpose 0%R X) X m n m)
    by (try exact HX; unfold transpose; cbn [shape build]; now rewrite HX).
  cbn [bind]. rewrite HX.
  destruct (Nat.eqb_spec n 1) as [|_]; [contradiction|].
  eexists. split; [reflexivity|].
  split; [reflexivity|].
  assert (Hentry : forall i j, i < m -> j < m ->
            at_ (ufunc1 (fun v => (v / IZR (Z.of_nat n - 1))%R)
                   (build [m; m]
                      (fun idx => sum_range n (fun l =>
                         mul (at_ (transpose 0%R X) [ix 0 idx; l])
                             (at_ X [l; ix 1 idx]))))) [i; j]
            = (sum_range n (fun k => at_ X [k; i] * at_ X [k; j])
               / IZR (Z.of_nat n - 1))%R).
  { intros i j Hi Hj.
    rewrite at_ufunc1 by (try apply wf_build; inb_solve).
    rewrite at_build by inb_solve. cbn [ix nth]. f_equal.
    apply sum_range_ext. intros k Hk.
    change (transpose 0%R X) with (transpose (zero (A := R)) X).
    rewrite get_transpose by (rewrite HX; cbn [rev app]; inb_solve).
    reflexivity. }
  split; [exact Hentry|].
  intros i j Hi Hj. rewrite !Hentry by assumption. f_equal.
  apply sum_range_ext. intros k _. apply Rmult_comm.
Qed.

(** ** The batches of the evaluation pass *)

Lemma for_append {I V : Type} (l : list I)
    (body : I -> list V -> result (list V)) (f : I -> V) (acc : list V) :
  (forall i a, In i l -> body i a = Ok (a ++ [f i])) ->
  for_ l body acc = Ok (acc ++ map f l).
Proof.
  revert acc. induction l as [|i l IH]; intros acc H; cbn [for_ map].
  - now rewrite app_nil_r.
  - rewrite H by now left. cbn [bind].
    rewrite IH by (intros; apply H; now right).
    now rewrite <- app_assoc.
Qed.

Lemma batch_count (n BS : nat) :
  0 < BS ->
  Z.to_nat ((Z.of_nat n + Z.of_nat BS - 1) / Z.of_nat BS) = (n + BS - 1) / BS.
Proof.
  intros H.
  replace (Z.of_nat n + Z.of_nat BS - 1)%Z with (Z.of_nat (n + BS - 1)) by lia.
  now rewrite <- Nat2Z.inj_div, Nat2Z.id.
Qed.

Lemma batch_index_lt (n BS k : nat) :
  0 < BS -> k < (n + BS - 1) / BS -> k * BS < n.
Proof.
  intros H Hk. pose proof (Nat.Div0.mul_div_le (n + BS - 1) BS). nia.
Qed.

Section Batches.
Context {T U : Type}.
Variable (dT : T) (dU : U).

Lemma fetch_batches_spec (X : ndarray T) (Y : ndarray U) (n BS : nat)
    (rx ry : list nat) :
  shape X = n :: rx -> shape Y = n :: ry -> 0 < BS ->
  fetch_batches dT dU X Y (Z.of_nat BS)
  = Ok (map (fun i : Z =>
               let e := Z.min (i + Z.of_nat BS) (Z.of_nat n) in
               let lo := slice_index n (e - Z.of_nat BS) in
               let hi := slice_index n e in
               (build ((hi - lo) :: rx)
                  (fun idx => get dT X ((lo + ix 0 idx) :: tl idx)),
                build ((hi - lo) :: ry)
                  (fun idx => get dU Y ((lo + ix 0 idx) :: tl idx))))
            (map (fun k => (Z.of_nat k * Z.of_nat BS)%Z)
                 (range ((n + BS - 1) / BS)))).
Proof.
  intros HX HY HBS. unfold fetch_batches, range_step. rewrite HX.
  destruct (Z.eqb_spec (Z.of_nat BS) 0) as [|_]; [lia|].
  destruct (Z.ltb_spec (Z.of_nat BS) 0) as [|_]; [lia|].
  cbn [bind]. rewrite batch_count by assumption.
  rewrite for_append with (f := fun i : Z =>
               let e := Z.min (i + Z.of_nat BS) (Z.of_nat n) in
               let lo := slice_index n (e - Z.of_nat BS) in
               let hi := slice_index n e in
               (build ((hi - lo) :: rx)
                  (fun idx => get dT X ((lo + ix 0 idx) :: tl idx)),
                build ((hi - lo) :: ry)
                  (fun idx => get dU Y ((lo + ix 0 idx) :: tl idx)))).
  - reflexivity.
  - intros i a _. rewrite HY. unfold getitem_rows. rewrite HX, HY. reflexivity.
Qed.

Lemma fetch_batches_nth (X : ndarray T) (Y : ndarray U) (n BS : nat)
    (rx ry : list nat) :
  shape X = n :: rx -> shape Y = n :: ry -> 0 < BS <= n ->
  exists l,
    fetch_batches dT dU X Y (Z.of_nat BS) = Ok l
    /\ length l = (n + BS - 1) / BS
    /\ forall k, k < (n + BS - 1) / BS ->
         nth_error l k
         = Some (build (BS :: rx)
                   (fun idx => get dT X ((Nat.min ((k + 1) * BS) n - BS + ix 0 idx)
                                         :: tl idx)),
                 build (BS :: ry)
                   (fun idx => get dU Y ((Nat.min ((k + 1) * BS) n - BS + ix 0 idx)
                                         :: tl idx))).
Proof.
  intros HX HY [HBS Hle]. eexists.
  split; [apply (fetch_batches_spec X Y HX HY HBS)|].
  split; [unfold range; now rewrite !length_map, length_seq|].
  intros k Hk. rewrite map_map.
  rewrite nth_error_map. unfold range.
  rewrite nth_error_seq. 
  destruct (Nat.ltb_spec k ((n + BS - 1) / BS)) as [_|]; [|lia].
  cbn [option_map Nat.add].
  pose proof (@batch_index_lt n BS k HBS Hk) as Hlt. cbv zeta.
  assert (Ehi : slice_index n (Z.min (Z.of_nat k * Z.of_nat BS + Z.of_nat BS)
                                     (Z.of_nat n))
                = Nat.min ((k + 1) * BS) n).
  { unfold slice_index.
    destruct (Z.ltb_spec (Z.min (Z.of_nat k * Z.of_nat BS + Z.of_nat BS)
                                (Z.of_nat n)) 0); lia. }
  assert (Elo : slice_index n (Z.min (Z.of_nat k * Z.of_nat BS + Z.of_nat BS)
                                     (Z.of_nat n) - Z.of_nat BS)
                = Nat.min ((k + 1) * BS) n - BS).
  { unfold slice_index.
    destruct (Z.ltb_spec (Z.min (Z.of_nat k * Z.of_nat BS + Z.of_nat BS)
                                (Z.of_nat n) - Z.of_nat BS) 0); lia. }
  rewrite Ehi, Elo.
  replace (Nat.min ((k + 1) * BS) n - (Nat.min ((k + 1) * BS) n - BS)) with BS
    by lia.
  reflexivity.
Qed.

(** X27: when the batch size is at most the number [n] of rows, the
    evaluation pass of [fetch_batches] yields [ceil(n / BS)] batches of
    exactly [BS] rows each: batch [k] holds the rows of the data and of the
    labels that end at [min((k+1) * BS, n)], so the last batch is filled up
    with rows of the batch before. *)
Theorem fetch_batches_full_batches (X : ndarray T) (Y : ndarray U) (n BS : nat)
    (rx ry : list nat) :
  shape X = n :: rx -> shape Y = n :: ry -> 0 < BS <= n ->
  exists l,
    fetch_batches dT dU X Y (Z.of_nat BS) = Ok l
    /\ length l = (n + BS - 1) / BS
    /\ forall k, k < length l ->
       exists x y,
         nth_error l k = Some (x, y)
         /\ shape x = BS :: rx /\ shape y = BS :: ry
         /\ (forall r idx, r < BS -> inb rx idx ->
               get dT x (r :: idx)
               = get dT X ((Nat.min ((k + 1) * BS) n - BS + r) :: idx))
         /\ (forall r idx, r < BS -> inb ry idx ->
               get dU y (r :: idx)
               = get dU Y ((Nat.min ((k + 1) * BS) n - BS + r) :: idx)).
Proof.
  intros HX HY HBS.
  destruct (fetch_batches_nth X Y HX HY HBS) as (l & Hf & Hlen & Hnth).
  exists l. split; [exact Hf|]. split; [exact Hlen|].
  intros k Hk. rewrite Hlen in Hk. eexists _, _.
  split; [apply (Hnth k Hk)|]. split; [reflexivity|]. split; [reflexivity|].
  split; intros r idx Hr Hidx;
    (rewrite get_build by (constructor; assumption)); reflexivity.
Qed.

(** X28: when the batch size is at most the number of rows, the evaluation
    pass of [fetch_batches] leaves no row out: every row of the
    data, with its label, is a row of some batch. *)
Theorem fetch_batches_covers (X : ndarray T) (Y : ndarray U) (n BS : nat)
    (rx ry : list nat) :
  shape X = n :: rx -> shape Y = n :: ry -> 0 < BS <= n ->
  exists l,
    fetch_batches dT dU X Y (Z.of_nat BS) = Ok l
    /\ forall row, row < n ->
       exists k r x y,
         nth_error l k = Some (x, y) /\ r < BS
         /\ (forall idx, inb rx idx -> get dT x (r :: idx) = get dT X (row :: idx))
         /\ (forall idx, inb ry idx -> get dU y (r :: idx) = get dU Y (row :: idx)).
Proof.
  intros HX HY HBS.
  destruct (fetch_batches_nth X Y HX HY HBS) as (l & Hf & Hlen & Hnth).
  exists l. split; [exact Hf|]. intros row Hrow.
  assert (Hk : row / BS < (n + BS - 1) / BS).
  { apply Nat.Div0.div_lt_upper_bound.
    pose proof (Nat.div_mod_eq (n + BS - 1) BS).
    pose proof (Nat.mod_upper_bound (n + BS - 1) BS). nia. }
  pose proof (Nat.div_mod_eq row BS) as Hdm.
  pose proof (Nat.mod_upper_bound row BS) as Hmod.
  exists (row / BS), (row - (Nat.min ((row / BS + 1) * BS) n - BS)).
  eexists _, _. split; [apply (Hnth _ Hk)|].
  assert (Hr : row - (Nat.min ((row / BS + 1) * BS) n - BS) < BS) by nia.
  assert (Ero : Nat.min ((row / BS + 1) * BS) n - BS
                + (row - (Nat.min ((row / BS + 1) * BS) n - BS)) = row) by nia.
  split; [exact Hr|].
  split; intros idx Hidx;
    (rewrite get_build by (constructor; assumption));
    cbn [ix nth tl]; now rewrite Ero.
Qed.

(** X29: when the data has fewer rows than the batch size, the evaluation
    pass yields a single batch, and the negative start of its slice counts
    from the end: the batch holds the last [min(n, BS - n)] rows, not [BS]
    rows, and not all [n] rows unless [BS >= 2 * n]. *)
Theorem fetch_batches_short_data (X : ndarray T) (Y : ndarray U) (n BS : nat)
    (rx ry : list nat) :
  shape X = n :: rx -> shape Y = n :: ry -> 0 < n < BS ->
  exists x y,
    fetch_batches dT dU X Y (Z.of_nat BS) = Ok [(x, y)]
    /\ shape x = Nat.min n (BS - n) :: rx
    /\ shape y = Nat.min n (BS - n) :: ry
    /\ (forall r idx, r < Nat.min n (BS - n) -> inb rx idx ->
          get dT x (r :: idx) = get dT X ((n - Nat.min n (BS - n) + r) :: idx))
    /\ (forall r idx, r < Nat.min n (BS - n) -> inb ry idx ->
          get dU y (r :: idx) = get dU Y ((n - Nat.min n (BS - n) + r) :: idx)).
Proof.
  intros HX HY [Hn HBS].
  assert (H0 : 0 < BS) by lia.
  pose proof (fetch_batches_spec X Y HX HY H0) as Hf.
  assert (Ec : (n + BS - 1) / BS = 1).
  { symmetry. apply (Nat.div_unique _ _ 1 (n - 1)); lia. }
  rewrite Ec in Hf. cbn [range seq map] in Hf. cbv zeta in Hf.
  replace (Z.min (Z.of_nat 0 * Z.of_nat BS + Z.of_nat BS) (Z.of_nat n))
    with (Z.of_nat n) in Hf by lia.
  assert (Ehi : slice_index n (Z.of_nat n) = n).
  { unfold slice_index. destruct (Z.ltb_spec (Z.of_nat n) 0); lia. }
  assert (Elo : slice_index n (Z.of_nat n - Z.of_nat BS) = n - Nat.min n (BS - n)).
  { unfold slice_index.
    destruct (Z.ltb_spec (Z.of_nat n - Z.of_nat BS) 0); lia. }
  rewrite Ehi, Elo in Hf.
  replace (n - (n - Nat.min n (BS - n))) with (Nat.min n (BS - n)) in Hf by lia.
  eexists _, _. split; [exact Hf|]. split; [reflexivity|]. split; [reflexivity|].
  split; intros r idx Hr Hidx;
    (rewrite get_build by (constructor; assumption)); reflexivity.
Qed.

End Batches.

(** * The further properties on concrete arrays *)

Lemma Mul_product_rule_witness :
  let x : ndarray Z := NDArray [2] [3; 4]%Z in
  let y : ndarray Z := NDArray [2] [5; 6]%Z in
  let g : ndarray Z := NDArray [2] [1; 2]%Z in
  exists out gx gy,
    Mul_forward new_ctx x y = Ok (MkCtx [STensor x; STensor y], out)
    /\ Mul_backward (MkCtx [STensor x; STensor y]) g = Ok (Grad gx, Grad gy)
    /\ shape out = [2] /\ shape gx = [2] /\ shape gy = [2]
    /\ forall idx, inb [2] idx ->
         at_ out idx = mul (at_ x idx) (at_ y idx)
         /\ at_ gx idx = mul (at_ y idx) (at_ g idx)
         /\ at_ gy idx = mul (at_ x idx) (at_ g idx).
Proof.
  intros x y g. apply (@Mul_product_rule Z Num_Z x y g [2]); reflexivity.
Defined.

Lemma Add_Mul_forward_comm_witness :
  let x : ndarray Z := NDArray [2; 2] [1; 2; 3; 4]%Z in
  let y : ndarray Z := NDArray [2] [10; 20]%Z in
  (r <- Add_forward new_ctx x y ;; Ok (snd r))
  = (r <- Add_forward new_ctx y x ;; Ok (snd r))
  /\ (r <- Mul_forward new_ctx x y ;; Ok (snd r))
     = (r <- Mul_forward new_ctx y x ;; Ok (snd r)).
Proof.
  intros x y. apply (@Add_Mul_forward_comm Z Num_Z x y).
  - intros a b. simpl. lia.
  - intros a b. simpl. lia.
Defined.

Lemma Add_broadcast_gradient_witness :
  let x : ndarray Z := NDArray [2; 2] [1; 2; 3; 4]%Z in
  let y : ndarray Z := NDArray [2] [10; 20]%Z in
  let g : ndarray Z := NDArray [2; 2] [1; 1; 1; 1]%Z in
  exists ctx out gx gy,
    Add_forward new_ctx x y = Ok (ctx, out)
    /\ shape out = [2; 2]
    /\ (forall i j, i < 2 -> j < 2 ->
          at_ out [i; j] = add (at_ x [i; j]) (at_ y [j]))
    /\ Add_backward ctx g = Ok (Grad gx, Grad gy)
    /\ gx = g /\ gy = g
    /\ shape gy <> shape y.
Proof.
  intros x y g. apply (@Add_broadcast_gradient Z Num_Z x y g 2 2); reflexivity.
Defined.

Lemma ReLU_backward_spec_witness :
  let x : ndarray Z := NDArray [3] [-1; 0; 2]%Z in
  let g : ndarray Z := NDArray [3] [5; 6; 7]%Z in
  exists r,
    ReLU_backward (MkCtx [STensor x]) g = Ok r
    /\ shape r = shape x /\ wf r
    /\ forall idx, inb (shape x) idx ->
         at_ r idx = if ltb (at_ x idx) zero then zero else at_ g idx.
Proof.
  intros x g. apply (@ReLU_backward_spec Z Num_Z x g). reflexivity.
Defined.

Lemma ReLU_backward_shape_mismatch_witness :
  let x : ndarray Z := NDArray [3] [-1; 0; 2]%Z in
  let g : ndarray Z := NDArray [2] [5; 6]%Z in
  let e : ndarray Z := NDArray [0] [] in
  let h : ndarray Z := NDArray [3] [1; 2; 3]%Z in
  ReLU_backward (MkCtx [STensor x]) g = Raise IndexError
  /\ exists r,
       ReLU_backward (MkCtx [STensor e]) h = Ok r
       /\ shape r = shape h /\ wf r
       /\ forall idx, inb (shape h) idx -> at_ r idx = at_ h idx.
Proof.
  intros x g e h. split.
  - assert (Hne : shape g <> shape x) by (simpl; congruence).
    apply (proj1 (@ReLU_backward_shape_mismatch Z Num_Z x g eq_refl Hne)).
    simpl. intuition discriminate.
  - assert (Hne : shape h <> shape e) by (simpl; congruence).
    apply (proj2 (@ReLU_backward_shape_mismatch Z Num_Z e h eq_refl Hne)).
    + simpl. now left.
    + simpl. repeat constructor.
Defined.

Lemma Dot_conformable_witness :
  let x : ndarray Z := NDArray [1; 2] [1; 2]%Z in
  let w : ndarray Z := NDArray [2; 1] [3; 4]%Z in
  let w' : ndarray Z := NDArray [3; 1] [3; 4; 5]%Z in
  let g : ndarray Z := NDArray [1; 2] [1; 1]%Z in
  (exists out, Dot_forward new_ctx x w = Ok (MkCtx [STensor x; STensor w], out)
               /\ shape out = [1; 1] /\ wf out)
  /\ Dot_forward new_ctx x w' = Raise ValueError
  /\ Dot_backward (MkCtx [STensor x; STensor w]) g = Raise ValueError.
Proof.
  intros x w w' g.
  assert (Hx : shape x = [1; 2]) by reflexivity.
  assert (Hw : shape w = [2; 1]) by reflexivity.
  assert (Hw' : shape w' = [3; 1]) by reflexivity.
  assert (Hg : shape g = [1; 2]) by reflexivity.
  split; [|split].
  - apply (proj1 (@Dot_conformable Z Num_Z x w g 1 2 2 1 1 2 Hx Hw Hg)).
    reflexivity.
  - apply (proj1 (proj2 (@Dot_conformable Z Num_Z x w' g 1 2 3 1 1 2 Hx Hw' Hg))).
    lia.
  - apply (proj2 (proj2 (@Dot_conformable Z Num_Z x w g 1 2 2 1 1 2 Hx Hw Hg))).
    lia.
Defined.

Lemma Sum_of_Dot_gradient_witness :
  let x : ndarray Z := NDArray [1; 2] [1; 2]%Z in
  let w : ndarray Z := NDArray [2; 2] [3; 4; 5; 6]%Z in
  exists ctxD y ctxS loss gy gx gw,
    Dot_forward new_ctx x w = Ok (ctxD, y)
    /\ Sum_forward new_ctx y = Ok (ctxS, loss)
    /\ Sum_backward ctxS (NDArray [1] [1%Z]) = Ok gy
    /\ Dot_backward ctxD gy = Ok (Grad gx, Grad gw)
    /\ shape gx = shape x /\ shape gw = shape w
    /\ (forall i l, i < 1 -> l < 2 ->
          at_ gx [i; l] = sum_range 2 (fun j => mul 1%Z (at_ w [l; j])))
    /\ (forall l j, l < 2 -> j < 2 ->
          at_ gw [l; j] = sum_range 1 (fun i => mul 1%Z (at_ x [i; l]))).
Proof.
  intros x w. apply (@Sum_of_Dot_gradient Z Num_Z x w 1 2 2 1%Z).
  - intros a. simpl. lia.
  - reflexivity.
  - reflexivity.
Defined.

Lemma LogSoftmax_forward_errors_witness :
  let x : ndarray R := NDArray [2; 0] [] in
  let v : ndarray R := NDArray [2] [1; 2]%R in
  LogSoftmax_forward new_ctx x = Raise ValueError
  /\ LogSoftmax_forward new_ctx v = Raise AxisError.
Proof.
  intros x v. split.
  - apply (proj1 (@LogSoftmax_forward_errors R Num_R Transcendental_R x) 2).
    reflexivity.
  - apply (proj2 (@LogSoftmax_forward_errors R Num_R Transcendental_R v)).
    simpl. lia.
Defined.

Lemma logsumexp_is_log_sum_exp_witness :
  let x : ndarray R := NDArray [2; 2] [1; 2; 3; 4]%R in
  exists l,
    logsumexp x = Ok l /\ shape l = [2]
    /\ forall i, i < 2 ->
         at_ l [i] = ln (sum_range 2 (fun k => exp (at_ x [i; k]))).
Proof.
  intros x. apply (@logsumexp_is_log_sum_exp x 2 2).
  - reflexivity.
  - lia.
Defined.

Lemma MaxPool2x2_forward_value_witness :
  let x : ndarray Z := NDArray [1; 1; 2; 2] [1; 5; 3; 5]%Z in
  exists idxs out,
    MaxPool2x2_forward new_ctx x = Ok (MkCtx [SIndex idxs], out)
    /\ shape out = [1; 1; 1; 1]
    /\ forall b c i j, b < 1 -> c < 1 -> i < 1 -> j < 1 ->
         get 0 idxs [b; c; i; j] < 4
         /\ at_ out [b; c; i; j]
            = at_ x [b; c; get 0 idxs [b; c; i; j] / 2 + 2 * i;
                           get 0 idxs [b; c; i; j] mod 2 + 2 * j]
         /\ forall Y X, Y < 2 -> X < 2 ->
              ltb (at_ out [b; c; i; j]) (at_ x [b; c; Y + 2 * i; X + 2 * j]) = false.
Proof.
  intros x. apply (@MaxPool2x2_forward_value Z Num_Z x 1 1 1 1).
  - intros a. apply Z.ltb_irrefl.
  - intros a b c Hab Hbc. simpl in *. lia.
  - intros a b Hab Hba. simpl in *. lia.
  - reflexivity.
Defined.

Lemma MaxPool2x2_backward_block_sum_witness :
  let x : ndarray Z := NDArray [1; 1; 2; 2] [1; 5; 3; 5]%Z in
  let g : ndarray Z := NDArray [1; 1; 1; 1] [7]%Z in
  exists ctx out r,
    MaxPool2x2_forward new_ctx x = Ok (ctx, out)
    /\ MaxPool2x2_backward ctx g = Ok r
    /\ forall b c i j, b < 1 -> c < 1 -> i < 1 -> j < 1 ->
         add (add (add (at_ r [b; c; 0 + 2 * i; 0 + 2 * j])
                       (at_ r [b; c; 0 + 2 * i; 1 + 2 * j]))
                  (at_ r [b; c; 1 + 2 * i; 0 + 2 * j]))
             (at_ r [b; c; 1 + 2 * i; 1 + 2 * j])
         = at_ g [b; c; i; j].
Proof.
  intros x g. apply (@MaxPool2x2_backward_block_sum Z Num_Z x g 1 1 1 1).
  - intros a. simpl. lia.
  - intros a. simpl. lia.
  - intros a. reflexivity.
  - intros a. simpl. lia.
  - reflexivity.
  - reflexivity.
Defined.

Lemma Conv2D_forward_channel_mismatch_witness :
  let x : ndarray Z := NDArray [1; 2; 2; 2] [1; 2; 3; 4; 5; 6; 7; 8]%Z in
  let w : ndarray Z := NDArray [1; 1; 2; 2] [1; 0; 0; 1]%Z in
  Conv2D_forward new_ctx x w = Raise ValueError.
Proof.
  intros x w.
  apply (@Conv2D_forward_channel_mismatch Z Num_Z x w 1 2 1 2 2 1 2 2);
    try reflexivity; lia.
Defined.

Lemma Conv2D_forward_kernel_too_tall_witness :
  let x : ndarray Z := NDArray [1; 1; 1; 2] [1; 2]%Z in
  let w : ndarray Z := NDArray [1; 1; 2; 2] [1; 0; 0; 1]%Z in
  let w' : ndarray Z := NDArray [1; 1; 3; 1] [1; 0; 1]%Z in
  Conv2D_forward new_ctx x w
  = Ok (MkCtx [STensor x; STensor w], zeros [1; 1; 0; 2 + 1 - 2])
  /\ Conv2D_forward new_ctx x w' = Raise ValueError.
Proof.
  intros x w w'. split.
  - apply (proj1 (@Conv2D_forward_kernel_too_tall Z Num_Z x w 1 1 1 2 1 2 2
                    eq_refl eq_refl ltac:(lia) ltac:(lia))).
    reflexivity.
  - apply (proj2 (@Conv2D_forward_kernel_too_tall Z Num_Z x w' 1 1 1 2 1 3 1
                    eq_refl eq_refl ltac:(lia) ltac:(lia))).
    lia.
Defined.

Lemma Conv2D_forward_formula_witness :
  let x : ndarray Z := NDArray [1; 1; 2; 3] [1; 2; 3; 4; 5; 6]%Z in
  let w : ndarray Z := NDArray [1; 1; 2; 2] [1; 0; 0; 1]%Z in
  exists ctx out,
    Conv2D_forward new_ctx x w = Ok (ctx, out)
    /\ forall b c Y X, b < 1 -> c < 1 -> Y < 2 + 1 - 2 -> X < 3 + 1 - 2 ->
         at_ out [b; c; Y; X]
         = sum_range 1 (fun ci =>
             sum_range 2 (fun i =>
               sum_range 2 (fun j =>
                 mul (at_ x [b; ci; Y + i; X + j]) (at_ w [c; ci; i; j])))).
Proof.
  intros x w.
  refine (@Conv2D_forward_formula Z Num_Z _ _ _ x w 1 1 2 3 1 2 2 _ _ _ _ _ _).
  - intros a b c. simpl. lia.
  - intros a b. simpl. lia.
  - intros a. reflexivity.
  - reflexivity.
  - reflexivity.
  - lia.
  - lia.
  - lia.
  - lia.
Defined.

Lemma Conv2D_backward_dw_formula_witness :
  let x : ndarray Z := NDArray [1; 1; 2; 3] [1; 2; 3; 4; 5; 6]%Z in
  let w : ndarray Z := NDArray [1; 1; 2; 2] [1; 0; 0; 1]%Z in
  let g : ndarray Z := NDArray [1; 1; 1; 2] [1; 2]%Z in
  exists dx dw,
    Conv2D_backward (MkCtx [STensor x; STensor w]) g = Ok (Grad dx, Grad dw)
    /\ shape dw = shape w
    /\ forall c ci i j, c < 1 -> ci < 1 -> i < 2 -> j < 2 ->
         at_ dw [c; ci; i; j]
         = sum_range (2 + 1 - 2) (fun Y =>
             sum_range (3 + 1 - 2) (fun X =>
               sum_range 1 (fun b =>
                 mul (at_ g [b; c; Y; X]) (at_ x [b; ci; Y + i; X + j])))).
Proof.
  intros x w g.
  refine (@Conv2D_backward_dw_formula Z Num_Z _ _ _ x w g 1 1 2 3 1 2 2
            _ _ _ _ _ _ _).
  - intros a b c. simpl. lia.
  - intros a b. simpl. lia.
  - intros a. reflexivity.
  - reflexivity.
  - reflexivity.
  - reflexivity.
  - lia.
  - lia.
  - lia.
  - lia.
Defined.

Lemma Conv2D_backward_dx_formula_witness :
  let x : ndarray Z := NDArray [1; 1; 2; 3] [1; 2; 3; 4; 5; 6]%Z in
  let w : ndarray Z := NDArray [1; 1; 2; 2] [1; 0; 0; 1]%Z in
  let g : ndarray Z := NDArray [1; 1; 1; 2] [1; 2]%Z in
  exists dx dw,
    Conv2D_backward (MkCtx [STensor x; STensor w]) g = Ok (Grad dx, Grad dw)
    /\ shape dx = shape x
    /\ forall b ci y x_, b < 1 -> ci < 1 -> y < 2 -> x_ < 3 ->
         at_ dx [b; ci; y; x_]
         = sum_range (2 + 1 - 2) (fun Y =>
             sum_range (3 + 1 - 2) (fun X =>
               if (Y <=? y) && (y <? Y + 2) && (X <=? x_) && (x_ <? X + 2)
               then sum_range 1 (fun c =>
                      mul (at_ g [b; c; Y; X]) (at_ w [c; ci; y - Y; x_ - X]))
               else zero)).
Proof.
  intros x w g.
  refine (@Conv2D_backward_dx_formula Z Num_Z _ _ _ x w g 1 1 2 3 1 2 2
            _ _ _ _ _ _ _).
  - intros a b c. simpl. lia.
  - intros a b. simpl. lia.
  - intros a. reflexivity.
  - reflexivity.
  - reflexivity.
  - reflexivity.
  - lia.
  - lia.
  - lia.
  - lia.
Defined.

Lemma patches_are_windows_witness :
  let imgs : ndarray Z := NDArray [1; 1; 2; 3] [1; 2; 3; 4; 5; 6]%Z in
  exists p,
    _patches 0%Z imgs 2 2 = Ok p
    /\ shape p = [1 * ((3 + 1 - 2) * (2 + 1 - 2)); 1; 2; 2]
    /\ wf p
    /\ forall b X Y ci i j,
         b < 1 -> X < 3 + 1 - 2 -> Y < 2 + 1 - 2 -> ci < 1 -> i < 2 -> j < 2 ->
         get 0%Z p [(b * (3 + 1 - 2) + X) * (2 + 1 - 2) + Y; ci; i; j]
         = get 0%Z imgs [b; ci; Y + i; X + j].
Proof.
  intros imgs. apply (@patches_are_windows Z 0%Z imgs 1 1 2 3 2 2);
    try reflexivity; lia.
Defined.

Lemma cov_symmetric_witness :
  let X : ndarray R := NDArray [3; 2] [1; 2; 3; 4; 5; 6]%R in
  exists c,
    _cov X = Ok c
    /\ shape c = [2; 2]
    /\ (forall i j, i < 2 -> j < 2 ->
          at_ c [i; j]
          = (sum_range 3 (fun k => at_ X [k; i] * at_ X [k; j])
             / IZR (Z.of_nat 3 - 1))%R)
    /\ (forall i j, i < 2 -> j < 2 -> at_ c [i; j] = at_ c [j; i]).
Proof.
  intros X. apply (@cov_symmetric X 3 2); [reflexivity|lia].
Defined.

Lemma fetch_batches_full_batches_witness :
  let X : ndarray Z := NDArray [5; 2] [0; 1; 10; 11; 20; 21; 30; 31; 40; 41]%Z in
  let Y : ndarray nat := NDArray [5] [0; 1; 2; 3; 4] in
  exists l,
    fetch_batches 0%Z 0 X Y (Z.of_nat 2) = Ok l
    /\ length l = (5 + 2 - 1) / 2
    /\ forall k, k < length l ->
       exists x y,
         nth_error l k = Some (x, y)
         /\ shape x = [2; 2] /\ shape y = [2]
         /\ (forall r idx, r < 2 -> inb [2] idx ->
               get 0%Z x (r :: idx)
               = get 0%Z X ((Nat.min ((k + 1) * 2) 5 - 2 + r) :: idx))
         /\ (forall r idx, r < 2 -> inb [] idx ->
               get 0 y (r :: idx)
               = get 0 Y ((Nat.min ((k + 1) * 2) 5 - 2 + r) :: idx)).
Proof.
  intros X Y.
  apply (@fetch_batches_full_batches Z nat 0%Z 0 X Y 5 2 [2] []);
    try reflexivity; lia.
Defined.

Lemma fetch_batches_covers_witness :
  let X : ndarray Z := NDArray [5; 2] [0; 1; 10; 11; 20; 21; 30; 31; 40; 41]%Z in
  let Y : ndarray nat := NDArray [5] [0; 1; 2; 3; 4] in
  exists l,
    fetch_batches 0%Z 0 X Y (Z.of_nat 2) = Ok l
    /\ forall row, row < 5 ->
       exists k r x y,
         nth_error l k = Some (x, y) /\ r < 2
         /\ (forall idx, inb [2] idx -> get 0%Z x (r :: idx) = get 0%Z X (row :: idx))
         /\ (forall idx, inb [] idx -> get 0 y (r :: idx) = get 0 Y (row :: idx)).
Proof.
  intros X Y.
  apply (@fetch_batches_covers Z nat 0%Z 0 X Y 5 2 [2] []);
    try reflexivity; lia.
Defined.

Lemma fetch_batches_short_data_witness :
  let X : ndarray Z := NDArray [3; 1] [10; 20; 30]%Z in
  let Y : ndarray nat := NDArray [3] [0; 1; 2] in
  exists x y,
    fetch_batches 0%Z 0 X Y (Z.of_nat 4) = Ok [(x, y)]
    /\ shape x = [Nat.min 3 (4 - 3); 1]
    /\ shape y = [Nat.min 3 (4 - 3)]
    /\ (forall r idx, r < Nat.min 3 (4 - 3) -> inb [1] idx ->
          get 0%Z x (r :: idx) = get 0%Z X ((3 - Nat.min 3 (4 - 3) + r) :: idx))
    /\ (forall r idx, r < Nat.min 3 (4 - 3) -> inb [] idx ->
          get 0 y (r :: idx) = get 0 Y ((3 - Nat.min 3 (4 - 3) + r) :: idx)).
Proof.
  intros X Y.
  apply (@fetch_batches_short_data Z nat 0%Z 0 X Y 3 4 [1] []);
    try reflexivity; lia.
Defined.
